(** * Content Studio front end (static/js/app.js): stream interpretation,
      content extraction and gallery reconciliation

    A shallow embedding of the interpretation pipeline of
    [MarketingVideoApp].

    - Strings are sequences of UTF-16 code units.  The regular expressions
      of the source are kept as pattern text; a parser turns them into
      syntax trees and an interpreter runs them with the backtracking
      semantics of ECMAScript (no [u] flag).  [String.prototype] methods
      and [decodeURIComponent] are functions on code units.
    - [String.prototype.toLowerCase], [JSON.parse] and [JSON.stringify] are
      parameters.
    - The methods are functions over an explicit state: the gallery
      ([generatedImages], [generatedImagesMeta], the cards of
      [contentGrid]) and, for the stream consumer, the buffer, its flags
      and the list of the calls made.
    - The stream is taken frame by frame, after the split into lines and
      the decoding of each [data: ] line. *)

From Stdlib Require Import NArith String Ascii.
From stdpp Require Import base option list gmap.

(** ** JavaScript strings

    A JavaScript string is a sequence of UTF-16 code units; the regular
    expressions of the source carry no [u] flag, so they too work on code
    units (an emoji outside the BMP is two of them). *)

Abbreviation jsstring := (list N).

Module Utf.

Fixpoint bytes (s : string) : list N :=
  match s with
  | EmptyString => []
  | String a s' => N_of_ascii a :: bytes s'
  end.

(** Code points of well-formed UTF-8 (the encoding of this file). *)
Fixpoint decode (bs : list N) : list N :=
  match bs with
  | [] => []
  | b :: t =>
      if (b <? 128)%N then b :: decode t
      else if (b <? 224)%N then
        match t with
        | b2 :: t2 => ((b - 192) * 64 + (b2 - 128))%N :: decode t2
        | _ => []
        end
      else if (b <? 240)%N then
        match t with
        | b2 :: b3 :: t3 =>
            ((b - 224) * 4096 + (b2 - 128) * 64 + (b3 - 128))%N :: decode t3
        | _ => []
        end
      else
        match t with
        | b2 :: b3 :: b4 :: t4 =>
            ((b - 240) * 262144 + (b2 - 128) * 4096
             + (b3 - 128) * 64 + (b4 - 128))%N :: decode t4
        | _ => []
        end
  end.

(** UTF-16 code units of one code point. *)
Definition units (cp : N) : list N :=
  if (cp <? 65536)%N then [cp]
  else [(55296 + (cp - 65536) / 1024)%N; (56320 + (cp - 65536) mod 1024)%N].

End Utf.

(** [js "..."] is the JavaScript string written between the quotes. *)
Definition js (s : string) : jsstring :=
  flat_map Utf.units (Utf.decode (Utf.bytes s)).

(** [jsq "..."] is [js "..."] with every apostrophe standing for a double
    quote (code unit 34). *)
Definition jsq (s : string) : jsstring :=
  map (fun c => if (c =? 39)%N then 34%N else c) (js s).

(** Character predicates of ECMAScript: WhiteSpace and LineTerminator
    (the set of [\s] and of [String.prototype.trim]). *)
Definition isLineTerminator (c : N) : bool :=
  (c =? 10)%N || (c =? 13)%N || (c =? 8232)%N || (c =? 8233)%N.

Definition isSpace (c : N) : bool :=
  ((9 <=? c) && (c <=? 13))%N || (c =? 32)%N || (c =? 160)%N || (c =? 5760)%N
  || ((8192 <=? c) && (c <=? 8202))%N || (c =? 8232)%N || (c =? 8233)%N
  || (c =? 8239)%N || (c =? 8287)%N || (c =? 12288)%N || (c =? 65279)%N.

Definition isDigit (c : N) : bool := ((48 <=? c) && (c <=? 57))%N.
Definition isUpper (c : N) : bool := ((65 <=? c) && (c <=? 90))%N.
Definition isLower (c : N) : bool := ((97 <=? c) && (c <=? 122))%N.
Definition isAlpha (c : N) : bool := isUpper c || isLower c.
Definition isWord (c : N) : bool := isAlpha c || isDigit c || (c =? 95)%N.

(** ** String.prototype methods used by the source *)

Definition substring (s : jsstring) (a b : nat) : jsstring :=
  take (b - a) (drop a s).

(** [s.slice(a, b)] for non-negative [a], [b]. *)
Definition slice (s : jsstring) (a b : nat) : jsstring := substring s a b.

Fixpoint startsWith (s p : jsstring) {struct p} : bool :=
  match p, s with
  | [], _ => true
  | c :: p', d :: s' => (c =? d)%N && startsWith s' p'
  | _ :: _, [] => false
  end.

Definition endsWith (s p : jsstring) : bool :=
  startsWith (reverse s) (reverse p).

Fixpoint includes (s p : jsstring) : bool :=
  startsWith s p || match s with [] => false | _ :: s' => includes s' p end.

Fixpoint trimStart (s : jsstring) : jsstring :=
  match s with
  | c :: s' => if isSpace c then trimStart s' else s
  | [] => []
  end.

Definition trim (s : jsstring) : jsstring :=
  reverse (trimStart (reverse (trimStart s))).

(** ** Regular expressions *)

Module Regex.

Inductive citem : Type :=
| CChr (c : N)
| CRng (lo hi : N)
| CSpace | CNotSpace | CDigit | CNotDigit | CWord | CNotWord.

Inductive regex : Type :=
| Eps
| Chr (c : N)
| Any
| Cls (neg : bool) (items : list citem)
| Seq (r1 r2 : regex)
| Alt (r1 r2 : regex)
| Rep (min : nat) (max : option nat) (greedy : bool) (r : regex)
| Grp (k : nat) (r : regex)
| Look (r : regex)
| Bol
| Eol.

Record flags : Type := Flags {
  fglobal : bool; fignoreCase : bool; fmultiline : bool; fdotAll : bool }.

Record RegExp : Type := MkRegExp {
  rx : regex; rflags : flags; ngroups : nat }.

(** Canonicalize of ECMAScript without the [u] flag.  Only the letters
    a-z are folded: every other code unit that occurs in a pattern of the
    source is caseless, and a code unit above 127 never folds onto one
    below 128. *)
Definition canon (ic : bool) (c : N) : N :=
  if ic && isLower c then (c - 32)%N else c.

Definition inRange (lo hi c : N) : bool := ((lo <=? c) && (c <=? hi))%N.

Definition itemMatch (ic : bool) (it : citem) (ch : N) : bool :=
  let cc := canon ic ch in
  match it with
  | CChr a => (canon ic a =? cc)%N
  | CRng lo hi =>
      inRange lo hi cc || (ic && isUpper cc && inRange lo hi (cc + 32)%N)
  | CSpace => isSpace ch
  | CNotSpace => negb (isSpace ch)
  | CDigit => isDigit ch
  | CNotDigit => negb (isDigit ch)
  | CWord => isWord ch
  | CNotWord => negb (isWord ch)
  end.

Definition clsMatch (ic neg : bool) (items : list citem) (ch : N) : bool :=
  xorb neg (existsb (fun it => itemMatch ic it ch) items).

(** Capture table: entry [k] is the range of group [k]. *)
Definition caps : Type := list (option (nat * nat)).

(** RepeatMatcher: an iteration that matches the empty string is refused
    once the minimum is reached; a greedy quantifier tries one more
    iteration before stopping, a lazy one stops first.  The result lists
    every way to match, in backtracking order, so its head is the match
    that backtracking finds first.  (No pattern of the source has a
    capturing group under a quantifier: the reset of the captures at each
    iteration is left out.)  Each call consumes input or lowers [min], so
    the fuel that [run] passes never runs out ([rep_fuel] below). *)
Fixpoint rep (step : nat -> caps -> list (nat * caps)) (greedy : bool)
    (fuel min : nat) (max : option nat) (i : nat) (c : caps)
    : list (nat * caps) :=
  match fuel with
  | 0 => []
  | S fuel' =>
      let stop := if min =? 0 then [(i, c)] else [] in
      let more :=
        match max with
        | Some 0 => []
        | _ =>
            flat_map
              (fun '(j, c') =>
                 if (min =? 0) && (j =? i) then []
                 else rep step greedy fuel' (pred min) (pred <$> max) j c')
              (step i c)
        end in
      if greedy then more ++ stop else stop ++ more
  end.

Definition atLineTerminator (inp : jsstring) (i : nat) : bool :=
  match inp !! i with Some x => isLineTerminator x | None => false end.

Fixpoint run (fl : flags) (inp : jsstring) (r : regex) (i : nat) (c : caps)
    {struct r} : list (nat * caps) :=
  match r with
  | Eps => [(i, c)]
  | Chr a =>
      match inp !! i with
      | Some x =>
          if (canon (fignoreCase fl) x =? canon (fignoreCase fl) a)%N
          then [(S i, c)] else []
      | None => []
      end
  | Any =>
      match inp !! i with
      | Some x =>
          if fdotAll fl || negb (isLineTerminator x) then [(S i, c)] else []
      | None => []
      end
  | Cls neg items =>
      match inp !! i with
      | Some x =>
          if clsMatch (fignoreCase fl) neg items x then [(S i, c)] else []
      | None => []
      end
  | Seq a b => flat_map (fun '(k, c') => run fl inp b k c') (run fl inp a i c)
  | Alt a b => run fl inp a i c ++ run fl inp b i c
  | Rep mn mx g a =>
      rep (run fl inp a) g (S (length inp - i) + mn) mn mx i c
  | Grp k a =>
      map (fun '(j, c') => (j, <[k := Some (i, j)]> c')) (run fl inp a i c)
  | Look a =>
      match run fl inp a i c with
      | (_, c') :: _ => [(i, c')]
      | [] => []
      end
  | Bol =>
      if (i =? 0) || (fmultiline fl && atLineTerminator inp (i - 1))
      then [(i, c)] else []
  | Eol =>
      if (i =? length inp) || (fmultiline fl && atLineTerminator inp i)
      then [(i, c)] else []
  end.

(** A match: start, end, captures. *)
Record MatchResult : Type := MkMatch {
  m_index : nat; m_end : nat; m_caps : caps }.

(** The first start position from [i] on at which the pattern matches. *)
Fixpoint search (re : RegExp) (inp : jsstring) (fuel i : nat)
    : option MatchResult :=
  match run (rflags re) inp (rx re) i (replicate (S (ngroups re)) None) with
  | (j, c) :: _ => Some (MkMatch i j c)
  | [] =>
      match fuel with
      | 0 => None
      | S fuel' => search re inp fuel' (S i)
      end
  end.

(** [re.exec(inp)] with [re.lastIndex = lastIndex]. *)
Definition exec (re : RegExp) (inp : jsstring) (lastIndex : nat)
    : option MatchResult :=
  if length inp <? lastIndex then None
  else search re inp (length inp - lastIndex) lastIndex.

(** [match[0]] and [match[k]] ([None] is [undefined]). *)
Definition whole (inp : jsstring) (m : MatchResult) : jsstring :=
  substring inp (m_index m) (m_end m).

Definition group (inp : jsstring) (m : MatchResult) (k : nat)
    : option jsstring :=
  match m_caps m !! k with
  | Some (Some (a, b)) => Some (substring inp a b)
  | _ => None
  end.

(** [match[k]] where the source uses it as a string. *)
Definition grp (inp : jsstring) (m : MatchResult) (k : nat) : jsstring :=
  default [] (group inp m k).

(** The successive matches of a global pattern from [lastIndex] on, as
    [String.prototype.match] and [replace] enumerate them and as a
    [while ((m = re.exec(text)) !== null)] loop does: the next search
    starts where the last match ended.  After an empty match [match] and
    [replace] start one further; a loop on [exec] would not, but the
    patterns that the source runs in such loops match no empty string
    ([loopPatterns_consume] below). *)
Fixpoint execFrom (re : RegExp) (inp : jsstring) (fuel lastIndex : nat)
    : list MatchResult :=
  match fuel with
  | 0 => []
  | S fuel' =>
      match exec re inp lastIndex with
      | None => []
      | Some m =>
          m :: execFrom re inp fuel'
                 (if m_end m =? m_index m then S (m_end m) else m_end m)
      end
  end.

Definition execAll (re : RegExp) (inp : jsstring) : list MatchResult :=
  execFrom re inp (S (length inp)) 0.

(** [inp.match(re)]: for a global pattern the list of matched substrings,
    [None] (null) when there is none. *)
Definition matchG (re : RegExp) (inp : jsstring) : option (list jsstring) :=
  match execAll re inp with
  | [] => None
  | ms => Some (map (whole inp) ms)
  end.

(** [inp.match(re)] for a pattern without [g], and [re.test(inp)]. *)
Definition match1 (re : RegExp) (inp : jsstring) : option MatchResult :=
  exec re inp 0.

Definition test (re : RegExp) (inp : jsstring) : bool :=
  bool_decide (is_Some (match1 re inp)).

(** [inp.replace(re, by)] for a replacement text without [$]. *)
Fixpoint replaceRanges (inp : jsstring) (by_ : jsstring)
    (ms : list MatchResult) (pos : nat) : jsstring :=
  match ms with
  | [] => drop pos inp
  | m :: ms' =>
      substring inp pos (m_index m) ++ by_
      ++ replaceRanges inp by_ ms' (m_end m)
  end.

Definition replace (re : RegExp) (inp by_ : jsstring) : jsstring :=
  if fglobal (rflags re) then replaceRanges inp by_ (execAll re inp) 0
  else match match1 re inp with
       | Some m => replaceRanges inp by_ [m] 0
       | None => inp
       end.

(** [inp.split(re)] for a pattern without capturing groups: the
    separator is tried at each position [q] in turn (SplitMatcher), an
    empty separator at the start of a piece is skipped. *)
Definition matchAt (re : RegExp) (inp : jsstring) (q : nat) : option nat :=
  match run (rflags re) inp (rx re) q (replicate (S (ngroups re)) None) with
  | (e, _) :: _ => Some e
  | [] => None
  end.

Fixpoint splitFrom (re : RegExp) (inp : jsstring) (fuel p q : nat)
    : list jsstring :=
  match fuel with
  | 0 => [drop p inp]
  | S fuel' =>
      if length inp <=? q then [drop p inp]
      else match matchAt re inp q with
           | None => splitFrom re inp fuel' p (S q)
           | Some e =>
               if e =? p then splitFrom re inp fuel' p (S q)
               else substring inp p q :: splitFrom re inp fuel' e e
           end
  end.

Definition split (re : RegExp) (inp : jsstring) : list jsstring :=
  match inp with
  | [] => match matchAt re inp 0 with Some _ => [] | None => [[]] end
  | _ => splitFrom re inp (S (length inp)) 0 0
  end.

(** *** Pattern text

    The patterns are written as in the source and parsed here
    (ECMAScript Pattern grammar without the [u] flag, restricted to the
    constructs the source uses). *)

Definition hexVal (c : N) : option N :=
  if isDigit c then Some (c - 48)%N
  else if inRange 97 102 c then Some (c - 87)%N
  else if inRange 65 70 c then Some (c - 55)%N
  else None.

(** The atom or class item an escape [\e] stands for. *)
Definition escapeItem (e : N) : option citem :=
  if (e =? 115)%N then Some CSpace
  else if (e =? 83)%N then Some CNotSpace
  else if (e =? 100)%N then Some CDigit
  else if (e =? 68)%N then Some CNotDigit
  else if (e =? 119)%N then Some CWord
  else if (e =? 87)%N then Some CNotWord
  else if (e =? 110)%N then Some (CChr 10)
  else if (e =? 114)%N then Some (CChr 13)
  else if (e =? 116)%N then Some (CChr 9)
  else if isWord e then None
  else Some (CChr e).

(** One escape after the backslash: the item and the rest. *)
Definition pEscape (s : jsstring) : option (citem * jsstring) :=
  match s with
  | 120%N :: h1 :: h2 :: t =>
      a ← hexVal h1; b ← hexVal h2; Some (CChr (a * 16 + b)%N, t)
  | e :: t => it ← escapeItem e; Some (it, t)
  | [] => None
  end.

Definition pClassAtom (s : jsstring) : option (citem * jsstring) :=
  match s with
  | 92%N :: t => pEscape t
  | c :: t => Some (CChr c, t)
  | [] => None
  end.

(** Items of a class up to the closing bracket. *)
Fixpoint pClassItems (fuel : nat) (s : jsstring)
    : option (list citem * jsstring) :=
  match fuel with
  | 0 => None
  | S fuel' =>
      match s with
      | 93%N :: t => Some ([], t)
      | _ =>
          '(a, s1) ← pClassAtom s;
          match a, s1 with
          | CChr lo, 45%N :: (c :: _) as s2 =>
              if (c =? 93)%N then
                '(its, t) ← pClassItems fuel' s1; Some (a :: its, t)
              else
                '(b, s3) ← pClassAtom s2;
                match b with
                | CChr hi =>
                    '(its, t) ← pClassItems fuel' s3;
                    Some (CRng lo hi :: its, t)
                | _ => None
                end
          | _, _ => '(its, t) ← pClassItems fuel' s1; Some (a :: its, t)
          end
      end
  end.

Fixpoint pNat (fuel : nat) (s : jsstring) (acc : nat) : nat * jsstring :=
  match fuel, s with
  | S fuel', c :: t =>
      if isDigit c then pNat fuel' t (acc * 10 + N.to_nat (c - 48)) else (acc, s)
  | _, _ => (acc, s)
  end.

(** The quantifier, if any, that follows an atom. *)
Definition pQuant (r : regex) (s : jsstring) : regex * jsstring :=
  let lazy (mn : nat) (mx : option nat) (t : jsstring) :=
    match t with
    | 63%N :: t' => (Rep mn mx false r, t')
    | _ => (Rep mn mx true r, t)
    end in
  match s with
  | 42%N :: t => lazy 0 None t
  | 43%N :: t => lazy 1 None t
  | 63%N :: t => lazy 0 (Some 1) t
  | 123%N :: t =>
      let '(mn, t1) := pNat (length t) t 0 in
      match t1 with
      | 125%N :: t2 => lazy mn (Some mn) t2
      | 44%N :: 125%N :: t2 => lazy mn None t2
      | 44%N :: t2 =>
          let '(mx, t3) := pNat (length t2) t2 0 in
          match t3 with
          | 125%N :: t4 => lazy mn (Some mx) t4
          | _ => (r, s)
          end
      | _ => (r, s)
      end
  | _ => (r, s)
  end.

Definition parser : Type :=
  jsstring -> nat -> option (regex * jsstring * nat).

Definition closeGroup (wrap : regex -> regex)
    (res : option (regex * jsstring * nat))
    : option (regex * jsstring * nat) :=
  '(r, t, g) ← res;
  match t with
  | 41%N :: t' => Some (wrap r, t', g)
  | _ => None
  end.

Definition quantified (res : option (regex * jsstring * nat))
    : option (regex * jsstring * nat) :=
  '(r, t, g) ← res;
  let '(q, t') := pQuant r t in Some (q, t', g).

(** One term: an assertion, or an atom with its quantifier.  [sub]
    parses the disjunction inside a group; [g] counts the capturing
    groups opened so far. *)
Definition pTerm (sub : parser) (s : jsstring) (g : nat)
    : option (regex * jsstring * nat) :=
  match s with
  | 94%N :: t => Some (Bol, t, g)
  | 36%N :: t => Some (Eol, t, g)
  | 40%N :: 63%N :: 61%N :: t => closeGroup Look (sub t g)
  | 40%N :: 63%N :: 58%N :: t => quantified (closeGroup id (sub t g))
  | 40%N :: 63%N :: _ => None
  | 40%N :: t => quantified (closeGroup (Grp (S g)) (sub t (S g)))
  | 91%N :: 94%N :: t =>
      '(its, t') ← pClassItems (S (length t)) t;
      quantified (Some (Cls true its, t', g))
  | 91%N :: t =>
      '(its, t') ← pClassItems (S (length t)) t;
      quantified (Some (Cls false its, t', g))
  | 46%N :: t => quantified (Some (Any, t, g))
  | 92%N :: t =>
      '(it, t') ← pEscape t;
      quantified (Some (match it with CChr c => Chr c | _ => Cls false [it] end,
                        t', g))
  | c :: t =>
      if (c =? 42)%N || (c =? 43)%N || (c =? 63)%N || (c =? 41)%N
         || (c =? 124)%N
      then None else quantified (Some (Chr c, t, g))
  | [] => None
  end.

(** An alternative: terms up to [|], [)] or the end. *)
Fixpoint pSeq (sub : parser) (fuel : nat) (s : jsstring) (g : nat)
    : option (regex * jsstring * nat) :=
  match fuel with
  | 0 => None
  | S fuel' =>
      match s with
      | [] | 124%N :: _ | 41%N :: _ => Some (Eps, s, g)
      | _ =>
          '(a, s1, g1) ← pTerm sub s g;
          '(b, s2, g2) ← pSeq sub fuel' s1 g1;
          Some (match b with Eps => a | _ => Seq a b end, s2, g2)
      end
  end.

Fixpoint pDisj (fuel : nat) (s : jsstring) (g : nat)
    : option (regex * jsstring * nat) :=
  match fuel with
  | 0 => None
  | S fuel' =>
      '(a, s1, g1) ← pSeq (pDisj fuel') (S (length s)) s g;
      match s1 with
      | 124%N :: s2 =>
          '(b, s3, g2) ← pDisj fuel' s2 g1; Some (Alt a b, s3, g2)
      | _ => Some (a, s1, g1)
      end
  end.

Definition parseFlags (f : jsstring) : flags :=
  Flags (bool_decide (103%N ∈ f)) (bool_decide (105%N ∈ f))
        (bool_decide (109%N ∈ f)) (bool_decide (115%N ∈ f)).

(** [regexp pattern flags]: the RegExp object of [/pattern/flags]. *)
Definition regexp (pattern fl : string) : option RegExp :=
  let p := js pattern in
  '(r, rest, g) ← pDisj (S (length p)) p 0;
  match rest with
  | [] => Some (MkRegExp r (parseFlags (js fl)) g)
  | _ => None
  end.

(** The value of a pattern that parses. *)
Definition the {A : Type} (o : option A)
    : match o with Some _ => A | None => unit end :=
  match o with Some a => a | None => tt end.

(** *** What a match is

    [matches fl inp r i j]: the pattern [r] can match the code units
    [i..j) of [inp] (captures left aside).  The interpreter above only
    returns such ranges ([run_sound] below). *)

Fixpoint iter (R : nat -> nat -> Prop) (n : nat) (i j : nat) : Prop :=
  match n with
  | 0 => j = i
  | S n' => exists k, R i k /\ iter R n' k j
  end.

Fixpoint matches (fl : flags) (inp : jsstring) (r : regex) (i j : nat) : Prop :=
  match r with
  | Eps => j = i
  | Chr a =>
      exists x, inp !! i = Some x
        /\ canon (fignoreCase fl) x = canon (fignoreCase fl) a /\ j = S i
  | Any =>
      exists x, inp !! i = Some x
        /\ fdotAll fl || negb (isLineTerminator x) = true /\ j = S i
  | Cls neg items =>
      exists x, inp !! i = Some x
        /\ clsMatch (fignoreCase fl) neg items x = true /\ j = S i
  | Seq a b => exists k, matches fl inp a i k /\ matches fl inp b k j
  | Alt a b => matches fl inp a i j \/ matches fl inp b i j
  | Rep mn mx _ a =>
      exists n, mn <= n /\ from_option (fun m => n <= m) True mx
        /\ iter (matches fl inp a) n i j
  | Grp _ a => matches fl inp a i j
  | Look a => j = i /\ exists k, matches fl inp a i k
  | Bol =>
      j = i /\ (i =? 0) || (fmultiline fl && atLineTerminator inp (i - 1)) = true
  | Eol =>
      j = i
      /\ (i =? length inp) || (fmultiline fl && atLineTerminator inp i) = true
  end.

(** The least number of code units that a match of [r] spans. *)
Fixpoint minLen (r : regex) : nat :=
  match r with
  | Eps | Look _ | Bol | Eol => 0
  | Chr _ | Any | Cls _ _ => 1
  | Seq a b => minLen a + minLen b
  | Alt a b => minLen a `min` minLen b
  | Rep mn _ _ a => mn * minLen a
  | Grp _ a => minLen a
  end.

(** A match found by [exec] starts at or after [lastIndex], lies within
    the input and is a match of the pattern. *)
Definition found (re : RegExp) (inp : jsstring) (from : nat) (m : MatchResult)
    : Prop :=
  from <= m_index m /\ m_index m <= m_end m /\ m_end m <= length inp
  /\ matches (rflags re) inp (rx re) (m_index m) (m_end m).

(** The matches enumerated by a global pattern come one after another. *)
Fixpoint chain (re : RegExp) (inp : jsstring) (from : nat)
    (ms : list MatchResult) : Prop :=
  match ms with
  | [] => True
  | m :: ms' => found re inp from m /\ chain re inp (m_end m) ms'
  end.

End Regex.

(** ** Gallery state

    [generatedImages] is the array of media references, in append order;
    [generatedImagesMeta] is the object keyed by media reference (its keys
    are paths, none of them a property of [Object.prototype]);
    [contentGrid] lists the cards of the gallery by the path they show,
    the newest first ([insertBefore(card, firstChild)]).  The markup of a
    card is outside the model; the localStorage snapshot written by
    [saveImagesToStorage] is a copy of the first two fields; DOM calls are
    taken not to throw. *)

Record Meta : Type := MkMeta { mcaption : jsstring; mhashtags : list jsstring }.

Record Gallery : Type := MkGallery {
  generatedImages : list jsstring;
  generatedImagesMeta : gmap (list N) Meta;
  contentGrid : list jsstring }.

(** An extraction tuple [{image, caption, hashtags}]. *)
Record Pair : Type := MkPair {
  image : jsstring; caption : jsstring; hashtags : list jsstring }.

(** ** decodeURIComponent (ECMAScript Decode with an empty reserved set);
    [None] is a thrown URIError. *)

Definition hexByte (a b : N) : option N :=
  x ← Regex.hexVal a; y ← Regex.hexVal b; Some (x * 16 + y)%N.

Fixpoint pctBytes (n : nat) (s : jsstring) : option (list N * jsstring) :=
  match n with
  | 0 => Some ([], s)
  | S n' =>
      match s with
      | 37%N :: a :: b :: t =>
          B ← hexByte a b; '(bs, r) ← pctBytes n' t; Some (B :: bs, r)
      | _ => None
      end
  end.

Definition isContinuation (b : N) : bool := ((128 <=? b) && (b <=? 191))%N.

Definition utf8CodePoint (bs : list N) : option N :=
  match bs with
  | [b1; b2] =>
      let cp := ((b1 - 192) * 64 + (b2 - 128))%N in
      if isContinuation b2 && (128 <=? cp)%N then Some cp else None
  | [b1; b2; b3] =>
      let cp := ((b1 - 224) * 4096 + (b2 - 128) * 64 + (b3 - 128))%N in
      if isContinuation b2 && isContinuation b3 && (2048 <=? cp)%N
         && negb ((55296 <=? cp) && (cp <=? 57343))%N
      then Some cp else None
  | [b1; b2; b3; b4] =>
      let cp := ((b1 - 240) * 262144 + (b2 - 128) * 4096
                 + (b3 - 128) * 64 + (b4 - 128))%N in
      if isContinuation b2 && isContinuation b3 && isContinuation b4
         && (65536 <=? cp)%N && (cp <=? 1114111)%N
      then Some cp else None
  | _ => None
  end.

Fixpoint decodeFrom (fuel : nat) (s : jsstring) : option jsstring :=
  match fuel with
  | 0 => Some []
  | S fuel' =>
      match s with
      | [] => Some []
      | 37%N :: a :: b :: t =>
          B ← hexByte a b;
          if (B <? 128)%N then (B ::.) <$> decodeFrom fuel' t
          else
            let n := if (B <? 192)%N then 1 else if (B <? 224)%N then 2
                     else if (B <? 240)%N then 3
                     else if (B <? 248)%N then 4 else 5 in
            if (n =? 1) || (4 <? n) then None
            else
              '(bs, r) ← pctBytes (n - 1) t;
              cp ← utf8CodePoint (B :: bs);
              (Utf.units cp ++.) <$> decodeFrom fuel' r
      | 37%N :: _ => None
      | c :: t => (c ::.) <$> decodeFrom fuel' t
      end
  end.

Definition decodeURIComponent (s : jsstring) : option jsstring :=
  decodeFrom (S (length s)) s.

(** ** sanitizeImagePath (app.js 3470-3508) *)

Definition markdownPrefix : Regex.RegExp :=
  Eval vm_compute in Regex.the (Regex.regexp
    "^\*\*[^*]*\*\*\s*"
    "g").

Definition cameraLabelPrefix : Regex.RegExp :=
  Eval vm_compute in Regex.the (Regex.regexp
    "^📸\s*Image:\s*"
    "gi").

Definition labelPrefix : Regex.RegExp :=
  Eval vm_compute in Regex.the (Regex.regexp
    "^Image:\s*"
    "gi").

Definition linkPattern : Regex.RegExp :=
  Eval vm_compute in Regex.the (Regex.regexp
    "\[([^\]]*)\]\(([^)]+)\)"
    "").

Definition generatedPattern : Regex.RegExp :=
  Eval vm_compute in Regex.the (Regex.regexp
    "(\/generated\/[a-zA-Z0-9_-]+\.(?:png|jpg|jpeg|gif|webp|mp4|webm|mov))"
    "i").

Definition mediaExtension : Regex.RegExp :=
  Eval vm_compute in Regex.the (Regex.regexp
    "\.(png|jpg|jpeg|gif|webp|mp4|webm|mov)$"
    "i").

(** [None] is the [null] of the source. *)
Definition sanitizeImagePath (imagePath : jsstring) : option jsstring :=
  match imagePath with
  | [] => None
  | _ =>
      let imagePath := default imagePath (decodeURIComponent imagePath) in
      let imagePath := Regex.replace markdownPrefix imagePath [] in
      let imagePath := Regex.replace cameraLabelPrefix imagePath [] in
      let imagePath := Regex.replace labelPrefix imagePath [] in
      let imagePath :=
        match Regex.match1 linkPattern imagePath with
        | Some linkMatch => Regex.grp imagePath linkMatch 2
        | None => imagePath
        end in
      let imagePath :=
        if includes imagePath (js "/generated/") then
          match Regex.match1 generatedPattern imagePath with
          | Some genMatch => Regex.grp imagePath genMatch 1
          | None => imagePath
          end
        else imagePath in
      if negb (startsWith imagePath (js "/generated/"))
         || negb (Regex.test mediaExtension imagePath)
      then None
      else Some imagePath
  end.

(** ** Writers of the gallery (app.js 2715-2725 and 2874, 2878-2887,
    3024-3027 and 3181, 3185-3194 and 3390): each sanitizes the path and
    returns at once on [null]; [caption || ''] and [hashtags || []] are
    the arguments themselves for a string and an array. *)

(** [this.generatedImagesMeta[path] = {caption, hashtags}] *)
Definition storeMeta (g : Gallery) (path caption : jsstring)
    (hashtags : list jsstring) : Gallery :=
  MkGallery (generatedImages g)
    (<[path := MkMeta caption hashtags]> (generatedImagesMeta g))
    (contentGrid g).

(** [this.contentGrid.insertBefore(card, this.contentGrid.firstChild)] *)
Definition insertCard (g : Gallery) (path : jsstring) : Gallery :=
  MkGallery (generatedImages g) (generatedImagesMeta g) (path :: contentGrid g).

Definition addImageToGalleryWithCaption (g : Gallery)
    (imagePath caption : jsstring) (hashtags : list jsstring) : Gallery :=
  match sanitizeImagePath imagePath with
  | None => g
  | Some imagePath => insertCard (storeMeta g imagePath caption hashtags) imagePath
  end.

(** The card that exists keeps its path; its caption section is redrawn. *)
Definition updateGalleryCardWithCaption (g : Gallery)
    (imagePath caption : jsstring) (hashtags : list jsstring) : Gallery :=
  match sanitizeImagePath imagePath with
  | None => g
  | Some imagePath => storeMeta g imagePath caption hashtags
  end.

Definition addImageToGallery (g : Gallery) (imagePath : jsstring) : Gallery :=
  match sanitizeImagePath imagePath with
  | None => g
  | Some imagePath => insertCard g imagePath
  end.

Definition addVideoToGalleryWithCaption (g : Gallery)
    (videoPath caption : jsstring) (hashtags : list jsstring) : Gallery :=
  match sanitizeImagePath videoPath with
  | None => g
  | Some videoPath => insertCard (storeMeta g videoPath caption hashtags) videoPath
  end.

(** [this.generatedImages.push(x)] *)
Definition push (g : Gallery) (x : jsstring) : Gallery :=
  MkGallery (generatedImages g ++ [x]) (generatedImagesMeta g) (contentGrid g).

(** ** extractImageCaptionPairs (app.js 2529-2712) *)

Definition hashtagTokens : Regex.RegExp :=
  Eval vm_compute in Regex.the (Regex.regexp
    "#[a-zA-Z][a-zA-Z0-9_]*"
    "g").

Definition boldMarks : Regex.RegExp :=
  Eval vm_compute in Regex.the (Regex.regexp
    "\*\*"
    "g").

Definition blankLines : Regex.RegExp :=
  Eval vm_compute in Regex.the (Regex.regexp
    "^\s*\n"
    "gm").

Definition campaignPostPattern : Regex.RegExp :=
  Eval vm_compute in Regex.the (Regex.regexp
    "(?:✅\s*)?Post\s*\d+\s*(?:of\s*\d+)?\s*Created!?\s*\n+(?:📷\s*)?(?:\*\*)?Image(?:\*\*)?:?\s*[^\n]*?(\/generated\/[^\s\)\x22\'\`<>\n]+\.png)[\s\S]*?(?:Caption|📝\s*Caption):?\s*\n([\s\S]*?)(?=Hashtags:|#️⃣|Full Post|---|\n\n✅|\n\n📷|$)"
    "gi").

Definition carouselCaptionPattern : Regex.RegExp :=
  Eval vm_compute in Regex.the (Regex.regexp
    "(?:📝\s*)?(?:\*\*)?Caption(?:\*\*)?:?\s*\n?([\s\S]*?)(?=(?:#️⃣|📌)\s*(?:\*\*)?Hashtags|\n---|\n\n\*\*What|$)"
    "i").

Definition imagePattern0 : Regex.RegExp :=
  Eval vm_compute in Regex.the (Regex.regexp
    "\[📷[^\]]*\]\((\/generated\/[^\)]+\.png)\)"
    "gi").

Definition imagePattern1 : Regex.RegExp :=
  Eval vm_compute in Regex.the (Regex.regexp
    "\|\s*(\/generated\/[^\|\s\n]+\.png)\s*\|"
    "gi").

Definition imagePattern2 : Regex.RegExp :=
  Eval vm_compute in Regex.the (Regex.regexp
    "\|\s*\[?📷?[^\]]*\]?\(?(\/generated\/[^\)\|\s]+\.png)\)?"
    "gi").

Definition imagePattern3 : Regex.RegExp :=
  Eval vm_compute in Regex.the (Regex.regexp
    "(?:📸\s*)?(?:\*\*)?Image(?:\*\*)?:?\s*(?:\[📷[^\]]*\]\()?(\/generated\/[^\s\)\n]+\.png)\)?"
    "gi").

Definition imagePattern4 : Regex.RegExp :=
  Eval vm_compute in Regex.the (Regex.regexp
    "(\/generated\/post_[a-zA-Z0-9_]+\.png)"
    "gi").

Definition imagePatterns : list Regex.RegExp :=
  [imagePattern0; imagePattern1; imagePattern2; imagePattern3; imagePattern4].

Definition carouselSlidePattern : Regex.RegExp :=
  Eval vm_compute in Regex.the (Regex.regexp
    "(?:🎉\s*)?Slide\s*(\d+)\s*of\s*(\d+):?\s*[^\n]*\n+(?:📸\s*)?(?:\*\*)?Image(?:\*\*)?:?\s*(?:\[📷[^\]]*\]\()?([^\s\)\x22\'\`<>\n]+\.png)\)?"
    "gi").

Definition slideDescriptionPattern : Regex.RegExp :=
  Eval vm_compute in Regex.the (Regex.regexp
    "This slide[^\n]*"
    "i").

Definition structuredPattern : Regex.RegExp :=
  Eval vm_compute in Regex.the (Regex.regexp
    "\*\*(?:📸\s*)?Image:?\*\*\s*(\/generated\/[^\s\n]+\.png)[\s\S]*?\*\*(?:📝\s*)?Caption:?\*\*\s*\n?([\s\S]*?)(?=\*\*(?:#️⃣|Hashtags)|#️⃣\s*(?:\*\*)?Hashtags|\n---|\n\*\*What|\n\nOptions:)"
    "gi").

Definition singlePostPattern : Regex.RegExp :=
  Eval vm_compute in Regex.the (Regex.regexp
    "(?:Here's your|Here is your|Your)[^\n]*?(?:post|image)[^\n]*\n+(?:📷\s*)?(?:\*\*)?Image(?:\*\*)?:?\s*[^\n]*?(\/generated\/[^\s\)\x22\'\`<>\n]+\.png)[\s\S]*?(?:Caption|📝\s*Caption):?\s*\n([\s\S]*?)(?=Hashtags:|#️⃣|Full Post|---|\n\n\*\*What|$)"
    "gi").

Definition genericPattern : Regex.RegExp :=
  Eval vm_compute in Regex.the (Regex.regexp
    "(\/generated\/[^\s\)\x22\'\`<>\n]+\.png)[\s\S]{0,200}?(?:Caption|📝):?\s*\n([\s\S]*?)(?=Hashtags:|#️⃣|Full Post|---|\n\n\n|$)"
    "gi").

(** [m ? m.slice(0, 25) : []] for [m = s.match(/#[a-zA-Z][a-zA-Z0-9_]*/g)]. *)
Definition hashtagsOf (s : jsstring) : list jsstring :=
  match Regex.matchG hashtagTokens s with
  | Some hashtagMatch => take 25 hashtagMatch
  | None => []
  end.

(** [x.startsWith('/') ? x : '/' + x] *)
Definition withSlash (x : jsstring) : jsstring :=
  if startsWith x (js "/") then x else js "/" ++ x.

(** [if (!pairs.find(p => p.image === imagePath)) pairs.push(pair)] *)
Definition pushNew (pairs : list Pair) (p : Pair) : list Pair :=
  if existsb (fun q => bool_decide (image q = image p)) pairs then pairs
  else pairs ++ [p].

(** The body shared by the loops of patterns 1, 2, 3 and 4: group 1 is the
    image, group 2 the caption, the hashtags are looked for in the [window]
    code units that follow the match. *)
Definition captionedPair (window : nat) (text : jsstring)
    (m : Regex.MatchResult) : Pair :=
  let imagePath := withSlash (Regex.grp text m 1) in
  let captionText := trim (Regex.grp text m 2) in
  let captionText :=
    trim (Regex.replace blankLines (Regex.replace boldMarks captionText []) []) in
  let afterCaption :=
    slice text (Regex.m_end m) (Regex.m_end m + window) in
  MkPair imagePath (substring captionText 0 800) (hashtagsOf afterCaption).

Definition captionedLoop (pattern : Regex.RegExp) (window : nat)
    (text : jsstring) (pairs : list Pair) : list Pair :=
  fold_left (fun pairs m => pushNew pairs (captionedPair window text m))
            (Regex.execAll pattern text) pairs.

(** A JavaScript [Set] iterates in insertion order. *)
Definition setAdd (s : list jsstring) (x : jsstring) : list jsstring :=
  if bool_decide (x ∈ s) then s else s ++ [x].

Definition isCarouselComplete (text : jsstring) : bool :=
  includes text (js "Carousel Complete") || includes text (js "carousel complete")
  || (includes text (js "Slide") && includes text (js "Headline")
      && includes text (js "Image")).

Definition sharedCaption (text : jsstring) : jsstring :=
  match Regex.match1 carouselCaptionPattern text with
  | Some captionMatch =>
      substring
        (Regex.replace boldMarks (trim (Regex.grp text captionMatch 1)) []) 0 800
  | None => []
  end.

(** The images of a carousel: every match of every pattern, in order. *)
Definition carouselImage (text : jsstring) (foundImages : list jsstring)
    (imgMatch : Regex.MatchResult) : list jsstring :=
  match Regex.group text imgMatch 1 with
  | Some imgPath =>
      match imgPath with
      | [] => foundImages
      | _ =>
          let imgPath := withSlash imgPath in
          if includes imgPath (js "/generated/") then setAdd foundImages imgPath
          else foundImages
      end
  | None => foundImages
  end.

Definition foundImages (text : jsstring) : list jsstring :=
  fold_left
    (fun found pattern =>
       fold_left (carouselImage text) (Regex.execAll pattern text) found)
    imagePatterns [].

Definition carouselPairs (text : jsstring) (pairs : list Pair) : list Pair :=
  if isCarouselComplete text then
    let sharedCaption := sharedCaption text in
    let sharedHashtags := hashtagsOf text in
    fold_left
      (fun pairs imagePath =>
         pushNew pairs (MkPair imagePath sharedCaption sharedHashtags))
      (foundImages text) pairs
  else pairs.

Definition slidePair (text : jsstring) (m : Regex.MatchResult) : Pair :=
  let imagePath := withSlash (Regex.grp text m 3) in
  let slideSection := slice text (Regex.m_index m) (Regex.m_index m + 500) in
  let description :=
    match Regex.match1 slideDescriptionPattern slideSection with
    | Some descMatch => Regex.whole slideSection descMatch
    | None => []
    end in
  MkPair imagePath description [].

Definition slidePairs (text : jsstring) (pairs : list Pair) : list Pair :=
  fold_left (fun pairs m => pushNew pairs (slidePair text m))
            (Regex.execAll carouselSlidePattern text) pairs.

(** [if (pairs.length === 0) { ... }] *)
Definition whenEmpty (block : list Pair -> list Pair) (pairs : list Pair)
    : list Pair :=
  if length pairs =? 0 then block pairs else pairs.

Definition extractImageCaptionPairs (text : jsstring) : list Pair :=
  let pairs := captionedLoop campaignPostPattern 1500 text [] in
  let pairs := whenEmpty (carouselPairs text) pairs in
  let pairs := whenEmpty (slidePairs text) pairs in
  let pairs := whenEmpty (captionedLoop structuredPattern 1000 text) pairs in
  let pairs := whenEmpty (captionedLoop singlePostPattern 1000 text) pairs in
  let pairs := whenEmpty (captionedLoop genericPattern 500 text) pairs in
  pairs.

(** ** parseAssistantResponse (app.js 2379-2526) *)

Definition pattern0 : Regex.RegExp :=
  Eval vm_compute in Regex.the (Regex.regexp
    "\*\*(?:📸\s*)?Image:\*\*\s*(\/generated\/[^\s\n]+\.png)"
    "gi").

Definition pattern1 : Regex.RegExp :=
  Eval vm_compute in Regex.the (Regex.regexp
    "📸\s*Image:\s*(\/generated\/[^\s\n]+\.png)"
    "gi").

Definition pattern2 : Regex.RegExp :=
  Eval vm_compute in Regex.the (Regex.regexp
    "Image:\s*(\/generated\/[^\s\n]+\.png)"
    "gi").

Definition pattern3 : Regex.RegExp :=
  Eval vm_compute in Regex.the (Regex.regexp
    "\[📷[^\]]*\]\((\/generated\/[^\)]+\.png)\)"
    "gi").

Definition pattern4 : Regex.RegExp :=
  Eval vm_compute in Regex.the (Regex.regexp
    "\[[^\]]*\]\((\/generated\/[^\)]+\.png)\)"
    "gi").

Definition pattern5 : Regex.RegExp :=
  Eval vm_compute in Regex.the (Regex.regexp
    "\/generated\/post_[a-zA-Z0-9_]+\.png"
    "g").

Definition pattern6 : Regex.RegExp :=
  Eval vm_compute in Regex.the (Regex.regexp
    "\/generated\/[a-zA-Z0-9_-]+\.png"
    "g").

Definition pattern7 : Regex.RegExp :=
  Eval vm_compute in Regex.the (Regex.regexp
    "generated\/[a-zA-Z0-9_-]+\.png"
    "g").

Definition pattern8 : Regex.RegExp :=
  Eval vm_compute in Regex.the (Regex.regexp
    "\(\/generated\/[^)]+\.png\)"
    "g").

Definition patterns : list Regex.RegExp :=
  [pattern0; pattern1; pattern2; pattern3; pattern4; pattern5; pattern6;
   pattern7; pattern8].

Definition imageLabelPrefix : Regex.RegExp :=
  Eval vm_compute in Regex.the (Regex.regexp
    "\*\*Image:\*\*\s*"
    "gi").

Definition parens : Regex.RegExp :=
  Eval vm_compute in Regex.the (Regex.regexp
    "[\(\)]"
    "g").

Definition captionPattern0 : Regex.RegExp :=
  Eval vm_compute in Regex.the (Regex.regexp
    "(?:\*\*)?(?:📝\s*)?Caption(?:\*\*)?:?\s*\n?([\s\S]*?)(?=#️⃣|Hashtags:|---|\n\n\*\*What|\n\nOptions:|$)"
    "i").

Definition captionPattern1 : Regex.RegExp :=
  Eval vm_compute in Regex.the (Regex.regexp
    "(?:📝\s*)?Caption:?\s*\n([\s\S]*?)(?=\n\n#️⃣|\n\n.*Hashtags|\n---|\n\n\*\*What|\n\nOptions:|$)"
    "i").

Definition captionPatterns : list Regex.RegExp :=
  [captionPattern0; captionPattern1].

Definition videoPattern : Regex.RegExp :=
  Eval vm_compute in Regex.the (Regex.regexp
    "(?:\/)?generated\/[^\s\)\x22\'\`<>]+\.(mp4|webm|mov)"
    "gi").

Definition imageExtension : Regex.RegExp :=
  Eval vm_compute in Regex.the (Regex.regexp
    "\.(png|jpg|jpeg)$"
    "i").

(** One extraction tuple against the gallery (the body of
    [imageCaptionPairs.forEach], lines 2390-2404). *)
Definition reconcilePair (g : Gallery) (pair : Pair) : Gallery :=
  if bool_decide (image pair ∈ generatedImages g) then
    if negb (bool_decide (caption pair = []))
       || negb (bool_decide (hashtags pair = []))
    then updateGalleryCardWithCaption g (image pair) (caption pair) (hashtags pair)
    else g
  else
    addImageToGalleryWithCaption (push g (image pair))
      (image pair) (caption pair) (hashtags pair).

(** The bare references of the fallback (lines 2420-2436). *)
Definition fallbackClean (allMatches : list jsstring) (match_ : jsstring)
    : list jsstring :=
  let cleanPath :=
    trim (Regex.replace parens (Regex.replace imageLabelPrefix match_ []) []) in
  let cleanPath := withSlash cleanPath in
  if includes cleanPath (js "/generated/") && endsWith cleanPath (js ".png")
  then setAdd allMatches cleanPath else allMatches.

Definition allMatches (text : jsstring) : list jsstring :=
  fold_left
    (fun found pattern =>
       match Regex.matchG pattern text with
       | Some matches => fold_left fallbackClean matches found
       | None => found
       end)
    patterns [].

(** The caption of the fallback: the first pattern whose group, trimmed,
    is longer than 10 (lines 2446-2460). *)
Fixpoint fallbackCaption (cps : list Regex.RegExp) (text : jsstring)
    : jsstring :=
  match cps with
  | [] => []
  | cp :: cps' =>
      match Regex.match1 cp text with
      | Some cm =>
          if 10 <? length (trim (Regex.grp text cm 1)) then
            substring
              (Regex.replace boldMarks (trim (Regex.grp text cm 1)) []) 0 800
          else fallbackCaption cps' text
      | None => fallbackCaption cps' text
      end
  end.

(** The body of [allMatches.forEach] (lines 2439-2474). *)
Definition reconcileFallback (text : jsstring) (g : Gallery)
    (imgPath : jsstring) : Gallery :=
  if bool_decide (imgPath ∈ generatedImages g) then g
  else
    let g := push g imgPath in
    let caption := fallbackCaption captionPatterns text in
    let hashtags := hashtagsOf text in
    if negb (bool_decide (caption = [])) || (0 <? length hashtags)
    then addImageToGalleryWithCaption g imgPath caption hashtags
    else addImageToGallery g imgPath.

(** [arr.filter(p => /\.(png|jpg|jpeg)$/i.test(p)).pop()] *)
Definition lastImage (g : Gallery) : option jsstring :=
  last (filter (fun p => Regex.test imageExtension p = true) (generatedImages g)).

(** The body of [videos.forEach] (lines 2483-2507). *)
Definition reconcileVideo (g : Gallery) (videoPath : jsstring) : Gallery :=
  if bool_decide (videoPath ∈ generatedImages g) then g
  else
    let g := push g videoPath in
    let meta :=
      match lastImage g with
      | Some lastImage =>
          match lastImage with
          | [] => None
          | _ => generatedImagesMeta g !! lastImage
          end
      | None => None
      end in
    let videoCaption := from_option mcaption [] meta in
    let videoHashtags := from_option mhashtags [] meta in
    if negb (bool_decide (videoCaption = [])) || (0 <? length videoHashtags)
    then addVideoToGalleryWithCaption g videoPath videoCaption videoHashtags
    else addImageToGallery g videoPath.

Definition videos (text : jsstring) : list jsstring :=
  match Regex.matchG videoPattern text with
  | Some videoMatches => map withSlash videoMatches
  | None => []
  end.

Definition parseAssistantResponse (g : Gallery) (text : jsstring) : Gallery :=
  let imageCaptionPairs := extractImageCaptionPairs text in
  let g :=
    if 0 <? length imageCaptionPairs
    then fold_left reconcilePair imageCaptionPairs g
    else fold_left (reconcileFallback text) (allMatches text) g in
  fold_left reconcileVideo (videos text) g.

(** ** Choices and structured responses *)

Record Choice : Type := MkChoice {
  icon : jsstring; label : jsstring; value : jsstring; description : jsstring }.

(** A value of [JSON.parse]; a number is kept as its text. *)
#[local] Set Warnings "-register-all".
Inductive Json : Type :=
| JNull
| JBool (b : bool)
| JNumber (repr : jsstring)
| JString (s : jsstring)
| JArray (items : list Json)
| JObject (fields : list (jsstring * Json)).

(** [parsed.k]: [None] is the TypeError of a property read on [null],
    [Some None] is [undefined]. *)
Definition getField (k : jsstring) (parsed : Json) : option (option Json) :=
  match parsed with
  | JNull => None
  | JObject fields =>
      Some (snd <$> find (fun kv => bool_decide (fst kv = k)) (reverse fields))
  | _ => Some None
  end.

(** [parsed.k !== undefined] *)
Definition defined (k : jsstring) (parsed : Json) : option bool :=
  v ← getField k parsed; Some (bool_decide (is_Some v)).

(** The emoji set of the choice patterns (line 3878). *)
Definition emojiSet : string :=
  "📸📅🖼️✨🎬✏️🔄✅❌👍👎📊📝🚀💡🎯🎨📱💼🔥⭐".

Definition emojiOutsidePattern : Regex.RegExp :=
  Eval vm_compute in Regex.the (Regex.regexp
    ("([" ++ emojiSet ++ "])\s*\*\*([^*]+)\*\*\s*[-–—:]\s*([^\n]+)")
    "g").

Definition emojiInsidePattern : Regex.RegExp :=
  Eval vm_compute in Regex.the (Regex.regexp
    ("\*\*([" ++ emojiSet ++ "]\s*[^*]+)\*\*\s*[-–—:]\s*([^\n*]+)")
    "g").

Definition leadingEmoji : Regex.RegExp :=
  Eval vm_compute in Regex.the (Regex.regexp ("^([" ++ emojiSet ++ "])") "").

Definition leadingEmojiSpace : Regex.RegExp :=
  Eval vm_compute in Regex.the (Regex.regexp ("^[" ++ emojiSet ++ "]\s*") "").

Definition inlinePattern : Regex.RegExp :=
  Eval vm_compute in Regex.the (Regex.regexp
    "\(([^)]+(?:\s*\/\s*[^)]+)+)\)"
    "g").

Definition slashSeparator : Regex.RegExp :=
  Eval vm_compute in Regex.the (Regex.regexp
    "\s*\/\s*"
    "").

Definition bulletOptionsPattern : Regex.RegExp :=
  Eval vm_compute in Regex.the (Regex.regexp
    "(?:would you like to|want to|options|you can)[:.]?\s*\n((?:\s*[-•*]\s*[^\n]+\n?)+)"
    "gi").

Definition bulletPattern : Regex.RegExp :=
  Eval vm_compute in Regex.the (Regex.regexp
    "[-•*]\s*\*?\*?[\x22']?([^\x22'\n*]+)[\x22']?\*?\*?"
    "g").

Definition dashTail : Regex.RegExp :=
  Eval vm_compute in Regex.the (Regex.regexp
    "[-–—].*$"
    "").

Definition jsonPattern : Regex.RegExp :=
  Eval vm_compute in Regex.the (Regex.regexp
    "\{[^{}]*\x22text\x22\s*:\s*\x22[^\x22]*\x22[^{}]*\x22has_choices\x22\s*:\s*(true|false)[^{}]*\}"
    "gs").

Definition complexJsonPattern : Regex.RegExp :=
  Eval vm_compute in Regex.the (Regex.regexp
    "\{[\s\S]*?\x22text\x22\s*:\s*\x22[\s\S]*?\x22[\s\S]*?\x22choices\x22\s*:\s*\[[\s\S]*?\][\s\S]*?\}"
    "g").

Definition newlines : Regex.RegExp :=
  Eval vm_compute in Regex.the (Regex.regexp
    "\n"
    "g").

(** Frames of the event stream, as [JSON.parse(line.slice(6))] and the
    test of [data.type] decode them; [FOther] is a line that is skipped
    (no [data: ] prefix, a parse error, another type). *)
Inductive Frame : Type :=
| FSession (session_id : jsstring)
| FText (content : jsstring)
| FDone
| FOther.

(** What the consumer calls, in order; [ParseAssistantResponse text] is
    the call whose writes to the gallery [parseAssistantResponse] models.
    [UpdateMessageOther] and [ParseAssistantResponseOther] are the calls
    of [updateMessage] and of [parseAssistantResponse] with a [text] that
    is no string ([None] is [undefined]), as the handler of an envelope
    makes them; the second one throws at its first statement
    ([text.substring]) and does not reach the gallery. *)
Inductive Effect : Type :=
| HideProcessingIndicator
| UpdateMessage (text : jsstring)
| HandleStructuredResponse (response : Json)
| ParseAssistantResponse (text : jsstring)
| RenderStructuredChoiceButtons (response : Json)
| UpdateRightPanel (text : jsstring)
| DetectChoicesInMessage (text : jsstring)
| RenderChoiceButtons (choices : list Choice)
| SaveMessagesToStorage
| UpdateMessageOther (text : option Json)
| ParseAssistantResponseOther (text : option Json).

Record Consumer : Type := MkConsumer {
  sessionId : option jsstring;
  assistantMessage : jsstring;
  messageElement : bool;
  firstContentReceived : bool;
  gallery : Gallery;
  effects : list Effect }.

(** The text that a sequence of frames carries. *)
Definition textOf (frames : list Frame) : jsstring :=
  flat_map (fun f => match f with FText content => content | _ => [] end) frames.

Section Builtins.

(** [String.prototype.toLowerCase] (the Unicode case tables) and
    [JSON.parse] ([None] is a thrown SyntaxError) are built into the
    engine. *)
Variable toLowerCase : jsstring -> jsstring.
Variable JSON_parse : jsstring -> option Json.

(** *** getChoiceIcon (app.js 3972-3987) *)

Definition getChoiceIcon (text : jsstring) : jsstring :=
  let lower := toLowerCase text in
  if includes lower (js "yes") || includes lower (js "approve") || includes lower (js "confirm")
  then js "✅" else
  if includes lower (js "no") || includes lower (js "cancel") || includes lower (js "reject")
  then js "❌" else
  if includes lower (js "skip")
  then js "⏭️" else
  if includes lower (js "edit") || includes lower (js "tweak") || includes lower (js "change")
  then js "✏️" else
  if includes lower (js "done") || includes lower (js "finish")
  then js "🎉" else
  if includes lower (js "single") || includes lower (js "post")
  then js "📸" else
  if includes lower (js "campaign")
  then js "📅" else
  if includes lower (js "carousel")
  then js "🖼️" else
  if includes lower (js "quick") || includes lower (js "image") || includes lower (js "general")
  then js "✨" else
  if includes lower (js "animate")
  then js "🎬" else
  if includes lower (js "caption")
  then js "📝" else
  if includes lower (js "hashtag")
  then js "#️⃣" else
  [].

(** *** detectChoicesInMessage (app.js 3873-3967)

    The loops share [choices] and [seenLabels]. *)

Definition Seen : Type := list Choice * gset (list N).

(** [if (!seenLabels.has(label.toLowerCase())) { add; push }] *)
Definition addChoice (st : Seen) (c : Choice) : Seen :=
  let '(choices, seenLabels) := st in
  if bool_decide (toLowerCase (label c) ∈ seenLabels) then st
  else (choices ++ [c], {[ toLowerCase (label c) ]} ∪ seenLabels).

Definition emojiOutside (text : jsstring) (st : Seen) (m : Regex.MatchResult)
    : Seen :=
  let icon := trim (Regex.grp text m 1) in
  let label := trim (Regex.grp text m 2) in
  let description := trim (Regex.grp text m 3) in
  addChoice st (MkChoice icon label label description).

Definition emojiInside (text : jsstring) (st : Seen) (m : Regex.MatchResult)
    : Seen :=
  let fullLabel := trim (Regex.grp text m 1) in
  let description := trim (Regex.grp text m 2) in
  let icon :=
    match Regex.match1 leadingEmoji fullLabel with
    | Some iconMatch => Regex.grp fullLabel iconMatch 1
    | None => []
    end in
  let cleanLabel := trim (Regex.replace leadingEmojiSpace fullLabel []) in
  addChoice st (MkChoice icon cleanLabel cleanLabel description).

Definition inlineOption (st : Seen) (opt : jsstring) : Seen :=
  let cleanOpt := Regex.replace boldMarks (trim opt) [] in
  match cleanOpt with
  | [] => st
  | _ => addChoice st (MkChoice (getChoiceIcon cleanOpt) cleanOpt cleanOpt [])
  end.

Definition inlineOptions (text : jsstring) (st : Seen) (m : Regex.MatchResult)
    : Seen :=
  let optionsStr := Regex.grp text m 1 in
  fold_left inlineOption (Regex.split slashSeparator optionsStr) st.

Definition bulletOption (bulletBlock : jsstring) (st : Seen)
    (bulletMatch : Regex.MatchResult) : Seen :=
  let opt :=
    trim (Regex.replace dashTail (trim (Regex.grp bulletBlock bulletMatch 1)) []) in
  match opt with
  | [] => st
  | _ =>
      if length opt <? 50
      then addChoice st (MkChoice (getChoiceIcon opt) opt opt [])
      else st
  end.

Definition bulletOptions (text : jsstring) (st : Seen) (m : Regex.MatchResult)
    : Seen :=
  let bulletBlock := Regex.grp text m 1 in
  fold_left (bulletOption bulletBlock) (Regex.execAll bulletPattern bulletBlock) st.

(** [choices] and [seenLabels] after the four loops. *)
Definition detected (text : jsstring) : Seen :=
  let st := ([], ∅) in
  let st := fold_left (emojiOutside text) (Regex.execAll emojiOutsidePattern text) st in
  let st := fold_left (emojiInside text) (Regex.execAll emojiInsidePattern text) st in
  let st := fold_left (inlineOptions text) (Regex.execAll inlinePattern text) st in
  let st := fold_left (bulletOptions text) (Regex.execAll bulletOptionsPattern text) st in
  st.

Definition detectChoicesInMessage (text : jsstring) : list Choice :=
  let choices := fst (detected text) in
  if (2 <=? length choices) && (length choices <=? 8) then choices else [].

(** *** parseStructuredResponse (app.js 3669-3724); [None] is [null] *)

(** The loop of pattern 2: a candidate that does not parse, or whose
    test throws, is skipped. *)
Fixpoint firstEnvelope (matches : list jsstring) : option Json :=
  match matches with
  | [] => None
  | match_ :: rest =>
      match JSON_parse match_ with
      | Some parsed =>
          match defined (js "text") parsed, defined (js "has_choices") parsed with
          | Some true, Some true => Some parsed
          | _, _ => firstEnvelope rest
          end
      | None => firstEnvelope rest
      end
  end.

(** The loop of pattern 3. *)
Fixpoint firstComplexEnvelope (complexMatches : list jsstring) : option Json :=
  match complexMatches with
  | [] => None
  | match_ :: rest =>
      let cleanMatch := Regex.replace newlines match_ [92%N; 110%N] in
      match JSON_parse cleanMatch with
      | Some parsed =>
          match defined (js "text") parsed with
          | Some true => Some parsed
          | _ => firstComplexEnvelope rest
          end
      | None => firstComplexEnvelope rest
      end
  end.

Definition embeddedEnvelope (text : jsstring) : option Json :=
  match firstEnvelope (default [] (Regex.matchG jsonPattern text)) with
  | Some parsed => Some parsed
  | None => firstComplexEnvelope (default [] (Regex.matchG complexJsonPattern text))
  end.

Definition parseStructuredResponse (text : jsstring) : option Json :=
  if startsWith (trim text) (js "{") && endsWith (trim text) (js "}") then
    match JSON_parse (trim text) with
    | None => None
    | Some parsed =>
        match defined (js "text") parsed with
        | None => None
        | Some false => embeddedEnvelope text
        | Some true =>
            match defined (js "has_choices") parsed with
            | None => None
            | Some true => Some parsed
            | Some false => embeddedEnvelope text
            end
        end
    end
  else embeddedEnvelope text.

(** *** Conversions of a parsed value

    A number is kept as the text that [String] gives for it.  A value
    made by [JSON.parse] has no callable property of its own: ToPrimitive
    joins an array, throws a TypeError for an object with a [toString] of
    its own and gives [[object Object]] for any other object. *)
Definition truthy (v : option Json) : bool :=
  match v with
  | None | Some JNull | Some (JBool false) | Some (JString []) => false
  | Some (JNumber n) => negb (bool_decide (n = js "0"))
  | Some _ => true
  end.

(** ToString, as a template literal applies it; [None] is the
    TypeError. *)
Fixpoint toString (v : Json) : option jsstring :=
  match v with
  | JNull => Some (js "null")
  | JBool b => Some (if b then js "true" else js "false")
  | JNumber repr => Some repr
  | JString s => Some s
  | JArray items =>
      (fix join (items : list Json) : option jsstring :=
         match items with
         | [] => Some []
         | item :: rest =>
             s ← match item with JNull => Some [] | _ => toString item end;
             match rest with
             | [] => Some s
             | _ => t ← join rest; Some (s ++ js "," ++ t)
             end
         end) items
  | JObject fields =>
      if bool_decide (js "toString" ∈ fields.*1) then None
      else Some (js "[object Object]")
  end.

(** The longest prefix of decimal digits, and what follows it. *)
Fixpoint decimalDigits (s : jsstring) : jsstring * jsstring :=
  match s with
  | c :: rest =>
      if isDigit c then (c :: fst (decimalDigits rest), snd (decimalDigits rest))
      else ([], s)
  | [] => ([], [])
  end.

Definition decimalValue (digits : jsstring) : N :=
  fold_left (fun n c => 10 * n + (c - 48))%N digits 0%N.

(** [ExponentPart], or nothing, up to the end of the literal. *)
Definition exponentPart (s : jsstring) : option Z :=
  match s with
  | [] => Some 0%Z
  | c :: signed =>
      if (c =? 101)%N || (c =? 69)%N then
        let sign :=
          match signed with 45%N :: _ => (-1)%Z | _ => 1%Z end in
        let unsigned :=
          match signed with 43%N :: u | 45%N :: u => u | _ => signed end in
        match fst (decimalDigits unsigned), snd (decimalDigits unsigned) with
        | d :: ds, [] => Some (sign * Z.of_N (decimalValue (d :: ds)))%Z
        | _, _ => None
        end
      else None
  end.

(** The Number value of [m * 10^k] is above zero: what does not exceed
    [2^-1075] is rounded to zero. *)
Definition roundsAboveZero (m : N) (k : Z) : bool :=
  (0 <? m)%N && ((0 <=? k)%Z || (10 ^ Z.to_N (- k) <? m * 2 ^ 1075)%N).

(** [StrUnsignedDecimalLiteral] with a value above zero. *)
Definition unsignedDecimalPositive (s : jsstring) : bool :=
  if bool_decide (s = js "Infinity") then true
  else
    let whole := fst (decimalDigits s) in
    let fraction :=
      match snd (decimalDigits s) with
      | 46%N :: s' => fst (decimalDigits s')
      | _ => []
      end in
    let exponent :=
      match snd (decimalDigits s) with
      | 46%N :: s' => snd (decimalDigits s')
      | s' => s'
      end in
    match whole ++ fraction, exponentPart exponent with
    | d :: ds, Some e =>
        roundsAboveZero (decimalValue (d :: ds)) (e - Z.of_nat (length fraction))
    | _, _ => false
    end.

(** The digits of a binary, octal or hexadecimal literal, with a value
    above zero. *)
Definition nonDecimalPositive (base : N) (digits : jsstring) : bool :=
  let isDigitOf c :=
    (isDigit c && (c <? 48 + base)%N)
    || ((10 <? base)%N
        && (((97 <=? c) && (c <=? 102)) || ((65 <=? c) && (c <=? 70)))%N) in
  (0 <? length digits) && forallb isDigitOf digits
  && existsb (fun c => negb (c =? 48)%N) digits.

(** [Number(s) > 0] (StringToNumber): white space is trimmed; a literal
    that is no [StringNumericLiteral] is [NaN]. *)
Definition stringPositive (s : jsstring) : bool :=
  match trim s with
  | 45%N :: _ => false
  | 43%N :: u => unsignedDecimalPositive u
  | 48%N :: c :: digits =>
      if (c =? 120)%N || (c =? 88)%N then nonDecimalPositive 16 digits
      else if (c =? 111)%N || (c =? 79)%N then nonDecimalPositive 8 digits
      else if (c =? 98)%N || (c =? 66)%N then nonDecimalPositive 2 digits
      else unsignedDecimalPositive (trim s)
  | u => unsignedDecimalPositive u
  end.

(** [v > 0]; [None] is the TypeError of ToPrimitive. *)
Definition greaterThanZero (v : option Json) : option bool :=
  match v with
  | None | Some JNull => Some false
  | Some (JBool b) => Some b
  | Some (JNumber s) | Some (JString s) => Some (stringPositive s)
  | Some v => stringPositive <$> toString v
  end.

(** *** handleStructuredResponse (app.js 3731-3760)

    The handler returns the consumer after its calls, and whether it
    returned: an exception that leaves it is caught by the loop over the
    lines, after the calls made so far.  The DOM is taken not to throw,
    the conversion of a value by one of its setters ([innerHTML],
    [dataset], [title], [textContent], [placeholder]) included; what is
    left are the TypeErrors of the language: a method that a value does
    not have, a property of [null], and the conversion of an object with
    a [toString] of its own in a template literal or a comparison. *)

(** [choices.length > 0] *)
Definition lengthPositive (choices : Json) : option bool :=
  match choices with
  | JNull => None
  | JString s => Some (0 <? length s)
  | JArray items => Some (0 <? length items)
  | JObject _ => getField (js "length") choices ≫= greaterThanZero
  | _ => Some false
  end.

(** [response.has_choices && response.choices &&
    response.choices.length > 0] *)
Definition hasChoices (response : Json) : option bool :=
  has_choices ← getField (js "has_choices") response;
  if truthy has_choices then
    choices ← getField (js "choices") response;
    if truthy choices then choices ≫= lengthPositive else Some false
  else Some false.

(** What passes the test: a non-empty array, a non-empty string, or an
    object with a [length] above zero. *)
Definition choicesShape (choices : Json) : Prop :=
  (exists c cs, choices = JArray (c :: cs))
  \/ (exists c s, choices = JString (c :: s))
  \/ (exists fields length,
        choices = JObject fields
        /\ getField (js "length") choices = Some length
        /\ greaterThanZero length = Some true).

(** [formatMessage(text)] returns for a [text] that is no string when it
    is falsy, and when it is an array that holds the string
    [class="image-link"] (the array is returned as it is); any other
    value has no [includes] or no [replace]. *)
Definition formatMessageReturns (text : option Json) : bool :=
  negb (truthy text)
  || match text with
     | Some (JArray items) =>
         existsb
           (fun item =>
              match item with
              | JString s => bool_decide (s = jsq "class='image-link'")
              | _ => false
              end)
           items
     | _ => false
     end.

(** The template literal [`${v}`] returns. *)
Definition converts (v : option Json) : bool :=
  match v with
  | Some v => bool_decide (is_Some (toString v))
  | None => true
  end.

(** The body of [choices.forEach] returns (app.js 3783-3824): it reads
    the properties of the choice, puts its [icon], when truthy, and its
    [label] into a template literal, and its [description], when truthy,
    for the type [menu]. *)
Definition renderChoice (choice_type : option Json) (choice : Json) : bool :=
  match getField (js "icon") choice, getField (js "label") choice,
        getField (js "description") choice with
  | Some icon, Some label, Some description =>
      (negb (truthy icon) || converts icon)
      && converts label
      && (negb (truthy description)
          || negb match choice_type with
                  | Some (JString s) => bool_decide (s = js "menu")
                  | _ => false
                  end
          || converts description)
  | _, _, _ => false
  end.

(** renderStructuredChoiceButtons (app.js 3767-3837) returns: at once
    without [choices] or with [choices.length === 0]; else after the
    template literal of the class name and the loop over [choices]. *)
Definition renderStructuredChoiceButtons (response : Json) : bool :=
  match getField (js "choices") response,
        getField (js "choice_type") response with
  | Some choices, Some choice_type =>
      if negb (truthy choices) then true
      else
        match choices with
        | Some (JArray []) => true
        | Some (JArray items) =>
            (negb (truthy choice_type) || converts choice_type)
            && forallb (renderChoice choice_type) items
        | Some (JObject fields) =>
            match getField (js "length") (JObject fields) with
            | Some (Some (JNumber n)) => bool_decide (n = js "0")
            | _ => false
            end
        | _ => false
        end
  | _, _ => false
  end.

Definition handleStructuredResponse (st : Consumer) (response : Json)
    : Consumer * bool :=
  let after g called :=
    MkConsumer (sessionId st) (assistantMessage st) (messageElement st)
      (firstContentReceived st) g
      (effects st ++ [HandleStructuredResponse response] ++ called) in
  match getField (js "text") response with
  | None => (after (gallery st) [], false)
  | Some (Some (JString text)) =>
      let shown := if messageElement st then [UpdateMessage text] else [] in
      let g := parseAssistantResponse (gallery st) text in
      let called :=
        shown ++ [ParseAssistantResponse text; UpdateRightPanel text] in
      match hasChoices response with
      | Some true =>
          if messageElement st then
            (after g (called ++ [RenderStructuredChoiceButtons response]),
             renderStructuredChoiceButtons response)
          else (after g called, true)
      | Some false => (after g called, true)
      | None => (after g called, false)
      end
  | Some text =>
      let shown := if messageElement st then [UpdateMessageOther text] else [] in
      let parsed :=
        if negb (messageElement st) || formatMessageReturns text
        then [ParseAssistantResponseOther text] else [] in
      (after (gallery st) (shown ++ parsed), false)
  end.

(** *** processStreamResponse (app.js 1612-1680) *)

(** The [done] branch; [saveMessagesToStorage] is reached when no
    exception left the calls before it. *)
Definition onDone (st : Consumer) : Consumer :=
  let handled :=
    match parseStructuredResponse (assistantMessage st) with
    | Some structuredResponse => handleStructuredResponse st structuredResponse
    | None =>
        let text := assistantMessage st in
        let g := parseAssistantResponse (gallery st) text in
        let buttons :=
          if messageElement st then
            let choices := detectChoicesInMessage text in
            DetectChoicesInMessage text
            :: (if 0 <? length choices then [RenderChoiceButtons choices] else [])
          else [] in
        (MkConsumer (sessionId st) text (messageElement st)
           (firstContentReceived st) g
           (effects st ++ [ParseAssistantResponse text; UpdateRightPanel text]
            ++ buttons), true)
    end in
  if snd handled then
    MkConsumer (sessionId (fst handled)) (assistantMessage (fst handled))
      (messageElement (fst handled)) (firstContentReceived (fst handled))
      (gallery (fst handled)) (effects (fst handled) ++ [SaveMessagesToStorage])
  else fst handled.

(** The body of the loop over the lines, inside its [try]. *)
Definition processFrame (st : Consumer) (data : Frame) : Consumer :=
  match data with
  | FSession session_id =>
      MkConsumer (Some session_id) (assistantMessage st) (messageElement st)
        (firstContentReceived st) (gallery st) (effects st)
  | FText content =>
      let hide := if firstContentReceived st then [] else [HideProcessingIndicator] in
      let assistantMessage := assistantMessage st ++ content in
      MkConsumer (sessionId st) assistantMessage true true (gallery st)
        (effects st ++ hide ++ [UpdateMessage assistantMessage])
  | FDone => onDone st
  | FOther => st
  end.

Definition start (sid : option jsstring) (g : Gallery) : Consumer :=
  MkConsumer sid [] false false g [].

(** The consumer after the frames read so far. *)
Definition consume (sid : option jsstring) (g : Gallery)
    (frames : list Frame) : Consumer :=
  fold_left processFrame frames (start sid g).

(** How the reader stops: end of input, or a rejected read (abort), which
    leaves the method by an exception. *)
Inductive Ending : Type := EndOfInput | Aborted.

Definition processStreamResponse (sid : option jsstring) (g : Gallery)
    (frames : list Frame) (ending : Ending) : Consumer :=
  let st := consume sid g frames in
  match ending with
  | Aborted => st
  | EndOfInput =>
      if firstContentReceived st then st
      else MkConsumer (sessionId st) (assistantMessage st) (messageElement st)
             (firstContentReceived st) (gallery st)
             (effects st ++ [HideProcessingIndicator])
  end.

(** The lower-cased labels of a list of choices, the keys of
    [seenLabels]. *)
Definition labels (choices : list Choice) : list jsstring :=
  map (fun c => toLowerCase (label c)) choices.

(** [seenLabels] holds exactly the lower-cased labels of [choices], which
    are pairwise distinct. *)
Definition seenOk (st : Seen) : Prop :=
  NoDup (labels (fst st)) /\ forall x, x ∈ snd st <-> x ∈ labels (fst st).

(** Every call of the extraction follows a [done] frame and is on the
    buffer read up to it, or on the [text] of the envelope parsed from
    that buffer. *)
Definition atDone (frames : list Frame) (text : jsstring) : Prop :=
  exists pre post, frames = pre ++ FDone :: post
    /\ (text = textOf pre
        \/ exists response,
             parseStructuredResponse (textOf pre) = Some response
             /\ getField (js "text") response = Some (Some (JString text))).

End Builtins.

(** ** The media reference grammar, in the words of the specification:
    [/generated/<token>.<ext>] with [<ext>] one of the eight extensions;
    with [fold] the extension is compared up to the case of its letters. *)

Definition extensions : list jsstring :=
  [js "png"; js "jpg"; js "jpeg"; js "gif"; js "webp"; js "mp4"; js "webm";
   js "mov"].

Definition lowerChar (c : N) : N := if isUpper c then (c + 32)%N else c.

Definition MediaGrammar (fold : bool) (path : jsstring) : Prop :=
  exists token ext : jsstring,
    path = js "/generated/" ++ token ++ js "." ++ ext
    /\ (if fold then map lowerChar ext else ext) ∈ extensions.

(** ** Hashtag lists, in the words of the specification: each token
    matches [#[A-Za-z][A-Za-z0-9_]*], there are at most 25, and they come
    in the order in which they occur in the text. *)

Definition isHashtagToken (t : jsstring) : bool :=
  match t with
  | 35%N :: c :: rest => isAlpha c && forallb isWord rest
  | _ => false
  end.

(** The tokens occur in [text] one after another, from [from] on,
    without overlap. *)
Fixpoint occurFrom (text : jsstring) (from : nat) (tags : list jsstring)
    : Prop :=
  match tags with
  | [] => True
  | t :: ts =>
      exists i, from <= i
        /\ take (length t) (drop i text) = t
        /\ occurFrom text (i + length t) ts
  end.

Definition tagsOk (text : jsstring) (tags : list jsstring) : Prop :=
  length tags <= 25
  /\ Forall (fun t => isHashtagToken t = true) tags
  /\ occurFrom text 0 tags.

(** At most 25 tokens of the grammar. *)
Definition shortTokens (tags : list jsstring) : Prop :=
  length tags <= 25 /\ Forall (fun t => isHashtagToken t = true) tags.

(** Every entry of [generatedImagesMeta] has a key in [K] and hashtags in
    [T], and every card shows a path in [K]. *)
Definition allMeta (K : list N -> Prop) (T : list jsstring -> Prop)
    (g : Gallery) : Prop :=
  (forall k m, generatedImagesMeta g !! k = Some m -> K k /\ T (mhashtags m))
  /\ Forall K (contentGrid g).

(** The text holds [.png], up to the case of the letters. *)
Definition mentionsPng (text : jsstring) : bool :=
  includes (map lowerChar text) (js ".png").

(** The patterns that the source runs in a loop on [exec]. *)
Definition loopPatterns : list Regex.RegExp :=
  [campaignPostPattern; carouselSlidePattern; structuredPattern;
   singlePostPattern; genericPattern] ++ imagePatterns
  ++ [emojiOutsidePattern; emojiInsidePattern; inlinePattern;
      bulletOptionsPattern; bulletPattern].

(** The patterns that look for an image reference. *)
Definition pngPatterns : list Regex.RegExp :=
  [campaignPostPattern; carouselSlidePattern; structuredPattern;
   singlePostPattern; genericPattern] ++ imagePatterns ++ patterns.

(** ** What [parseAssistantResponse] looks up

    The references that [parseAssistantResponse] looks up in
    [generatedImages], in the order in which it does: the images of the
    tuples or, without a tuple, the bare references; then the videos. *)
Definition references (text : jsstring) : list jsstring :=
  (if 0 <? length (extractImageCaptionPairs text)
   then map image (extractImageCaptionPairs text)
   else allMatches text)
  ++ videos text.

(** ** The candidates of the fallback (app.js 2420-2436)

    What the fallback makes of a match before its test (line 2431), the
    test, and the candidates in the order in which the loops over the
    nine patterns and their matches meet them. *)
Definition fallbackCandidate (match_ : jsstring) : jsstring :=
  withSlash
    (trim (Regex.replace parens (Regex.replace imageLabelPrefix match_ []) [])).

Definition admitted (cleanPath : jsstring) : bool :=
  includes cleanPath (js "/generated/") && endsWith cleanPath (js ".png").

Definition fallbackCandidates (text : jsstring) : list jsstring :=
  flat_map
    (fun pattern => map fallbackCandidate (default [] (Regex.matchG pattern text)))
    patterns.

(** A card or a metadata entry is listed: its path is the normal form of
    an entry of [generatedImages]. *)
Definition listed (g : Gallery) (path : jsstring) : Prop :=
  exists r, r ∈ generatedImages g /\ sanitizeImagePath r = Some path.

Definition allListed (g : Gallery) : Prop :=
  Forall (listed g) (contentGrid g)
  /\ forall k m, generatedImagesMeta g !! k = Some m -> listed g k.

(** Every stored caption has at most [n] code units. *)
Definition captionsWithin (n : nat) (g : Gallery) : Prop :=
  forall k m, generatedImagesMeta g !! k = Some m -> length (mcaption m) <= n.

(** No more cards than references. *)
Definition cardsLe (g : Gallery) : Prop :=
  length (contentGrid g) <= length (generatedImages g).

(** ** The stream consumer: what is counted and compared *)

Definition isHide (e : Effect) : bool :=
  match e with HideProcessingIndicator => true | _ => false end.

Section DoneText.
Variable JSON_parse : jsstring -> option Json.

(** The text that the [done] branch hands to [parseAssistantResponse]
    for a buffer: the [text] of the envelope, the buffer itself without an
    envelope, none when the [text] of the envelope is no string (the call
    throws at its first statement then). *)
Definition doneText (buffer : jsstring) : option jsstring :=
  match parseStructuredResponse JSON_parse buffer with
  | Some response =>
      match getField (js "text") response with
      | Some (Some (JString text)) => Some text
      | _ => None
      end
  | None => Some buffer
  end.

End DoneText.

(** ** The hashtags of the right panel (app.js 1769-1789 and 1816-1823)

    The state is [this.currentHashtags]; the spans drawn in the panel
    show the same list. *)

(** [[...new Set(hashtags)].slice(0, 30)] *)
Definition displayHashtagsOnPanel (hashtags : list jsstring) : list jsstring :=
  take 30 (fold_left setAdd hashtags []).

Definition updateRightPanel (currentHashtags : list jsstring) (text : jsstring)
    : list jsstring :=
  match text with
  | [] => currentHashtags
  | _ =>
      let hasImage :=
        includes text (js "/generated/") || includes text (js "generated/") in
      if hasImage then
        match Regex.matchG hashtagTokens text with
        | Some hashtags =>
            if 5 <? length hashtags then displayHashtagsOnPanel hashtags
            else currentHashtags
        | None => currentHashtags
        end
      else currentHashtags
  end.

(** ** Persistence of the gallery (app.js 421-471) and its rebuilding
    (app.js 3577-3595) *)

(** The two items of [localStorage] that hold the gallery; [None] is an
    item that is not set. *)
Record Storage : Type := MkStorage {
  content_studio_images : option jsstring;
  content_studio_images_meta : option jsstring }.

(** [this.generatedImages] and [this.generatedImagesMeta] as values of
    JSON.  The entries of the object are listed in the order of the map,
    not in the order of their insertion; the keys are distinct, so the
    object that is read back does not depend on it. *)
Definition imagesJson (images : list jsstring) : Json :=
  JArray (JString <$> images).

Definition metaJson (m : Meta) : Json :=
  JObject [(js "caption", JString (mcaption m));
           (js "hashtags", JArray (JString <$> mhashtags m))].

Definition galleryMetaJson (meta : gmap (list N) Meta) : Json :=
  JObject (prod_map id metaJson <$> map_to_list meta).

(** A parsed value as an array of strings, as a [{caption, hashtags}]
    and as the object of such entries (of two equal keys [JSON.parse]
    keeps the last); [None] for a value of another shape. *)
Definition stringsOf (v : Json) : option (list jsstring) :=
  match v with
  | JArray items =>
      mapM (fun x => match x with JString s => Some s | _ => None end) items
  | _ => None
  end.

Definition metaOf (v : Json) : option Meta :=
  match getField (js "caption") v, getField (js "hashtags") v with
  | Some (Some (JString caption)), Some (Some hashtags) =>
      MkMeta caption <$> stringsOf hashtags
  | _, _ => None
  end.

Definition galleryMetaOf (v : Json) : option (gmap (list N) Meta) :=
  match v with
  | JObject fields =>
      list_to_map
        <$> mapM (fun kv => pair (fst kv) <$> metaOf (snd kv)) (reverse fields)
  | _ => None
  end.

Definition videoExtension : Regex.RegExp :=
  Eval vm_compute in Regex.the (Regex.regexp
    "\.(mp4|webm|mov)$"
    "i").

(** The body of [images.forEach] (lines 449-464). *)
Definition restoreImage (g : Gallery) (imgUrl : jsstring) : Gallery :=
  if bool_decide (imgUrl ∈ generatedImages g) then g
  else
    let g := push g imgUrl in
    let meta := generatedImagesMeta g !! imgUrl in
    let isVideo := Regex.test videoExtension imgUrl in
    if isVideo then
      let caption := from_option mcaption [] meta in
      let hashtags := from_option mhashtags [] meta in
      addVideoToGalleryWithCaption g imgUrl caption hashtags
    else
      match meta with
      | Some meta =>
          if negb (bool_decide (mcaption meta = []))
             || (0 <? length (mhashtags meta))
          then addImageToGalleryWithCaption g imgUrl (mcaption meta) (mhashtags meta)
          else addImageToGallery g imgUrl
      | None => addImageToGallery g imgUrl
      end.

(** The body of [imagesToReAdd.forEach] (lines 3590-3593). *)
Definition reAdd (g : Gallery) (imgUrl : jsstring) : Gallery :=
  addImageToGallery (push g imgUrl) imgUrl.

Definition refreshGallery (g : Gallery) : Gallery :=
  if 0 <? length (generatedImages g) then
    let imagesToReAdd := generatedImages g in
    fold_left reAdd imagesToReAdd (MkGallery [] (generatedImagesMeta g) [])
  else g.

Section Persistence.

(** [JSON.stringify] on the values above. *)
Variable JSON_parse : jsstring -> option Json.
Variable JSON_stringify : Json -> jsstring.

Definition saveImagesToStorage (g : Gallery) : Storage :=
  MkStorage (Some (JSON_stringify (imagesJson (generatedImages g))))
            (Some (JSON_stringify (galleryMetaJson (generatedImagesMeta g)))).

(** [None]: a stored value that parses to another shape than the one
    [saveImagesToStorage] writes; the gallery would leave the types of
    this model.  An empty item is falsy, a text that does not parse is
    caught. *)
Definition restoreImagesFromStorage (storage : Storage) (g : Gallery)
    : option Gallery :=
  generatedImagesMeta ←
    match content_studio_images_meta storage with
    | Some (c :: savedMeta) =>
        match JSON_parse (c :: savedMeta) with
        | Some parsed => galleryMetaOf parsed
        | None => Some ∅
        end
    | _ => Some ∅
    end;
  let g := MkGallery (generatedImages g) generatedImagesMeta (contentGrid g) in
  match content_studio_images storage with
  | Some (c :: savedImages) =>
      match JSON_parse (c :: savedImages) with
      | Some parsed =>
          images ← stringsOf parsed;
          Some (if 0 <? length images
                then fold_left restoreImage images
                       (MkGallery [] generatedImagesMeta (contentGrid g))
                else g)
      | None => Some g
      end
  | _ => Some g
  end.

(** What the built-ins guarantee for a value [v]: the text written for it
    is not empty and parses to [v]. *)
Definition roundTrips (v : Json) : Prop :=
  JSON_stringify v <> [] /\ JSON_parse (JSON_stringify v) = Some v.

End Persistence.

(** The entry of a reference as the cards read it: [meta ? meta.caption
    || '' : ''] and [meta ? meta.hashtags || [] : []]. *)
Definition metaView (meta : option Meta) : Meta :=
  MkMeta (from_option mcaption [] meta) (from_option mhashtags [] meta).

(** The patterns of the captioned tuples (patterns 1, 2, 3 and 4 of
    [extractImageCaptionPairs]). *)
Definition captionedPatterns : list Regex.RegExp :=
  [campaignPostPattern; structuredPattern; singlePostPattern; genericPattern].

(** ** Captures

    [bodies r k]: the patterns inside the groups numbered [k] of [r];
    [sets r k]: every match of [r] goes through a group numbered [k]. *)
Fixpoint bodies (r : Regex.regex) (k : nat) : list Regex.regex :=
  match r with
  | Regex.Seq a b | Regex.Alt a b => bodies a k ++ bodies b k
  | Regex.Rep _ _ _ a | Regex.Look a => bodies a k
  | Regex.Grp k' a => (if k' =? k then [a] else []) ++ bodies a k
  | _ => []
  end.

Fixpoint sets (r : Regex.regex) (k : nat) : bool :=
  match r with
  | Regex.Seq a b => sets a k || sets b k
  | Regex.Alt a b => sets a k && sets b k
  | Regex.Rep mn _ _ a => (0 <? mn) && sets a k
  | Regex.Grp k' a => (k' =? k) || sets a k
  | Regex.Look a => sets a k
  | _ => false
  end.

(** What a step of the interpreter may do to entry [k] of the capture
    table: leave it, or set it to a range that one of [bs] matches. *)
Definition capStep (fl : Regex.flags) (inp : jsstring) (bs : list Regex.regex)
    (k : nat) (c c' : Regex.caps) : Prop :=
  length c' = length c
  /\ (c' !! k = c !! k
      \/ exists a b body, c' !! k = Some (Some (a, b))
           /\ body ∈ bs /\ Regex.matches fl inp body a b).

(** The gallery still shows [img] as its last image, with entry [m]. *)
Definition lastIs (img : jsstring) (m : Meta) (g : Gallery) : Prop :=
  lastImage g = Some img /\ generatedImagesMeta g !! img = Some m.

(** The group [k] of [re] only matches ranges that end in [.png], up to
    the case of the letters. *)
Definition pngGroup (re : Regex.RegExp) (k : nat) : Prop :=
  forall inp a b body,
    body ∈ bodies (Regex.rx re) k ->
    Regex.matches (Regex.rflags re) inp body a b ->
    endsWith (map lowerChar (substring inp a b)) (js ".png") = true.

(** ** Clean references: [/generated/<token>.<ext>] with a non-empty
    token of letters, digits, [_] and [-], and one of the eight
    extensions in any case. *)
Definition isTokenChar (c : N) : bool :=
  isAlpha c || isDigit c || (c =? 95)%N || (c =? 45)%N.

Definition cleanPath (token ext : jsstring) : jsstring :=
  js "/generated/" ++ token ++ js "." ++ ext.

Definition CleanPath (path : jsstring) : Prop :=
  exists token ext,
    path = cleanPath token ext
    /\ token <> [] /\ Forall (fun c => isTokenChar c = true) token
    /\ map lowerChar ext ∈ extensions.

(** ** Inputs of the scenarios *)

Definition nl : jsstring := [10%N].

Definition emptyGallery : Gallery := MkGallery [] ∅ [].

Definition helloPair : Pair :=
  MkPair (js "/generated/a.png") (js "Hello") [js "#x"].

Definition helloGallery : Gallery := reconcilePair emptyGallery helloPair.

(** ASCII lower-casing, the restriction of [toLowerCase] to code units
    below 128. *)
Definition asciiLower (s : jsstring) : jsstring := map lowerChar s.

(** The truncated envelope of the malformed-JSON scenario. *)
Definition truncatedEnvelope : jsstring :=
  jsq "{'text': 'Pick one', 'has_choices': true, 'choices': [".

(** The first of the results that holds a tuple ("the chain stops at the
    first strategy that yields at least one tuple"). *)
Fixpoint firstYield (results : list (list Pair)) : list Pair :=
  match results with
  | [] => []
  | [] :: rest => firstYield rest
  | pairs :: _ => pairs
  end.

(** The six strategies, each on its own, in the order of the source. *)
Definition strategies (text : jsstring) : list (list Pair) :=
  [captionedLoop campaignPostPattern 1500 text [];
   carouselPairs text [];
   slidePairs text [];
   captionedLoop structuredPattern 1000 text [];
   captionedLoop singlePostPattern 1000 text [];
   captionedLoop genericPattern 500 text []].

(** A response in which a bare reference with a caption precedes a
    labeled post. *)
Definition teaserAndPost : jsstring :=
  js "/generated/x.png" ++ nl ++ js "Caption:" ++ nl ++ js "Teaser" ++ nl
  ++ js "---" ++ nl
  ++ js "✅ Post 1 of 3 Created!" ++ nl
  ++ js "📷 Image: /generated/p1.png" ++ nl
  ++ js "Caption:" ++ nl ++ js "Hello world" ++ nl
  ++ js "Hashtags: #a #b".

(** Texts with one, three and nine slash-separated options. *)
Definition oneOption : jsstring := js "**📸 Single Post** - one image".
Definition threeOptions : jsstring := js "Approve? (yes / Tweak something / YES / skip)".
Definition nineOptions : jsstring := js "(a / b / c / d / e / f / g / h / i)".

(** A carousel whose hashtag line repeats a tag. *)
Definition repeatedTag : jsstring :=
  js "Carousel Complete" ++ nl ++ js "[📷 View](/generated/a.png)" ++ nl
  ++ js "Caption: Big sale" ++ nl ++ js "#sale #now #sale".

(** A response whose references are no [.png] and no video. *)
Definition otherFormats : jsstring :=
  js "Image: /generated/a.jpg" ++ nl ++ js "[📷 View](/generated/b.webp)" ++ nl
  ++ js "/generated/c.gif and /generated/d.jpeg" ++ nl
  ++ js "Caption:" ++ nl ++ js "A picture of the sea" ++ nl ++ js "#sea".

(** The carousel scenario as the specification words it: the phrase, the
    three references in markdown links, [Caption: "Summer vibes"] and a
    [Hashtags:] line with six tags; once with the camera label the source
    writes in its links, once with plain link texts. *)
Definition sixTags : jsstring := js "#summer #beach #sun #fun #vibes #travel".

Definition sixTagList : list jsstring :=
  [js "#summer"; js "#beach"; js "#sun"; js "#fun"; js "#vibes"; js "#travel"].

Definition carouselAsWorded : jsstring :=
  js "🎊 Carousel Complete!" ++ nl ++ nl
  ++ js "| 1 | [📷 View Image](/generated/slide1.png) |" ++ nl
  ++ js "| 2 | [📷 View Image](/generated/slide2.png) |" ++ nl
  ++ js "| 3 | [📷 View Image](/generated/slide3.png) |" ++ nl ++ nl
  ++ jsq "Caption: 'Summer vibes'" ++ nl
  ++ js "Hashtags: " ++ sixTags.

Definition carouselPlainLinks : jsstring :=
  js "Carousel Complete" ++ nl
  ++ js "[Slide 1](/generated/slide1.png) [Slide 2](/generated/slide2.png) "
  ++ js "[Slide 3](/generated/slide3.png)" ++ nl
  ++ jsq "Caption: 'Summer vibes'" ++ nl
  ++ js "Hashtags: " ++ sixTags.

(** The first text with the caption unquoted. *)
Definition carouselUnquoted : jsstring :=
  js "🎊 Carousel Complete!" ++ nl ++ nl
  ++ js "| 1 | [📷 View Image](/generated/slide1.png) |" ++ nl
  ++ js "| 2 | [📷 View Image](/generated/slide2.png) |" ++ nl
  ++ js "| 3 | [📷 View Image](/generated/slide3.png) |" ++ nl ++ nl
  ++ js "Caption: Summer vibes" ++ nl
  ++ js "Hashtags: " ++ sixTags.

(** The same carousel in the completion format of the source: camera
    labels in the links, the caption unquoted and closed by the
    emoji-marked hashtag header. *)
Definition carouselComplete : jsstring :=
  js "🎊 Carousel Complete!" ++ nl ++ nl
  ++ js "| 1 | [📷 View Image](/generated/slide1.png) |" ++ nl
  ++ js "| 2 | [📷 View Image](/generated/slide2.png) |" ++ nl
  ++ js "| 3 | [📷 View Image](/generated/slide3.png) |" ++ nl ++ nl
  ++ js "Caption: Summer vibes" ++ nl
  ++ js "#️⃣ Hashtags: " ++ sixTags.

(** A slide whose image is outside [/generated/]. *)
Definition foreignSlide : jsstring :=
  js "Slide 1 of 3: Intro" ++ nl ++ js "Image: static/x.png".

(** The texts that [JSON.stringify] writes for the gallery of one
    captioned image, and the built-ins on these two values. *)
Definition helloImagesText : jsstring := jsq "['/generated/a.png']".

Definition helloMetaText : jsstring :=
  jsq "{'/generated/a.png':{'caption':'Hello','hashtags':['#x']}}".

Definition stringifyHello (v : Json) : jsstring :=
  match v with
  | JArray _ => helloImagesText
  | _ => helloMetaText
  end.

Definition parseHello (text : jsstring) : option Json :=
  if bool_decide (text = helloImagesText) then
    Some (JArray [JString (js "/generated/a.png")])
  else if bool_decide (text = helloMetaText) then
    Some (JObject [(js "/generated/a.png",
                    JObject [(js "caption", JString (js "Hello"));
                             (js "hashtags", JArray [JString (js "#x")])])])
  else None.

(** A response that announces a video and nothing else. *)
Definition videoOnly : jsstring := js "Your video is ready: /generated/clip.mp4".

(** A reference that is no [.png], in parentheses that close after the
    word [.png]. *)
Definition jpgInParentheses : jsstring :=
  js "See (/generated/a.jpg is not a .png)".

(** Envelopes with a string as [choices] and with a [text] that is no
    string, and [JSON.parse] on these three texts. *)
Definition stringChoices : jsstring :=
  jsq "{'text': 'Pick', 'has_choices': true, 'choices': 'ab'}".

Definition stringChoicesJson : Json :=
  JObject [(js "text", JString (js "Pick")); (js "has_choices", JBool true);
           (js "choices", JString (js "ab"))].

Definition nullText : jsstring := jsq "{'text': null, 'has_choices': false}".

Definition nullTextJson : Json :=
  JObject [(js "text", JNull); (js "has_choices", JBool false)].

Definition numberText : jsstring := jsq "{'text': 5, 'has_choices': false}".

Definition numberTextJson : Json :=
  JObject [(js "text", JNumber (js "5")); (js "has_choices", JBool false)].

Definition parseEnvelopes (text : jsstring) : option Json :=
  if bool_decide (text = stringChoices) then Some stringChoicesJson
  else if bool_decide (text = nullText) then Some nullTextJson
  else if bool_decide (text = numberText) then Some numberTextJson
  else None.

(** * Properties *)

(** ** The interpreter returns matches only *)

Module RegexFacts.
Import Regex.

Section Sound.
Context (fl : flags) (inp : jsstring).

Lemma rep_sound (step : nat -> caps -> list (nat * caps)) (R : nat -> nat -> Prop) :
  (forall i c j c', (j, c') ∈ step i c -> R i j) ->
  forall g fuel mn mx i c j c',
    (j, c') ∈ rep step g fuel mn mx i c ->
    exists n, mn <= n /\ from_option (fun m => n <= m) True mx /\ iter R n i j.
Proof.
  intros Hstep g fuel.
  induction fuel as [|fuel IH]; intros mn mx i c j c' Hin; simpl in Hin.
  { by apply elem_of_nil in Hin. }
  assert (Hstop : (j, c') ∈ (if mn =? 0 then [(i, c)] else []) ->
            exists n, mn <= n /\ from_option (fun m => n <= m) True mx /\ iter R n i j).
  { destruct (Nat.eqb_spec mn 0) as [->|]; intros H.
    - apply list_elem_of_singleton in H. injection H as -> ->.
      exists 0. split; [lia|]. split; [destruct mx; simpl; lia|done].
    - by apply elem_of_nil in H. }
  assert (Hmore : (j, c') ∈
            match mx with
            | Some 0 => []
            | _ => flat_map (fun '(j0, c0) =>
                     if (mn =? 0) && (j0 =? i) then []
                     else rep step g fuel (pred mn) (pred <$> mx) j0 c0) (step i c)
            end ->
            exists n, mn <= n /\ from_option (fun m => n <= m) True mx /\ iter R n i j).
  { intros H.
    assert (Hfm : (j, c') ∈ flat_map (fun '(j0, c0) =>
                     if (mn =? 0) && (j0 =? i) then []
                     else rep step g fuel (pred mn) (pred <$> mx) j0 c0) (step i c)
                  /\ mx <> Some 0).
    { destruct mx as [[|m]|]; [by apply elem_of_nil in H|split; [done|congruence]..]. }
    destruct Hfm as [Hfm Hmx].
    apply list_elem_of_In, in_flat_map in Hfm as [[k ck] [Hk Hrest]].
    apply list_elem_of_In in Hk, Hrest.
    destruct ((mn =? 0) && (k =? i)); [by apply elem_of_nil in Hrest|].
    apply IH in Hrest as (n & Hmn & Hbound & Hiter).
    exists (S n). split; [lia|]. split.
    - destruct mx as [[|m]|]; simpl in *; [congruence|lia|done].
    - simpl. exists k. split; [by eapply Hstep|done]. }
  destruct g; apply elem_of_app in Hin as [H|H]; auto.
Qed.

(** The fuel that [run] gives to [rep] is enough: with any larger amount
    the result is the same. *)
Lemma rep_fuel (step : nat -> caps -> list (nat * caps)) (g : bool) (len : nat) :
  (forall i c j c', i <= len -> (j, c') ∈ step i c -> i <= j <= len) ->
  forall fuel fuel' mn mx i c,
    i <= len -> len - i + mn < fuel -> len - i + mn < fuel' ->
    rep step g fuel mn mx i c = rep step g fuel' mn mx i c.
Proof.
  intros Hstep fuel.
  induction fuel as [|fuel IH]; intros fuel' mn mx i c Hi Hf Hf'; [lia|].
  destruct fuel' as [|fuel']; [lia|]. simpl.
  assert (Hmore :
    flat_map (fun '(j0, c0) =>
                if (mn =? 0) && (j0 =? i) then []
                else rep step g fuel (pred mn) (pred <$> mx) j0 c0) (step i c)
    = flat_map (fun '(j0, c0) =>
                if (mn =? 0) && (j0 =? i) then []
                else rep step g fuel' (pred mn) (pred <$> mx) j0 c0) (step i c)).
  { assert (Hall : forall jc, jc ∈ step i c -> jc ∈ step i c) by done.
    revert Hall. generalize (step i c) at 1 3 4. intros l.
    induction l as [|[j0 c0] l IHl]; intros Hall; simpl; [done|].
    rewrite IHl by (intros jc Hjc; apply Hall; by apply list_elem_of_further).
    f_equal.
    destruct (Hstep i c j0 c0 Hi (Hall _ (list_elem_of_here _ _))) as [Hij Hj].
    destruct (Nat.eqb_spec mn 0) as [->|Hmn]; simpl.
    - destruct (Nat.eqb_spec j0 i); [done|]. apply IH; lia.
    - apply IH; lia. }
  by rewrite Hmore.
Qed.

#[local] Arguments rep : simpl never.

Lemma run_sound r : forall i c j c',
  (j, c') ∈ run fl inp r i c -> matches fl inp r i j.
Proof.
  induction r as [|a| |neg items|a IHa b IHb|a IHa b IHb|mn mx g a IHa|k a IHa|a IHa| |];
    intros i c j c' Hin; simpl in Hin |- *.
  - apply list_elem_of_singleton in Hin. by injection Hin as -> _.
  - destruct (inp !! i) as [x|] eqn:Hx; [|by apply elem_of_nil in Hin].
    destruct (N.eqb_spec (canon (fignoreCase fl) x) (canon (fignoreCase fl) a));
      [|by apply elem_of_nil in Hin].
    apply list_elem_of_singleton in Hin. injection Hin as -> _. by exists x.
  - destruct (inp !! i) as [x|] eqn:Hx; [|by apply elem_of_nil in Hin].
    destruct (fdotAll fl || negb (isLineTerminator x)) eqn:Hd;
      [|by apply elem_of_nil in Hin].
    apply list_elem_of_singleton in Hin. injection Hin as -> _. by exists x.
  - destruct (inp !! i) as [x|] eqn:Hx; [|by apply elem_of_nil in Hin].
    destruct (clsMatch (fignoreCase fl) neg items x) eqn:Hd;
      [|by apply elem_of_nil in Hin].
    apply list_elem_of_singleton in Hin. injection Hin as -> _. by exists x.
  - apply list_elem_of_In, in_flat_map in Hin as [[k ck] [Hk Hrest]].
    apply list_elem_of_In in Hk, Hrest. exists k. split; eauto.
  - apply elem_of_app in Hin as [H|H]; eauto.
  - eapply rep_sound; [|exact Hin]. intros; eauto.
  - apply list_elem_of_fmap in Hin as [[j0 c0] [Heq Hin]].
    injection Heq as -> _. eauto.
  - destruct (run fl inp a i c) as [|[k ck] rest] eqn:Hrun;
      [by apply elem_of_nil in Hin|].
    apply list_elem_of_singleton in Hin. injection Hin as -> _.
    split; [done|]. exists k. eapply IHa. rewrite Hrun. apply list_elem_of_here.
  - destruct ((i =? 0) || (fmultiline fl && atLineTerminator inp (i - 1))) eqn:Hb;
      [|by apply elem_of_nil in Hin].
    apply list_elem_of_singleton in Hin. by injection Hin as -> _.
  - destruct ((i =? length inp) || (fmultiline fl && atLineTerminator inp i)) eqn:Hb;
      [|by apply elem_of_nil in Hin].
    apply list_elem_of_singleton in Hin. by injection Hin as -> _.
Qed.


Lemma iter_bounds (R : nat -> nat -> Prop) (len : nat) :
  (forall i j, i <= len -> R i j -> i <= j <= len) ->
  forall n i j, i <= len -> iter R n i j -> i <= j <= len.
Proof.
  intros HR n. induction n as [|n IH]; simpl; intros i j Hi H.
  - lia.
  - destruct H as (k & Hk & Hrest). apply HR in Hk; [|done].
    apply IH in Hrest; lia.
Qed.

Lemma matches_bounds r : forall i j,
  i <= length inp -> matches fl inp r i j -> i <= j <= length inp.
Proof.
  induction r as [|a| |neg items|a IHa b IHb|a IHa b IHb|mn mx g a IHa|k a IHa|a IHa| |];
    simpl; intros i j Hi H.
  - lia.
  - destruct H as (x & Hx & _ & ->). apply lookup_lt_Some in Hx. lia.
  - destruct H as (x & Hx & _ & ->). apply lookup_lt_Some in Hx. lia.
  - destruct H as (x & Hx & _ & ->). apply lookup_lt_Some in Hx. lia.
  - destruct H as (k & Ha & Hb). apply IHa in Ha; [|done]. apply IHb in Hb; lia.
  - destruct H as [H|H]; eauto.
  - destruct H as (n & _ & _ & H). eapply iter_bounds; eauto.
  - eauto.
  - lia.
  - lia.
  - lia.
Qed.

Lemma iter_minLen (R : nat -> nat -> Prop) (d : nat) :
  (forall i j, R i j -> i + d <= j) ->
  forall n i j, iter R n i j -> i + n * d <= j.
Proof.
  intros HR n. induction n as [|n IH]; simpl; intros i j H; [lia|].
  destruct H as (k & Hk & Hrest). apply HR in Hk. apply IH in Hrest. lia.
Qed.

(** A match spans at least [minLen] code units. *)
Lemma matches_minLen r : forall i j,
  matches fl inp r i j -> i + minLen r <= j.
Proof.
  induction r as [|a| |neg items|a IHa b IHb|a IHa b IHb|mn mx g a IHa|k a IHa|a IHa| |];
    simpl; intros i j H.
  - lia.
  - destruct H as (x & _ & _ & ->). lia.
  - destruct H as (x & _ & _ & ->). lia.
  - destruct H as (x & _ & _ & ->). lia.
  - destruct H as (k & Ha & Hb). apply IHa in Ha. apply IHb in Hb. lia.
  - destruct H as [H|H]; [apply IHa in H|apply IHb in H]; lia.
  - destruct H as (n & Hn & _ & H). apply (iter_minLen _ _ IHa) in H. nia.
  - eauto.
  - lia.
  - lia.
  - lia.
Qed.

End Sound.

Lemma search_sound re inp fuel : forall i m,
  i + fuel <= length inp -> search re inp fuel i = Some m -> found re inp i m.
Proof.
  induction fuel as [|fuel IH]; intros i m Hlen Hs; simpl in Hs.
  - destruct (run _ _ _ _ _) as [|[j c] rest] eqn:Hrun; [done|].
    injection Hs as <-. unfold found; simpl.
    assert (Hm : matches (rflags re) inp (rx re) i j).
    { eapply run_sound. rewrite Hrun. apply list_elem_of_here. }
    apply matches_bounds in Hm as Hb; [|lia]. repeat split; try lia. done.
  - destruct (run _ _ _ _ _) as [|[j c] rest] eqn:Hrun.
    + apply IH in Hs; [|lia]. unfold found in *. intuition lia.
    + injection Hs as <-. unfold found; simpl.
      assert (Hm : matches (rflags re) inp (rx re) i j).
      { eapply run_sound. rewrite Hrun. apply list_elem_of_here. }
      apply matches_bounds in Hm as Hb; [|lia]. repeat split; try lia. done.
Qed.

Lemma exec_sound re inp lastIndex m :
  exec re inp lastIndex = Some m -> found re inp lastIndex m.
Proof.
  unfold exec. destruct (Nat.ltb_spec (length inp) lastIndex); [done|].
  apply search_sound. lia.
Qed.

Lemma run_rep_fuel fl inp a mn mx g i c fuel :
  i <= length inp -> length inp - i + mn < fuel ->
  rep (run fl inp a) g fuel mn mx i c = run fl inp (Rep mn mx g a) i c.
Proof.
  intros Hi Hf. cbn [run]. apply (rep_fuel _ _ (length inp)); [|done|done|lia].
  intros i' c' j c'' Hi' Hin. eapply matches_bounds; [done|]. by eapply run_sound.
Qed.

(** Likewise for the enumeration of the matches of a global pattern. *)
Lemma execFrom_fuel re inp fuel : forall fuel' lastIndex,
  length inp < lastIndex + fuel -> length inp < lastIndex + fuel' ->
  execFrom re inp fuel lastIndex = execFrom re inp fuel' lastIndex.
Proof.
  assert (Hout : forall f last, length inp < last -> execFrom re inp f last = []).
  { intros [|f] last Hlast; [done|]. simpl. unfold exec.
    destruct (Nat.ltb_spec (length inp) last); [done|lia]. }
  induction fuel as [|fuel IH]; intros fuel' lastIndex Hf Hf'.
  - rewrite Hout by lia. by rewrite Hout by lia.
  - destruct fuel' as [|fuel'].
    + rewrite (Hout (S fuel)) by lia. by rewrite Hout by lia.
    + simpl. destruct (exec re inp lastIndex) as [m|] eqn:He; [|done].
      apply exec_sound in He as (Hfrom & Hij & _). f_equal.
      destruct (Nat.eqb_spec (m_end m) (m_index m)); apply IH; lia.
Qed.

Lemma chain_weaken re inp ms : forall a b,
  a <= b -> chain re inp b ms -> chain re inp a ms.
Proof.
  destruct ms as [|m ms]; simpl; [done|].
  intros a b Hab [Hf Hc]. split; [|done]. unfold found in *. intuition lia.
Qed.

Lemma execFrom_chain re inp fuel : forall lastIndex,
  chain re inp lastIndex (execFrom re inp fuel lastIndex).
Proof.
  induction fuel as [|fuel IH]; intros lastIndex; simpl; [done|].
  destruct (exec re inp lastIndex) as [m|] eqn:He; [|done].
  simpl. split; [by apply exec_sound|].
  destruct (m_end m =? m_index m); [|apply IH].
  eapply chain_weaken; [|apply IH]. lia.
Qed.

Lemma execAll_chain re inp : chain re inp 0 (execAll re inp).
Proof. apply execFrom_chain. Qed.

Lemma chain_Forall re inp ms : forall from,
  chain re inp from ms -> Forall (found re inp from) ms.
Proof.
  induction ms as [|m ms IH]; intros from Hc; [constructor|].
  destruct Hc as [Hf Hc]. constructor; [done|].
  apply IH in Hc. eapply Forall_impl; [exact Hc|].
  intros m' Hm'. unfold found in *. intuition lia.
Qed.

Lemma execAll_found re inp m :
  m ∈ execAll re inp -> found re inp 0 m.
Proof.
  intros Hin. pose proof (chain_Forall _ _ _ _ (execAll_chain re inp)) as HF.
  rewrite Forall_forall in HF. by apply HF.
Qed.

End RegexFacts.

(** The loops of the source on [exec] end: each of their patterns spans
    at least one code unit, so [lastIndex] grows with every match. *)
Lemma loopPatterns_consume :
  Forall (fun re => forall text from m,
            Regex.found re text from m -> Regex.m_index m < Regex.m_end m)
         loopPatterns.
Proof.
  apply Forall_forall. intros re Hre text from m (_ & _ & _ & Hm).
  apply RegexFacts.matches_minLen in Hm.
  assert (Hpos : Forall (fun re => 0 < Regex.minLen (Regex.rx re)) loopPatterns)
    by (repeat constructor).
  rewrite Forall_forall in Hpos. specialize (Hpos re Hre). lia.
Qed.

(** ** The interpreter on small patterns *)

Lemma pattern_text_examples :
  hashtagTokens
  = Regex.MkRegExp
      (Regex.Seq (Regex.Chr 35)
         (Regex.Seq (Regex.Cls false [Regex.CRng 97 122; Regex.CRng 65 90])
            (Regex.Rep 0 None true
               (Regex.Cls false
                  [Regex.CRng 97 122; Regex.CRng 65 90; Regex.CRng 48 57;
                   Regex.CChr 95]))))
      (Regex.Flags true false false false) 0
  /\ Regex.regexp "(a|b)+?c{2,3}(?=\s|$)" "i"
     = Some (Regex.MkRegExp
               (Regex.Seq
                  (Regex.Rep 1 None false
                     (Regex.Grp 1 (Regex.Alt (Regex.Chr 97) (Regex.Chr 98))))
                  (Regex.Seq (Regex.Rep 2 (Some 3) true (Regex.Chr 99))
                     (Regex.Look
                        (Regex.Alt (Regex.Cls false [Regex.CSpace]) Regex.Eol))))
               (Regex.Flags false true false false) 1)
  /\ Regex.regexp "a)" "" = None.
Proof. repeat split; reflexivity. Qed.

(** Greedy and lazy quantifiers, the order of alternatives, folding of
    case, lookahead, captures, global matching, replacing and splitting. *)
Lemma interpreter_examples :
  (Regex.whole (js "<a><b>") <$>
     Regex.match1 (Regex.the (Regex.regexp "<.+>" "")) (js "<a><b>"))
  = Some (js "<a><b>")
  /\ (Regex.whole (js "<a><b>") <$>
        Regex.match1 (Regex.the (Regex.regexp "<.+?>" "")) (js "<a><b>"))
     = Some (js "<a>")
  /\ (Regex.whole (js "xab") <$>
        Regex.match1 (Regex.the (Regex.regexp "a|ab" "")) (js "xab"))
     = Some (js "a")
  /\ Regex.test (Regex.the (Regex.regexp "\.png$" "i")) (js "A.PnG") = true
  /\ Regex.test (Regex.the (Regex.regexp "\.png$" "")) (js "A.PnG") = false
  /\ ((fun m => Regex.group (js "k=v;") m 2) <$>
        Regex.match1 (Regex.the (Regex.regexp "(\w)=(\w)(?=;)" "")) (js "k=v;"))
     = Some (Some (js "v"))
  /\ Regex.matchG hashtagTokens (js "#a, #2b and #c_3!") = Some [js "#a"; js "#c_3"]
  /\ Regex.replace blankLines (js "a" ++ [10%N; 32%N; 10%N] ++ js "b") []
     = js "a" ++ [10%N] ++ js "b"
  /\ Regex.split slashSeparator (js "yes / no/skip") = [js "yes"; js "no"; js "skip"]
  /\ decodeURIComponent (js "a%20b%F0%9F%93%B7") = Some (js "a b📷")
  /\ decodeURIComponent (js "50%") = None.
Proof. repeat split; by vm_compute. Qed.

(** ** Gallery reconciliation *)

Lemma addImageToGalleryWithCaption_images g imagePath caption hashtags :
  generatedImages (addImageToGalleryWithCaption g imagePath caption hashtags)
  = generatedImages g.
Proof.
  unfold addImageToGalleryWithCaption. by destruct (sanitizeImagePath imagePath).
Qed.

Lemma updateGalleryCardWithCaption_images g imagePath caption hashtags :
  generatedImages (updateGalleryCardWithCaption g imagePath caption hashtags)
  = generatedImages g.
Proof.
  unfold updateGalleryCardWithCaption. by destruct (sanitizeImagePath imagePath).
Qed.

Lemma addVideoToGalleryWithCaption_images g videoPath caption hashtags :
  generatedImages (addVideoToGalleryWithCaption g videoPath caption hashtags)
  = generatedImages g.
Proof.
  unfold addVideoToGalleryWithCaption. by destruct (sanitizeImagePath videoPath).
Qed.

Lemma addImageToGallery_images g imagePath :
  generatedImages (addImageToGallery g imagePath) = generatedImages g.
Proof. unfold addImageToGallery. by destruct (sanitizeImagePath imagePath). Qed.

Lemma reconcilePair_known g pair :
  image pair ∈ generatedImages g ->
  generatedImages (reconcilePair g pair) = generatedImages g.
Proof.
  intros Hin. unfold reconcilePair. rewrite bool_decide_eq_true_2 by done.
  destruct (_ || _); [apply updateGalleryCardWithCaption_images|done].
Qed.

Lemma reconcilePair_new g pair :
  image pair ∉ generatedImages g ->
  generatedImages (reconcilePair g pair) = generatedImages g ++ [image pair].
Proof.
  intros Hin. unfold reconcilePair. rewrite bool_decide_eq_false_2 by done.
  by rewrite addImageToGalleryWithCaption_images.
Qed.

Lemma reconcilePair_in g pair :
  image pair ∈ generatedImages (reconcilePair g pair).
Proof.
  destruct (decide (image pair ∈ generatedImages g)) as [Hin|Hin].
  - by rewrite reconcilePair_known.
  - rewrite reconcilePair_new by done. apply elem_of_app. right. apply list_elem_of_here.
Qed.

Lemma reconcileFallback_images text g imgPath :
  generatedImages (reconcileFallback text g imgPath)
  = if bool_decide (imgPath ∈ generatedImages g) then generatedImages g
    else generatedImages g ++ [imgPath].
Proof.
  unfold reconcileFallback. case_bool_decide; [done|].
  destruct (_ || _);
    [apply addImageToGalleryWithCaption_images|apply addImageToGallery_images].
Qed.

Lemma reconcileVideo_images g videoPath :
  generatedImages (reconcileVideo g videoPath)
  = if bool_decide (videoPath ∈ generatedImages g) then generatedImages g
    else generatedImages g ++ [videoPath].
Proof.
  unfold reconcileVideo. case_bool_decide; [done|].
  destruct (_ || _);
    [apply addVideoToGalleryWithCaption_images|apply addImageToGallery_images].
Qed.

(** Reconciliation keeps [generatedImages] free of duplicates. *)
Lemma reconcilePair_NoDup g pair :
  NoDup (generatedImages g) -> NoDup (generatedImages (reconcilePair g pair)).
Proof.
  intros Hnd. destruct (decide (image pair ∈ generatedImages g)) as [Hin|Hin].
  - by rewrite reconcilePair_known.
  - rewrite reconcilePair_new by done. apply NoDup_app. split; [done|].
    split; [|apply NoDup_singleton].
    intros x Hx Hx'. apply list_elem_of_singleton in Hx'. by subst.
Qed.

(** C1 (as amended).  For a media reference already in [generatedImages],
    reconciling a tuple never adds an entry; a tuple whose caption and
    hashtags are both empty leaves the whole gallery state unchanged; and
    a stored entry changes only when the tuple has a non-empty caption or a
    non-empty hashtag list, in which case the entry of the sanitized
    reference becomes the tuple's caption and hashtags, both together.  In
    particular [{"/generated/a.png", "", []}] after
    [{"/generated/a.png", "Hello", ["#x"]}] leaves caption "Hello" and
    hashtags ["#x"]. *)
Theorem reconcile_known_media (g : Gallery) (pair : Pair) :
  image pair ∈ generatedImages g ->
  generatedImages (reconcilePair g pair) = generatedImages g
  /\ (caption pair = [] -> hashtags pair = [] -> reconcilePair g pair = g)
  /\ (forall k : list N,
        generatedImagesMeta (reconcilePair g pair) !! k = generatedImagesMeta g !! k
        \/ ((caption pair <> [] \/ hashtags pair <> [])
            /\ sanitizeImagePath (image pair) = Some k
            /\ generatedImagesMeta (reconcilePair g pair) !! k
               = Some (MkMeta (caption pair) (hashtags pair))))
  /\ generatedImagesMeta
       (reconcilePair helloGallery (MkPair (js "/generated/a.png") [] []))
       !! js "/generated/a.png"
     = Some (MkMeta (js "Hello") [js "#x"]).
Proof.
  intros Hin. split; [by apply reconcilePair_known|]. split; [|split].
  - intros Hc Hh. unfold reconcilePair.
    rewrite bool_decide_eq_true_2 by done.
    by rewrite Hc, Hh, !bool_decide_eq_true_2.
  - intros k. unfold reconcilePair. rewrite bool_decide_eq_true_2 by done.
    destruct (negb (bool_decide (caption pair = []))
              || negb (bool_decide (hashtags pair = []))) eqn:Hne; [|by left].
    unfold updateGalleryCardWithCaption, storeMeta.
    destruct (sanitizeImagePath (image pair)) as [p|] eqn:Hs; [|by left].
    simpl. destruct (decide (p = k)) as [->|Hne'].
    + right. split; [|split; [done|by rewrite lookup_insert_eq]].
      apply orb_true_iff in Hne as [H|H]; apply negb_true_iff in H;
        apply bool_decide_eq_false in H; auto.
    + left. by rewrite lookup_insert_ne.
  - by vm_compute.
Qed.

Lemma reconcile_known_media_witness :
  generatedImages (reconcilePair helloGallery (MkPair (js "/generated/a.png") [] []))
  = generatedImages helloGallery.
Proof.
  apply (reconcile_known_media helloGallery (MkPair (js "/generated/a.png") [] [])).
  vm_compute. apply list_elem_of_here.
Defined.

(** C1, as stated, fails: a tuple with an empty caption and one hashtag,
    reconciled after [{"/generated/a.png", "Hello", ["#x"]}], replaces the
    populated caption "Hello" by the empty one. *)
Lemma reconcile_empties_caption :
  generatedImagesMeta helloGallery !! js "/generated/a.png"
  = Some (MkMeta (js "Hello") [js "#x"])
  /\ generatedImagesMeta
       (reconcilePair helloGallery (MkPair (js "/generated/a.png") [] [js "#y"]))
       !! js "/generated/a.png"
     = Some (MkMeta [] [js "#y"]).
Proof. split; by vm_compute. Qed.

(** C2.  Reconciling the same tuple twice yields the same number of
    entries of [generatedImages] as reconciling it once, on the path of
    the extracted tuples and on that of the bare references; after a
    reconciliation the tuple's reference occurs once if it was absent and
    as often as before otherwise: no second entry is created. *)
Theorem reconcile_idempotent_count (g : Gallery) (pair : Pair)
    (text imgPath : jsstring) :
  length (generatedImages (reconcilePair (reconcilePair g pair) pair))
  = length (generatedImages (reconcilePair g pair))
  /\ length (generatedImages
               (reconcileFallback text (reconcileFallback text g imgPath) imgPath))
     = length (generatedImages (reconcileFallback text g imgPath))
  /\ length (filter (fun x => x = image pair) (generatedImages (reconcilePair g pair)))
     = Nat.max 1 (length (filter (fun x => x = image pair) (generatedImages g)))
  /\ length (filter (fun x => x = imgPath)
               (generatedImages (reconcileFallback text g imgPath)))
     = Nat.max 1 (length (filter (fun x => x = imgPath) (generatedImages g))).
Proof.
  assert (Hcount : forall (x : list N) l, x ∈ l -> 1 <= length (filter (fun y => y = x) l)).
  { intros x l Hx. assert (Hf : x ∈ filter (fun y => y = x) l)
      by (by apply list_elem_of_filter).
    destruct (filter _ l); [by apply elem_of_nil in Hf|simpl; lia]. }
  assert (Hzero : forall (x : list N) l, x ∉ l -> filter (fun y => y = x) l = []).
  { intros x l Hx. destruct (filter (fun y => y = x) l) as [|z zs] eqn:Hf; [done|].
    assert (Hz : z ∈ filter (fun y => y = x) l) by (rewrite Hf; apply list_elem_of_here).
    apply list_elem_of_filter in Hz as [-> Hz]. done. }
  split; [|split; [|split]].
  - by rewrite (reconcilePair_known (reconcilePair g pair)) by apply reconcilePair_in.
  - rewrite !reconcileFallback_images.
    destruct (bool_decide (imgPath ∈ generatedImages g)) eqn:Hb.
    + by rewrite Hb.
    + rewrite bool_decide_eq_true_2; [done|]. apply elem_of_app. right.
      apply list_elem_of_here.
  - destruct (decide (image pair ∈ generatedImages g)) as [Hin|Hin].
    + rewrite reconcilePair_known by done. specialize (Hcount _ _ Hin). lia.
    + rewrite reconcilePair_new by done. rewrite filter_app, Hzero by done.
      rewrite filter_cons_True by done. done.
  - rewrite reconcileFallback_images. case_bool_decide as Hin.
    + specialize (Hcount _ _ Hin). lia.
    + rewrite filter_app, Hzero by done. rewrite filter_cons_True by done. done.
Qed.

(** ** The stream consumer *)

(** Case analysis of a membership in a list built with [++], [::] and
    conditionals. *)
Ltac members H :=
  repeat match type of H with
  | _ ∈ _ ++ _ => apply elem_of_app in H as [H|H]
  | _ ∈ _ :: _ => apply elem_of_cons in H as [H|H]
  | _ ∈ [] => by apply elem_of_nil in H
  | _ ∈ (if ?b then _ else _) => destruct b
  | _ ∈ match ?x with _ => _ end => destruct x
  end.

Section Stream.
Context (toLowerCase : jsstring -> jsstring) (JSON_parse : jsstring -> option Json).

#[local] Abbreviation processFrame' := (processFrame toLowerCase JSON_parse).
#[local] Abbreviation consume' := (consume toLowerCase JSON_parse).
#[local] Abbreviation onDone' := (onDone toLowerCase JSON_parse).
#[local] Abbreviation processStreamResponse' := (processStreamResponse toLowerCase JSON_parse).

Lemma consume_snoc sid g frames data :
  consume' sid g (frames ++ [data]) = processFrame' (consume' sid g frames) data.
Proof. unfold consume. by rewrite fold_left_app. Qed.

Lemma handleStructuredResponse_message st response :
  assistantMessage (fst (handleStructuredResponse st response)) = assistantMessage st
  /\ messageElement (fst (handleStructuredResponse st response)) = messageElement st.
Proof.
  unfold handleStructuredResponse.
  destruct (getField (js "text") response) as [[[]|]|]; try done.
  by repeat case_match.
Qed.

Lemma onDone_message st :
  assistantMessage (onDone' st) = assistantMessage st
  /\ messageElement (onDone' st) = messageElement st.
Proof.
  unfold onDone.
  destruct (parseStructuredResponse JSON_parse (assistantMessage st)) as [r|].
  - destruct (handleStructuredResponse_message st r) as [Hm He].
    by destruct (snd (handleStructuredResponse st r)).
  - done.
Qed.

(** The buffer is the concatenation of the text frames read so far. *)
Lemma consume_message sid g frames :
  assistantMessage (consume' sid g frames) = textOf frames.
Proof.
  induction frames as [|data frames IH] using rev_ind; [done|].
  rewrite consume_snoc. unfold textOf in *. rewrite flat_map_app. simpl.
  rewrite app_nil_r, <- IH.
  destruct data; simpl; try by rewrite ?app_nil_r.
  rewrite app_nil_r. apply onDone_message.
Qed.

Lemma consume_element sid g frames :
  textOf frames <> [] -> messageElement (consume' sid g frames) = true.
Proof.
  induction frames as [|data frames IH] using rev_ind; [done|].
  rewrite consume_snoc. unfold textOf in *. rewrite flat_map_app. simpl.
  rewrite app_nil_r. intros Hne.
  destruct data; simpl in *; rewrite ?app_nil_r in Hne; auto.
  destruct (onDone_message (consume' sid g frames)) as [_ ->]. auto.
Qed.

(** A frame other than [done] leaves the gallery alone and calls no
    extraction. *)
Lemma processFrame_quiet st data :
  data <> FDone ->
  gallery (processFrame' st data) = gallery st
  /\ forall text, ParseAssistantResponse text ∈ effects (processFrame' st data) ->
                  ParseAssistantResponse text ∈ effects st.
Proof.
  intros Hd. destruct data; try done; simpl; split; try done.
  intros text Hin. rewrite !elem_of_app in Hin.
  destruct Hin as [Hin|[Hin|Hin]]; [done| |].
  - destruct (firstContentReceived st); [by apply elem_of_nil in Hin|].
    by apply list_elem_of_singleton in Hin.
  - by apply list_elem_of_singleton in Hin.
Qed.

Lemma consume_quiet sid g frames :
  FDone ∉ frames ->
  gallery (consume' sid g frames) = g
  /\ forall text, ParseAssistantResponse text ∉ effects (consume' sid g frames).
Proof.
  induction frames as [|data frames IH] using rev_ind; intros Hd.
  - split; [done|]. intros text Hin. by apply elem_of_nil in Hin.
  - rewrite consume_snoc.
    assert (Hdata : data <> FDone).
    { intros ->. apply Hd, elem_of_app. right. apply list_elem_of_here. }
    assert (Hfr : FDone ∉ frames).
    { intros Hin. apply Hd, elem_of_app. by left. }
    destruct (IH Hfr) as [Hg He].
    destruct (processFrame_quiet (consume' sid g frames) data Hdata) as [Hg' He'].
    split; [congruence|]. intros text Hin. by apply (He text), He'.
Qed.

Lemma atDone_snoc frames data text :
  atDone JSON_parse frames text -> atDone JSON_parse (frames ++ [data]) text.
Proof.
  intros (pre & post & -> & H). exists pre, (post ++ [data]).
  split; [by rewrite <- app_assoc|done].
Qed.

(** What the handler of an envelope calls. *)
Lemma handleStructuredResponse_calls st r e :
  e ∈ effects (fst (handleStructuredResponse st r)) ->
  e ∈ effects st
  \/ e = HandleStructuredResponse r
  \/ (exists text, getField (js "text") r = Some (Some (JString text))
        /\ (e = UpdateMessage text \/ e = ParseAssistantResponse text
            \/ e = UpdateRightPanel text
            \/ (e = RenderStructuredChoiceButtons r
                /\ hasChoices r = Some true)))
  \/ (exists v, getField (js "text") r = Some v
        /\ (e = UpdateMessageOther v \/ e = ParseAssistantResponseOther v)).
Proof.
  unfold handleStructuredResponse.
  destruct (getField (js "text") r) as [[[| | |t| |]|]|] eqn:Hf;
    try (cbn [fst effects]; intros Hin; members Hin; subst; eauto 8; fail).
  destruct (hasChoices r) as [[]|] eqn:Hh; [destruct (messageElement st) eqn:Hel| |];
    cbn [fst effects]; intros Hin; members Hin; subst; eauto 10.
Qed.

(** What the [done] branch calls. *)
Lemma onDone_calls st e :
  e ∈ effects (onDone' st) ->
  e ∈ effects st
  \/ e = SaveMessagesToStorage
  \/ (exists r,
        parseStructuredResponse JSON_parse (assistantMessage st) = Some r
        /\ e ∈ effects (fst (handleStructuredResponse st r)))
  \/ (parseStructuredResponse JSON_parse (assistantMessage st) = None
      /\ (e = ParseAssistantResponse (assistantMessage st)
          \/ e = UpdateRightPanel (assistantMessage st)
          \/ (messageElement st = true
              /\ (e = DetectChoicesInMessage (assistantMessage st)
                  \/ (e = RenderChoiceButtons
                             (detectChoicesInMessage toLowerCase (assistantMessage st))
                      /\ (0 <? length (detectChoicesInMessage toLowerCase
                                         (assistantMessage st))) = true))))).
Proof.
  unfold onDone.
  destruct (parseStructuredResponse JSON_parse (assistantMessage st)) as [r|] eqn:Hp.
  - destruct (snd (handleStructuredResponse st r)); cbn [effects]; intros Hin.
    + apply elem_of_app in Hin as [Hin|Hin]; [eauto 6|].
      apply list_elem_of_singleton in Hin. auto.
    + eauto 6.
  - cbn [fst snd effects]. intros Hin.
    destruct (messageElement st) eqn:Hel;
      [destruct (0 <? length (detectChoicesInMessage toLowerCase (assistantMessage st)))
         eqn:Hlen|];
      members Hin; subst; auto 10.
Qed.

Lemma onDone_effects st text :
  ParseAssistantResponse text ∈ effects (onDone' st) ->
  ParseAssistantResponse text ∈ effects st
  \/ text = assistantMessage st
  \/ exists response,
       parseStructuredResponse JSON_parse (assistantMessage st) = Some response
       /\ getField (js "text") response = Some (Some (JString text)).
Proof.
  intros Hin.
  apply onDone_calls in Hin
    as [Hin|[Hin|[(r & Hp & Hin)|(Hp & [Hin|[Hin|(_ & [Hin|[Hin _]])]])]]];
    try done; auto.
  - apply handleStructuredResponse_calls in Hin
      as [Hin|[Hin|[(t & Hf & [Hin|[Hin|[Hin|[Hin _]]]])|(v & _ & [Hin|Hin])]]];
      try done; auto.
    injection Hin as ->. right. right. by exists r.
  - injection Hin as ->. auto.
Qed.

Lemma consume_atDone sid g frames text :
  ParseAssistantResponse text ∈ effects (consume' sid g frames) ->
  atDone JSON_parse frames text.
Proof.
  induction frames as [|data frames IH] using rev_ind; intros Hin.
  - by apply elem_of_nil in Hin.
  - rewrite consume_snoc in Hin.
    assert (data = FDone \/ data <> FDone) as [->|Hd]
      by (destruct data; auto; by right).
    + simpl in Hin. apply onDone_effects in Hin as [Hin|Hin].
      * by apply atDone_snoc, IH.
      * rewrite consume_message in Hin. by exists frames, [].
    + apply processFrame_quiet in Hin; [|done]. by apply atDone_snoc, IH.
Qed.

Lemma processStreamResponse_effects sid g frames ending text :
  ParseAssistantResponse text ∈ effects (processStreamResponse' sid g frames ending) ->
  ParseAssistantResponse text ∈ effects (consume' sid g frames).
Proof.
  unfold processStreamResponse. destruct ending; [|done].
  destruct (firstContentReceived _); [done|]. simpl.
  intros Hin. apply elem_of_app in Hin as [Hin|Hin]; [done|].
  by apply list_elem_of_singleton in Hin.
Qed.

Lemma processStreamResponse_gallery sid g frames ending :
  gallery (processStreamResponse' sid g frames ending)
  = gallery (consume' sid g frames).
Proof.
  unfold processStreamResponse. destruct ending; [|done].
  by destruct (firstContentReceived _).
Qed.

(** When the structured parser returns null and a message element
    exists, the [done] branch runs the text-based detector on the buffer. *)
Lemma onDone_detects st :
  parseStructuredResponse JSON_parse (assistantMessage st) = None ->
  messageElement st = true ->
  DetectChoicesInMessage (assistantMessage st) ∈ effects (onDone' st).
Proof.
  intros Hnull Hel. unfold onDone. rewrite Hnull, Hel. cbn [fst snd effects].
  rewrite !elem_of_app, !elem_of_cons. left. right. right. by left.
Qed.

(** The call of [parseAssistantResponse] on a [text] that is no string:
    only at a [done] frame, on the [text] of the envelope parsed from the
    buffer. *)
Lemma onDone_other st v :
  ParseAssistantResponseOther v ∈ effects (onDone' st) ->
  ParseAssistantResponseOther v ∈ effects st
  \/ exists response,
       parseStructuredResponse JSON_parse (assistantMessage st) = Some response
       /\ getField (js "text") response = Some v.
Proof.
  intros Hin.
  apply onDone_calls in Hin
    as [Hin|[Hin|[(r & Hp & Hin)|(Hp & [Hin|[Hin|(_ & [Hin|[Hin _]])]])]]];
    try done; auto.
  apply handleStructuredResponse_calls in Hin
    as [Hin|[Hin|[(t & Hf & [Hin|[Hin|[Hin|[Hin _]]]])|(w & Hf & [Hin|Hin])]]];
    try done; auto.
  injection Hin as ->. right. by exists r.
Qed.

Lemma consume_other sid g frames v :
  ParseAssistantResponseOther v ∈ effects (consume' sid g frames) ->
  exists pre post response,
    frames = pre ++ FDone :: post
    /\ parseStructuredResponse JSON_parse (textOf pre) = Some response
    /\ getField (js "text") response = Some v.
Proof.
  induction frames as [|data frames IH] using rev_ind; intros Hin.
  - by apply elem_of_nil in Hin.
  - rewrite consume_snoc in Hin.
    assert (Hnext : ParseAssistantResponseOther v ∈ effects (consume' sid g frames) ->
              exists pre post response,
                frames ++ [data] = pre ++ FDone :: post
                /\ parseStructuredResponse JSON_parse (textOf pre) = Some response
                /\ getField (js "text") response = Some v).
    { intros H. destruct (IH H) as (pre & post & r & -> & Hr).
      exists pre, (post ++ [data]), r. split; [by rewrite <- app_assoc|done]. }
    destruct data; simpl in Hin; auto.
    + members Hin; auto; done.
    + apply onDone_other in Hin as [Hin|(r & Hp & Hf)]; [auto|].
      rewrite consume_message in Hp. by exists frames, [], r.
Qed.

Lemma processStreamResponse_other sid g frames ending v :
  ParseAssistantResponseOther v
  ∈ effects (processStreamResponse' sid g frames ending) ->
  ParseAssistantResponseOther v ∈ effects (consume' sid g frames).
Proof.
  unfold processStreamResponse. destruct ending; [|done].
  destruct (firstContentReceived _); [done|]. simpl.
  intros Hin. apply elem_of_app in Hin as [Hin|Hin]; [done|].
  by apply list_elem_of_singleton in Hin.
Qed.

(** C9.  If the stream ends or is aborted before a [done] frame, the
    gallery ([generatedImages] and [generatedImagesMeta]) is what it was
    before the response and no extraction is called; and on any stream an
    extraction is called only at a [done] frame, on the buffer read up to
    that frame (or on the text of the envelope parsed from it).  The same
    holds of the call of [parseAssistantResponse] on a [text] that is no
    string, which throws before it reaches the gallery: none before a
    [done] frame, and on any stream only at a [done] frame, on the [text]
    of the envelope parsed from the buffer. *)
Theorem no_extraction_before_done (sid : option jsstring) (g : Gallery)
    (frames : list Frame) (ending : Ending) :
  FDone ∉ frames ->
  gallery (processStreamResponse' sid g frames ending) = g
  /\ (forall text,
        ParseAssistantResponse text
        ∉ effects (processStreamResponse' sid g frames ending))
  /\ (forall frames' text,
        ParseAssistantResponse text
        ∈ effects (processStreamResponse' sid g frames' ending) ->
        atDone JSON_parse frames' text)
  /\ (forall text,
        ParseAssistantResponseOther text
        ∉ effects (processStreamResponse' sid g frames ending))
  /\ (forall frames' text,
        ParseAssistantResponseOther text
        ∈ effects (processStreamResponse' sid g frames' ending) ->
        exists pre post response,
          frames' = pre ++ FDone :: post
          /\ parseStructuredResponse JSON_parse (textOf pre) = Some response
          /\ getField (js "text") response = Some text).
Proof.
  intros Hd. destruct (consume_quiet sid g frames Hd) as [Hg He].
  split; [by rewrite processStreamResponse_gallery|]. split; [|split; [|split]].
  - intros text Hin. apply processStreamResponse_effects in Hin. by apply (He text).
  - intros frames' text Hin. eapply consume_atDone.
    by eapply processStreamResponse_effects.
  - intros text Hin.
    apply processStreamResponse_other, consume_other in Hin
      as (pre & post & _ & -> & _).
    apply Hd, elem_of_app. right. apply list_elem_of_here.
  - intros frames' text Hin. eapply consume_other.
    by eapply processStreamResponse_other.
Qed.

(** C8.  On the truncated envelope none of the three strategies of the
    structured parser applies (the buffer does not end with a brace and
    neither embedded pattern matches), the parser returns null, and a
    stream that delivers this buffer and then [done] runs the text-based
    choice detector on the raw buffer. *)
Theorem truncated_envelope_falls_back (sid : option jsstring) (g : Gallery)
    (frames : list Frame) (ending : Ending) :
  FDone ∉ frames ->
  textOf frames = truncatedEnvelope ->
  startsWith (trim truncatedEnvelope) (js "{")
    && endsWith (trim truncatedEnvelope) (js "}") = false
  /\ Regex.matchG jsonPattern truncatedEnvelope = None
  /\ Regex.matchG complexJsonPattern truncatedEnvelope = None
  /\ parseStructuredResponse JSON_parse truncatedEnvelope = None
  /\ DetectChoicesInMessage truncatedEnvelope
     ∈ effects (processStreamResponse' sid g (frames ++ [FDone]) ending).
Proof.
  intros Hd Htext.
  assert (Hnull : parseStructuredResponse JSON_parse truncatedEnvelope = None)
    by (by vm_compute).
  split; [by vm_compute|]. split; [by vm_compute|].
  split; [by vm_compute|]. split; [done|].
  pose proof (onDone_detects (consume' sid g frames)) as Hin.
  rewrite consume_message, Htext in Hin.
  specialize (Hin Hnull (consume_element sid g frames ltac:(by rewrite Htext))).
  unfold processStreamResponse. rewrite consume_snoc.
  change (processFrame' (consume' sid g frames) FDone)
    with (onDone' (consume' sid g frames)).
  destruct ending; [|exact Hin].
  destruct (firstContentReceived _); [exact Hin|].
  cbn [effects]. apply elem_of_app. left. exact Hin.
Qed.

End Stream.

Lemma no_extraction_before_done_witness :
  gallery (processStreamResponse asciiLower (fun _ => None) None helloGallery
             [FSession (js "s1"); FText (js "Here is /generated/b.png"); FOther]
             Aborted)
  = helloGallery.
Proof.
  apply (no_extraction_before_done asciiLower (fun _ => None) None helloGallery
           [FSession (js "s1"); FText (js "Here is /generated/b.png"); FOther]
           Aborted).
  intros Hin. repeat (apply elem_of_cons in Hin as [Hin|Hin]; [done|]).
  by apply elem_of_nil in Hin.
Defined.

Lemma truncated_envelope_falls_back_witness :
  DetectChoicesInMessage truncatedEnvelope
  ∈ effects (processStreamResponse asciiLower (fun _ => None) None emptyGallery
               ([FText (jsq "{'text': 'Pick one', "); FOther;
                 FText (jsq "'has_choices': true, 'choices': [")] ++ [FDone])
               EndOfInput).
Proof.
  apply (truncated_envelope_falls_back asciiLower (fun _ => None) None emptyGallery
           [FText (jsq "{'text': 'Pick one', "); FOther;
            FText (jsq "'has_choices': true, 'choices': [")] EndOfInput).
  - intros Hin. repeat (apply elem_of_cons in Hin as [Hin|Hin]; [done|]).
    by apply elem_of_nil in Hin.
  - by vm_compute.
Defined.

(** ** The choice detector *)

Section Choices.
Context (toLowerCase : jsstring -> jsstring).

#[local] Abbreviation seenOk' := (seenOk toLowerCase).
#[local] Abbreviation labels' := (labels toLowerCase).

Lemma addChoice_ok st c : seenOk' st -> seenOk' (addChoice toLowerCase st c).
Proof.
  destruct st as [choices seenLabels]. intros [Hnd Hseen]. unfold addChoice.
  case_bool_decide as Hin; [by split|]. split; simpl in *.
  - unfold labels. rewrite map_app. apply NoDup_app. split; [done|]. split.
    + intros x Hx Hx'. apply list_elem_of_singleton in Hx'. subst x.
      by apply Hin, Hseen.
    + apply NoDup_singleton.
  - intros x. unfold labels. rewrite map_app, elem_of_app, elem_of_union.
    rewrite elem_of_singleton, Hseen. simpl. rewrite list_elem_of_singleton.
    tauto.
Qed.

Lemma fold_ok {A : Type} (f : Seen -> A -> Seen) (l : list A) :
  (forall st a, seenOk' st -> seenOk' (f st a)) ->
  forall st, seenOk' st -> seenOk' (fold_left f l st).
Proof.
  intros Hf. induction l as [|a l IH]; intros st Hst; simpl; [done|].
  by apply IH, Hf.
Qed.

Lemma detected_ok text : seenOk' (detected toLowerCase text).
Proof.
  unfold detected.
  repeat apply fold_ok.
  - intros st m Hst. unfold bulletOptions. apply fold_ok; [|done].
    intros st' bm Hst'. unfold bulletOption.
    repeat case_match; auto using addChoice_ok.
  - intros st m Hst. unfold inlineOptions. apply fold_ok; [|done].
    intros st' opt Hst'. unfold inlineOption.
    repeat case_match; auto using addChoice_ok.
  - intros st m Hst. by apply addChoice_ok.
  - intros st m Hst. by apply addChoice_ok.
  - split; simpl; [apply NoDup_nil_2|]. intros x. unfold labels. simpl.
    rewrite elem_of_nil. set_solver.
Qed.

(** C3.  The candidates the four patterns collect have pairwise distinct
    lower-cased labels; the detector returns them when there are 2 to 8,
    and the empty list when there are 0, 1 or more than 8; so its result
    is empty or has 2 to 8 choices with case-insensitively distinct
    labels. *)
Theorem choice_bounds (text : jsstring) :
  let candidates := fst (detected toLowerCase text) in
  let result := detectChoicesInMessage toLowerCase text in
  NoDup (labels' candidates)
  /\ (result = []
      \/ (2 <= length result <= 8 /\ NoDup (labels' result)))
  /\ result
     = (if (2 <=? length candidates) && (length candidates <=? 8)
        then candidates else [])
  /\ length result
     = (if (2 <=? length candidates) && (length candidates <=? 8)
        then length candidates else 0).
Proof.
  intros candidates result.
  destruct (detected_ok text) as [Hnd _]. fold candidates in Hnd.
  split; [done|]. unfold result, detectChoicesInMessage. fold candidates.
  destruct ((2 <=? length candidates) && (length candidates <=? 8)) eqn:Hb.
  - apply andb_true_iff in Hb as [H2 H8].
    apply Nat.leb_le in H2, H8. split; [right; split; [lia|done]|done].
  - split; [by left|done].
Qed.

End Choices.

(** One candidate and nine distinct candidates give no choice; three
    distinct candidates (one offered twice in different case) give three. *)
Lemma choice_bounds_examples :
  length (fst (detected asciiLower oneOption)) = 1
  /\ detectChoicesInMessage asciiLower oneOption = []
  /\ length (fst (detected asciiLower nineOptions)) = 9
  /\ detectChoicesInMessage asciiLower nineOptions = []
  /\ map label (detectChoicesInMessage asciiLower threeOptions)
     = [js "yes"; js "Tweak something"; js "skip"].
Proof. repeat split; by vm_compute. Qed.

(** ** The order of the strategies *)

Lemma whenEmpty_nil block : whenEmpty block [] = block [].
Proof. done. Qed.

Lemma whenEmpty_cons block p pairs : whenEmpty block (p :: pairs) = p :: pairs.
Proof. done. Qed.

Lemma extract_firstYield text :
  extractImageCaptionPairs text = firstYield (strategies text).
Proof.
  unfold extractImageCaptionPairs, strategies.
  destruct (captionedLoop campaignPostPattern 1500 text []); [|done].
  rewrite whenEmpty_nil.
  destruct (carouselPairs text []); [|done]. rewrite whenEmpty_nil.
  destruct (slidePairs text []); [|done]. rewrite whenEmpty_nil.
  destruct (captionedLoop structuredPattern 1000 text []); [|done].
  rewrite whenEmpty_nil.
  destruct (captionedLoop singlePostPattern 1000 text []); [|done].
  rewrite whenEmpty_nil.
  by destruct (captionedLoop genericPattern 500 text []).
Qed.

(** C6.  When the labeled-post pattern yields a tuple the extractor
    returns the tuples of that pattern only, whatever the generic
    proximity pattern (or any other) would yield; in general the result is
    that of the first strategy, in the order of the source, that yields
    at least one tuple. *)
Theorem strategy_precedence (text : jsstring) :
  captionedLoop campaignPostPattern 1500 text [] <> [] ->
  extractImageCaptionPairs text = captionedLoop campaignPostPattern 1500 text []
  /\ forall text', extractImageCaptionPairs text' = firstYield (strategies text').
Proof.
  intros Hne. split; [|apply extract_firstYield].
  rewrite extract_firstYield. unfold strategies. simpl.
  by destruct (captionedLoop campaignPostPattern 1500 text []).
Qed.

Lemma strategy_precedence_witness :
  extractImageCaptionPairs teaserAndPost
  = [MkPair (js "/generated/p1.png") (js "Hello world") [js "#a"; js "#b"]]
  /\ map image (captionedLoop genericPattern 500 teaserAndPost [])
     = [js "/generated/x.png"; js "/generated/p1.png"].
Proof.
  split; [|by vm_compute].
  destruct (strategy_precedence teaserAndPost) as [-> _]; by vm_compute.
Defined.

(** ** The media reference normalizer *)

Lemma startsWith_app s p : startsWith s p = true -> exists rest, s = p ++ rest.
Proof.
  revert s. induction p as [|c p IH]; intros s H; simpl in H.
  - by exists s.
  - destruct s as [|d s]; [done|]. apply andb_true_iff in H as [Hc Hp].
    apply N.eqb_eq in Hc as ->. destruct (IH _ Hp) as [rest ->]. by exists rest.
Qed.

Lemma test_found re inp :
  Regex.test re inp = true -> exists m, Regex.found re inp 0 m.
Proof.
  unfold Regex.test, Regex.match1. intros H. apply bool_decide_eq_true in H as [m Hm].
  exists m. by apply RegexFacts.exec_sound.
Qed.

(** Folding the input onto a lower-case letter, a digit or the dot of a
    pattern. *)
Lemma canon_lowerChar x c :
  Regex.canon true x = Regex.canon true c ->
  isLower c = true \/ isDigit c = true \/ c = 46%N ->
  lowerChar x = c.
Proof.
  unfold Regex.canon, lowerChar, isLower, isUpper, isDigit. simpl.
  intros Hx Hc.
  repeat match goal with
  | H : context [(?a <=? ?b)%N] |- _ => destruct (N.leb_spec a b); simpl in H
  | |- context [(?a <=? ?b)%N] => destruct (N.leb_spec a b); simpl
  end; lia.
Qed.

(** The code units after position [i] when the input ends there. *)
Lemma drop_lookup_last (p : jsstring) i x :
  p !! i = Some x -> drop i p = x :: drop (S i) p.
Proof. intros H. by apply drop_S. Qed.

(** A match of the final validation pattern [\.(png|...|mov)$] with the
    [i] flag ends the path with a dot and an extension up to case. *)
Lemma mediaExtension_suffix (p : jsstring) m :
  Regex.found mediaExtension p 0 m ->
  exists ext, drop (Regex.m_index m) p = 46%N :: ext
              /\ map lowerChar ext ∈ extensions.
Proof.
  intros (_ & _ & _ & Hm). simpl in Hm.
  destruct Hm as (k & (x0 & Hx0 & Hc0 & ->) & k' & Halt & _ & Hend).
  rewrite orb_false_r in Hend. apply Nat.eqb_eq in Hend.
  apply canon_lowerChar in Hc0; [|auto].
  assert (x0 = 46%N) as ->.
  { revert Hc0. unfold lowerChar, isUpper.
    repeat match goal with
    | |- context [(?a <=? ?b)%N] => destruct (N.leb_spec a b); simpl
    end; lia. }
  rewrite (drop_lookup_last _ _ _ Hx0).
  repeat match goal with
  | H : _ \/ _ |- _ => destruct H as [H|H]
  end;
  repeat match goal with
  | H : exists _, _ |- _ => destruct H as (? & H)
  | H : _ /\ _ |- _ => destruct H as (? & H)
  end; subst;
  repeat match goal with
  | H : p !! _ = Some _ |- _ =>
      rewrite (drop_lookup_last _ _ _ H); clear H
  | H : Regex.canon true _ = Regex.canon true _ |- _ =>
      apply canon_lowerChar in H; [|by auto]
  end;
  rewrite (drop_ge p) by lia;
  eexists; (split; [reflexivity|]); simpl;
  repeat match goal with H : lowerChar _ = _ |- _ => rewrite H; clear H end;
  unfold extensions; rewrite !elem_of_cons; tauto.
Qed.

Lemma sanitize_grammar (imagePath path : jsstring) :
  sanitizeImagePath imagePath = Some path -> MediaGrammar true path.
Proof.
  unfold sanitizeImagePath. destruct imagePath as [|c rest]; [done|].
  match goal with
  | |- context [startsWith ?q _] => generalize q
  end.
  intros p.
  destruct (startsWith p (js "/generated/")) eqn:Hpre; [|done].
  destruct (Regex.test mediaExtension p) eqn:Hext; [|done].
  simpl. intros [= <-].
  apply startsWith_app in Hpre as [tail ->].
  apply test_found in Hext as [m Hm].
  pose proof Hm as (_ & _ & Hlen & _).
  apply mediaExtension_suffix in Hm as (ext & Hdrop & Hin).
  set (i := Regex.m_index m) in *.
  assert (Hi : 11 <= i).
  { assert (Hl : (js "/generated/" ++ tail) !! i = Some 46%N).
    { rewrite <- (take_drop i (js "/generated/" ++ tail)) at 1. rewrite Hdrop.
      rewrite lookup_app_r by (rewrite length_take; lia).
      rewrite length_take.
      assert (Hlt : i < length (js "/generated/" ++ tail)).
      { destruct (decide (i < length (js "/generated/" ++ tail))); [done|].
        rewrite drop_ge in Hdrop by lia. done. }
      by replace (i - i `min` length (js "/generated/" ++ tail)) with 0 by lia. }
    destruct (decide (11 <= i)); [done|].
    do 11 (destruct i as [|i]; [by vm_compute in Hl|]). lia. }
  exists (take (i - 11) tail), ext. split; [|done].
  rewrite <- (take_drop i (js "/generated/" ++ tail)) at 1. rewrite Hdrop.
  rewrite take_app_ge by done.
  change (length (js "/generated/")) with 11. by rewrite <- app_assoc.
Qed.

(** *** What [parseAssistantResponse] stores *)

Section MetaInvariant.
Context (K : list N -> Prop) (T : list jsstring -> Prop).
Hypothesis Hkey : forall imagePath k, sanitizeImagePath imagePath = Some k -> K k.
Hypothesis Hnil : T [].
Hypothesis Htags : forall s, T (hashtagsOf s).
Hypothesis Hpairs : forall text pair,
  pair ∈ extractImageCaptionPairs text -> T (hashtags pair).

Lemma storeMeta_allMeta g path caption hashtags :
  allMeta K T g -> K path -> T hashtags ->
  allMeta K T (storeMeta g path caption hashtags).
Proof.
  intros [Hg Hc] Hp Hh. split; [|done].
  intros k m. simpl. destruct (decide (path = k)) as [->|Hne].
  - rewrite lookup_insert_eq. by intros [= <-].
  - rewrite lookup_insert_ne by done. apply Hg.
Qed.

Lemma insertCard_allMeta g path :
  allMeta K T g -> K path -> allMeta K T (insertCard g path).
Proof. intros [Hg Hc] Hp. split; [done|]. by constructor. Qed.

Lemma addImageToGalleryWithCaption_allMeta g imagePath caption hashtags :
  allMeta K T g -> T hashtags ->
  allMeta K T (addImageToGalleryWithCaption g imagePath caption hashtags).
Proof.
  intros Hg Hh. unfold addImageToGalleryWithCaption.
  destruct (sanitizeImagePath imagePath) as [p|] eqn:Hs; [|done].
  apply insertCard_allMeta, (Hkey _ _ Hs).
  by apply storeMeta_allMeta; [|apply (Hkey _ _ Hs)|].
Qed.

Lemma updateGalleryCardWithCaption_allMeta g imagePath caption hashtags :
  allMeta K T g -> T hashtags ->
  allMeta K T (updateGalleryCardWithCaption g imagePath caption hashtags).
Proof.
  intros Hg Hh. unfold updateGalleryCardWithCaption.
  destruct (sanitizeImagePath imagePath) as [p|] eqn:Hs; [|done].
  by apply storeMeta_allMeta; [|apply (Hkey _ _ Hs)|].
Qed.

Lemma addImageToGallery_allMeta g imagePath :
  allMeta K T g -> allMeta K T (addImageToGallery g imagePath).
Proof.
  intros Hg. unfold addImageToGallery.
  destruct (sanitizeImagePath imagePath) as [p|] eqn:Hs; [|done].
  apply insertCard_allMeta, (Hkey _ _ Hs). done.
Qed.

Lemma push_allMeta g x : allMeta K T g -> allMeta K T (push g x).
Proof. done. Qed.

Lemma reconcilePair_allMeta g pair :
  allMeta K T g -> T (hashtags pair) -> allMeta K T (reconcilePair g pair).
Proof.
  intros Hg Hh. unfold reconcilePair.
  repeat case_match; try done.
  - by apply updateGalleryCardWithCaption_allMeta.
  - by apply addImageToGalleryWithCaption_allMeta.
Qed.

Lemma reconcileFallback_allMeta text g imgPath :
  allMeta K T g -> allMeta K T (reconcileFallback text g imgPath).
Proof.
  intros Hg. unfold reconcileFallback.
  repeat case_match; try done.
  - by apply addImageToGalleryWithCaption_allMeta.
  - by apply addImageToGallery_allMeta.
Qed.

Lemma reconcileVideo_allMeta g videoPath :
  allMeta K T g -> allMeta K T (reconcileVideo g videoPath).
Proof.
  intros Hg. unfold reconcileVideo.
  case_bool_decide; [done|].
  destruct (_ || _); [|by apply addImageToGallery_allMeta].
  apply (addImageToGalleryWithCaption_allMeta (push g videoPath)); [done|].
  destruct (lastImage (push g videoPath)) as [[|c l]|]; simpl; try done.
  destruct (generatedImagesMeta g !! (c :: l)) as [m|] eqn:Hm; simpl; [|done].
  by destruct (proj1 Hg _ _ Hm).
Qed.

Lemma fold_allMeta {A : Type} (f : Gallery -> A -> Gallery) (l : list A)
    (P : A -> Prop) :
  (forall g a, P a -> allMeta K T g -> allMeta K T (f g a)) ->
  Forall P l -> forall g, allMeta K T g -> allMeta K T (fold_left f l g).
Proof.
  intros Hf HP. induction HP as [|a l Ha HP IH]; intros g Hg; simpl; [done|].
  by apply IH, Hf.
Qed.

Lemma parse_allMeta g text :
  allMeta K T g -> allMeta K T (parseAssistantResponse g text).
Proof.
  intros Hg. unfold parseAssistantResponse.
  apply (fold_allMeta _ _ (fun _ => True));
    [intros; by apply reconcileVideo_allMeta|by apply Forall_true|].
  destruct (0 <? length (extractImageCaptionPairs text)).
  - apply (fold_allMeta _ _ (fun pair => T (hashtags pair))); [| |done].
    + intros; by apply reconcilePair_allMeta.
    + apply Forall_forall. intros pair Hin. by eapply Hpairs.
  - apply (fold_allMeta _ _ (fun _ => True)); [| by apply Forall_true|done].
    intros; by apply reconcileFallback_allMeta.
Qed.

End MetaInvariant.

(** C7 (as amended).  The normalizer returns null or a path
    [/generated/<token>.<ext>] whose extension is, up to the case of its
    letters, one of png, jpg, jpeg, gif, webp, mp4, webm, mov (the token
    is any sequence of code units); and [parseAssistantResponse] adds
    cards and metadata entries for such paths only. *)
Theorem sanitized_path_grammar (imagePath : jsstring) :
  (sanitizeImagePath imagePath = None
   \/ exists path, sanitizeImagePath imagePath = Some path
                   /\ MediaGrammar true path)
  /\ forall g text,
       allMeta (MediaGrammar true) (fun _ => True) g ->
       allMeta (MediaGrammar true) (fun _ => True) (parseAssistantResponse g text).
Proof.
  split.
  - destruct (sanitizeImagePath imagePath) as [path|] eqn:Hs; [|by left].
    right. exists path. split; [done|]. by eapply sanitize_grammar.
  - intros g text. apply parse_allMeta; try done. apply sanitize_grammar.
Qed.

Lemma sanitized_path_grammar_witness :
  allMeta (MediaGrammar true) (fun _ => True)
    (parseAssistantResponse emptyGallery carouselComplete).
Proof.
  apply (proj2 (sanitized_path_grammar [])). split; [|constructor].
  intros k m Hk. unfold emptyGallery in Hk. cbn [generatedImagesMeta] in Hk.
  by rewrite lookup_empty in Hk.
Defined.

(** C7, as stated, fails: the normalizer accepts [/generated/a.PNG], whose
    extension is none of the eight; and a reference that the normalizer
    rejects still enters [generatedImages], which receives the reference
    before it is normalized. *)
Lemma sanitize_accepts_upper_case :
  sanitizeImagePath (js "/generated/a.PNG") = Some (js "/generated/a.PNG")
  /\ ~ MediaGrammar false (js "/generated/a.PNG")
  /\ sanitizeImagePath (js "/static/x.png") = None
  /\ generatedImages (parseAssistantResponse emptyGallery foreignSlide)
     = [js "/static/x.png"].
Proof.
  split; [by vm_compute|]. split; [|split; by vm_compute].
  intros (token & ext & Heq & Hin).
  apply (f_equal reverse) in Heq. rewrite !reverse_app in Heq.
  unfold extensions in Hin. rewrite !elem_of_cons in Hin.
  repeat destruct Hin as [->|Hin]; try by vm_compute in Heq.
  by apply elem_of_nil in Hin.
Qed.

(** ** Hashtags *)

(** Case analysis on the comparisons of code units in a goal. *)
Ltac caseN :=
  cbn [andb orb negb xorb] in *;
  repeat match goal with
  | H : context [(?a <=? ?b)%N] |- _ =>
      destruct (N.leb_spec a b); cbn [andb orb negb xorb] in *
  | |- context [(?a <=? ?b)%N] =>
      destruct (N.leb_spec a b); cbn [andb orb negb xorb] in *
  | H : context [(?a =? ?b)%N] |- _ =>
      destruct (N.eqb_spec a b); cbn [andb orb negb xorb] in *
  | |- context [(?a =? ?b)%N] =>
      destruct (N.eqb_spec a b); cbn [andb orb negb xorb] in *
  end; try done; try lia.

Section Tokens.
Import Regex.

Lemma iter_class fl (inp : jsstring) neg items n : forall k j,
  iter (matches fl inp (Cls neg items)) n k j ->
  j = k + n
  /\ Forall (fun x => clsMatch (fignoreCase fl) neg items x = true)
            (take n (drop k inp)).
Proof.
  induction n as [|n IH]; simpl; intros k j H.
  - subst. rewrite take_0. split; [lia|constructor].
  - destruct H as (k' & (x & Hx & Hc & ->) & Hrest).
    apply IH in Hrest as (-> & HF). split; [lia|].
    rewrite (drop_S _ _ _ Hx). simpl. by constructor.
Qed.

Lemma class_alpha y :
  clsMatch false false [CRng 97 122; CRng 65 90] y = true -> isAlpha y = true.
Proof.
  unfold clsMatch, itemMatch, canon, inRange, isAlpha, isUpper, isLower.
  cbn [existsb]. intros H. caseN.
Qed.

Lemma class_word y :
  clsMatch false false [CRng 97 122; CRng 65 90; CRng 48 57; CChr 95] y = true ->
  isWord y = true.
Proof.
  unfold clsMatch, itemMatch, canon, inRange, isWord, isAlpha, isUpper, isLower,
    isDigit.
  cbn [existsb]. intros H. caseN.
Qed.

(** Every match of [/#[a-zA-Z][a-zA-Z0-9_]*/g] is a token of the
    grammar. *)
Lemma hashtag_found s from m :
  found hashtagTokens s from m -> isHashtagToken (whole s m) = true.
Proof.
  intros (_ & _ & _ & Hm). unfold hashtagTokens in Hm.
  cbn [rx rflags matches fignoreCase] in Hm.
  destruct Hm as (k & (x & Hx & Hc & ->) & k2 & (y & Hy & Hcy & ->)
                  & n & _ & _ & Hiter).
  apply (iter_class (rflags hashtagTokens) s false
           [CRng 97 122; CRng 65 90; CRng 48 57; CChr 95]) in Hiter
    as (Hend & HF).
  unfold whole, substring. rewrite Hend.
  replace (S (S (m_index m)) + n - m_index m) with (S (S n)) by lia.
  rewrite (drop_S _ _ _ Hx), (drop_S _ _ _ Hy). simpl.
  unfold canon in Hc. simpl in Hc. subst x.
  rewrite (class_alpha _ Hcy). simpl.
  apply forallb_forall. intros z Hz. apply list_elem_of_In in Hz.
  rewrite Forall_forall in HF. by apply class_word, HF.
Qed.

Lemma chain_occur re s ms : forall from,
  chain re s from ms -> occurFrom s from (map (whole s) ms).
Proof.
  induction ms as [|m ms IH]; intros from Hc; simpl; [done|].
  destruct Hc as [(Hfrom & Hij & Hj & _) Hc].
  assert (Hlen : length (whole s m) = m_end m - m_index m).
  { unfold whole, substring. rewrite length_take, length_drop. lia. }
  exists (m_index m). rewrite Hlen. split; [done|]. split; [done|].
  replace (m_index m + (m_end m - m_index m)) with (m_end m) by lia.
  by apply IH.
Qed.

Lemma occurFrom_take text n tags : forall from,
  occurFrom text from tags -> occurFrom text from (take n tags).
Proof.
  revert n. induction tags as [|t ts IH]; intros n from H.
  - by rewrite take_nil.
  - destruct n as [|n]; [done|]. simpl in *.
    destruct H as (i & Hi & Ht & Hrest). exists i. eauto.
Qed.

(** Occurrences in a slice are occurrences in the text. *)
Lemma occurFrom_slice text a b tags : forall from,
  occurFrom (slice text a b) from tags -> occurFrom text (a + from) tags.
Proof.
  unfold slice, substring.
  induction tags as [|t ts IH]; intros from H; simpl in *; [done|].
  destruct H as (i & Hi & Ht & Hrest).
  exists (a + i). split; [lia|]. split.
  - rewrite List.skipn_firstn_comm, take_take, drop_drop in Ht.
    assert (Hlen : length t <= b - a - i).
    { apply (f_equal length) in Ht. rewrite length_take in Ht. lia. }
    rewrite <- Ht at 2. f_equal. lia.
  - rewrite <- Nat.add_assoc. by apply IH.
Qed.

Lemma occurFrom_weaken text tags : forall a b,
  a <= b -> occurFrom text b tags -> occurFrom text a tags.
Proof.
  destruct tags as [|t ts]; simpl; [done|].
  intros a b Hab (i & Hi & H). exists i. split; [lia|done].
Qed.

Lemma hashtagsOf_eq s :
  hashtagsOf s = take 25 (map (whole s) (execAll hashtagTokens s)).
Proof.
  unfold hashtagsOf, matchG. by destruct (execAll hashtagTokens s).
Qed.

Lemma hashtagsOf_ok s : tagsOk s (hashtagsOf s).
Proof.
  rewrite hashtagsOf_eq. split; [|split].
  - rewrite length_take. lia.
  - apply Forall_take, Forall_fmap, Forall_forall. intros m Hm. simpl.
    eapply hashtag_found. by apply RegexFacts.execAll_found.
  - apply occurFrom_take. eapply chain_occur, RegexFacts.execAll_chain.
Qed.

Lemma hashtagsOf_slice_ok text a b : tagsOk text (hashtagsOf (slice text a b)).
Proof.
  destruct (hashtagsOf_ok (slice text a b)) as (Hlen & HF & Hocc).
  split; [done|]. split; [done|].
  apply occurFrom_slice in Hocc. eapply occurFrom_weaken; [|exact Hocc]. lia.
Qed.

Lemma tagsOk_nil text : tagsOk text [].
Proof. split; [simpl; lia|]. split; [constructor|done]. Qed.

End Tokens.

(** What a loop that pushes new pairs leaves in [pairs]. *)
Lemma pushNew_in pairs p q : q ∈ pushNew pairs p -> q ∈ pairs \/ q = p.
Proof.
  unfold pushNew. destruct (existsb _ pairs); [by left|].
  rewrite elem_of_app, list_elem_of_singleton. tauto.
Qed.

Lemma fold_pushNew_in {A : Type} (f : A -> Pair) (l : list A) : forall pairs q,
  q ∈ fold_left (fun pairs x => pushNew pairs (f x)) l pairs ->
  q ∈ pairs \/ exists x, x ∈ l /\ q = f x.
Proof.
  induction l as [|x l IH]; simpl; intros pairs q Hq; [by left|].
  apply IH in Hq as [Hq|(y & Hy & ->)].
  - apply pushNew_in in Hq as [Hq| ->]; [by left|].
    right. exists x. split; [apply list_elem_of_here|done].
  - right. exists y. split; [by apply list_elem_of_further|done].
Qed.

Lemma captionedLoop_tags pattern window text pair :
  pair ∈ captionedLoop pattern window text [] -> tagsOk text (hashtags pair).
Proof.
  unfold captionedLoop. intros H.
  apply (fold_pushNew_in (captionedPair window text)) in H as [H|(m & _ & ->)].
  - by apply elem_of_nil in H.
  - apply hashtagsOf_slice_ok.
Qed.

Lemma carouselPairs_tags text pair :
  pair ∈ carouselPairs text [] -> tagsOk text (hashtags pair).
Proof.
  unfold carouselPairs. destruct (isCarouselComplete text);
    [|intros H; by apply elem_of_nil in H].
  intros H.
  apply (fold_pushNew_in
           (fun imagePath => MkPair imagePath (sharedCaption text) (hashtagsOf text)))
    in H as [H|(m & _ & ->)].
  - by apply elem_of_nil in H.
  - apply hashtagsOf_ok.
Qed.

Lemma slidePairs_tags text pair :
  pair ∈ slidePairs text [] -> tagsOk text (hashtags pair).
Proof.
  unfold slidePairs. intros H.
  apply (fold_pushNew_in (slidePair text)) in H as [H|(m & _ & ->)].
  - by apply elem_of_nil in H.
  - apply tagsOk_nil.
Qed.

Lemma extract_tags text pair :
  pair ∈ extractImageCaptionPairs text -> tagsOk text (hashtags pair).
Proof.
  rewrite extract_firstYield. unfold strategies. simpl.
  destruct (captionedLoop campaignPostPattern 1500 text []) eqn:H1;
    [|rewrite <- H1; apply captionedLoop_tags].
  destruct (carouselPairs text []) eqn:H2;
    [|rewrite <- H2; apply carouselPairs_tags].
  destruct (slidePairs text []) eqn:H3;
    [|rewrite <- H3; apply slidePairs_tags].
  destruct (captionedLoop structuredPattern 1000 text []) eqn:H4;
    [|rewrite <- H4; apply captionedLoop_tags].
  destruct (captionedLoop singlePostPattern 1000 text []) eqn:H5;
    [|rewrite <- H5; apply captionedLoop_tags].
  destruct (captionedLoop genericPattern 500 text []) eqn:H6;
    [|rewrite <- H6; apply captionedLoop_tags].
  intros H. by apply elem_of_nil in H.
Qed.

Lemma tagsOk_short text tags : tagsOk text tags -> shortTokens tags.
Proof. intros (Hlen & HF & _). by split. Qed.

(** C5 (as amended).  The hashtags of every tuple the extractor returns,
    and those the fallback stores with a bare reference, are at most 25
    tokens, each matching [#[A-Za-z][A-Za-z0-9_]*], in the order in which
    they occur in the text, one occurrence after the other (a tag that
    occurs twice is kept twice); and if every stored list is at most 25
    such tokens, so is every list stored after [parseAssistantResponse]. *)
Theorem extracted_hashtags (text : jsstring) :
  (forall pair, pair ∈ extractImageCaptionPairs text ->
                tagsOk text (hashtags pair))
  /\ tagsOk text (hashtagsOf text)
  /\ forall g,
       allMeta (fun _ => True) shortTokens g ->
       allMeta (fun _ => True) shortTokens (parseAssistantResponse g text).
Proof.
  split; [apply extract_tags|]. split; [apply hashtagsOf_ok|].
  intros g. apply parse_allMeta; try done.
  - split; [simpl; lia|constructor].
  - intros s. eapply tagsOk_short, hashtagsOf_ok.
  - intros text' pair Hin. eapply tagsOk_short, extract_tags, Hin.
Qed.

Lemma extracted_hashtags_witness :
  tagsOk repeatedTag [js "#sale"; js "#now"; js "#sale"].
Proof.
  apply (proj1 (extracted_hashtags repeatedTag)
           (MkPair (js "/generated/a.png") (js "Big sale" ++ nl ++ js "#sale #now #sale")
              [js "#sale"; js "#now"; js "#sale"])).
  vm_compute. apply list_elem_of_here.
Defined.

(** C5, as stated, fails: duplicates are not removed. *)
Lemma hashtags_keep_duplicates :
  map hashtags (extractImageCaptionPairs repeatedTag)
  = [[js "#sale"; js "#now"; js "#sale"]]
  /\ ~ NoDup [js "#sale"; js "#now"; js "#sale"].
Proof.
  split; [by vm_compute|]. intros Hnd.
  apply NoDup_cons in Hnd as [Hnot _]. apply Hnot.
  apply list_elem_of_further, list_elem_of_here.
Qed.

(** ** Image references end in .png *)

Lemma includes_drop (s p : jsstring) k :
  startsWith (drop k s) p = true -> includes s p = true.
Proof.
  revert s. induction k as [|k IH]; intros s H.
  - rewrite drop_0 in H. destruct s; simpl in *; by rewrite H.
  - destruct s as [|c s]; simpl in *.
    + by rewrite H.
    + rewrite (IH s H). apply orb_true_r.
Qed.

Lemma canon_lowerChar_any b x c :
  Regex.canon b x = Regex.canon b c ->
  isLower c = true \/ isDigit c = true \/ c = 46%N ->
  lowerChar x = c.
Proof.
  destruct b; [apply canon_lowerChar|].
  unfold Regex.canon. simpl. intros -> Hc.
  unfold lowerChar, isLower, isUpper, isDigit in *. caseN.
Qed.

Lemma png_at (text : jsstring) b k x0 x1 x2 x3 :
  text !! k = Some x0 -> text !! S k = Some x1 ->
  text !! S (S k) = Some x2 -> text !! S (S (S k)) = Some x3 ->
  Regex.canon b x0 = Regex.canon b 46%N ->
  Regex.canon b x1 = Regex.canon b 112%N ->
  Regex.canon b x2 = Regex.canon b 110%N ->
  Regex.canon b x3 = Regex.canon b 103%N ->
  mentionsPng text = true.
Proof.
  intros H0 H1 H2 H3 C0 C1 C2 C3.
  apply canon_lowerChar_any in C0, C1, C2, C3; auto.
  unfold mentionsPng. apply (includes_drop _ _ k).
  rewrite <- fmap_drop.
  rewrite (drop_S _ _ _ H0), (drop_S _ _ _ H1), (drop_S _ _ _ H2),
    (drop_S _ _ _ H3).
  rewrite !fmap_cons, C0, C1, C2, C3.
  change (js ".png") with [46%N; 112%N; 110%N; 103%N]. reflexivity.
Qed.

(** In the hypotheses of a match, find the four code units of [.png]. *)
Ltac find_png :=
  match goal with
  | H0 : ?t !! ?k = Some ?x0, H1 : ?t !! S ?k = Some ?x1,
    H2 : ?t !! S (S ?k) = Some ?x2, H3 : ?t !! S (S (S ?k)) = Some ?x3,
    C0 : Regex.canon ?b ?x0 = Regex.canon ?b 46%N,
    C1 : Regex.canon ?b ?x1 = Regex.canon ?b 112%N,
    C2 : Regex.canon ?b ?x2 = Regex.canon ?b 110%N,
    C3 : Regex.canon ?b ?x3 = Regex.canon ?b 103%N |- _ =>
      exact (png_at t b k x0 x1 x2 x3 H0 H1 H2 H3 C0 C1 C2 C3)
  end.

Ltac open_match H :=
  simpl in H;
  repeat match goal with
  | H' : exists _, _ |- _ => destruct H' as (? & H')
  | H' : _ /\ _ |- _ => destruct H' as (? & H')
  | H' : _ \/ _ |- _ => destruct H' as [H'|H']
  end; subst.

(** A match of any of the image patterns shows [.png] in the text. *)
Lemma pngPatterns_png :
  Forall (fun re => forall text from m,
            Regex.found re text from m -> mentionsPng text = true)
         pngPatterns.
Proof.
  unfold pngPatterns, imagePatterns, patterns. cbn [app].
  repeat apply List.Forall_cons; try apply List.Forall_nil;
    intros text from m (_ & _ & _ & Hm); open_match Hm; find_png.
Qed.

Lemma execAll_nil re text :
  (forall from m, Regex.found re text from m -> mentionsPng text = true) ->
  mentionsPng text = false ->
  Regex.execAll re text = [].
Proof.
  intros Hpng Hno. destruct (Regex.execAll re text) as [|m ms] eqn:He; [done|].
  assert (Hm : m ∈ Regex.execAll re text) by (rewrite He; apply list_elem_of_here).
  apply RegexFacts.execAll_found, Hpng in Hm. congruence.
Qed.

Lemma pngPatterns_nil text re :
  mentionsPng text = false -> re ∈ pngPatterns -> Regex.execAll re text = [].
Proof.
  intros Hno Hin. apply execAll_nil; [|done].
  pose proof pngPatterns_png as HF. rewrite Forall_forall in HF.
  intros from m. by apply HF.
Qed.

Ltac png_member :=
  unfold pngPatterns, imagePatterns, patterns; cbn [app];
  rewrite !elem_of_cons; tauto.

Lemma captionedLoop_nil re window text :
  mentionsPng text = false -> re ∈ pngPatterns ->
  captionedLoop re window text [] = [].
Proof.
  intros Hno Hin. unfold captionedLoop. by rewrite (pngPatterns_nil text re).
Qed.

Lemma foundImages_nil text : mentionsPng text = false -> foundImages text = [].
Proof.
  intros Hno. unfold foundImages, imagePatterns. cbn [fold_left].
  rewrite !(pngPatterns_nil text) by (done || png_member). done.
Qed.

Lemma extract_nil text :
  mentionsPng text = false -> extractImageCaptionPairs text = [].
Proof.
  intros Hno. rewrite extract_firstYield. unfold strategies.
  rewrite !captionedLoop_nil by (done || png_member).
  unfold carouselPairs, slidePairs.
  rewrite foundImages_nil, (pngPatterns_nil text carouselSlidePattern)
    by (done || png_member).
  simpl. by destruct (isCarouselComplete text).
Qed.

Lemma allMatches_nil text : mentionsPng text = false -> allMatches text = [].
Proof.
  intros Hno. unfold allMatches, patterns, Regex.matchG. cbn [fold_left].
  rewrite !(pngPatterns_nil text) by (done || png_member). done.
Qed.

(** C10.  When the text holds no [.png] (in any case of the letters) and
    the video pattern finds nothing, [parseAssistantResponse] leaves the
    gallery as it was: a reference ending in .jpg, .jpeg, .gif or .webp
    yields no item, although the normalizer accepts such a path. *)
Theorem fallback_sees_png_only (g : Gallery) (text : jsstring) :
  mentionsPng text = false ->
  Regex.matchG videoPattern text = None ->
  extractImageCaptionPairs text = []
  /\ allMatches text = []
  /\ parseAssistantResponse g text = g
  /\ Forall (fun path => sanitizeImagePath path = Some path)
       [js "/generated/a.jpg"; js "/generated/a.jpeg"; js "/generated/a.gif";
        js "/generated/a.webp"].
Proof.
  intros Hno Hvideo. split; [by apply extract_nil|].
  split; [by apply allMatches_nil|]. split.
  - unfold parseAssistantResponse, videos.
    by rewrite extract_nil, allMatches_nil, Hvideo.
  - repeat constructor; by vm_compute.
Qed.

Lemma fallback_sees_png_only_witness :
  parseAssistantResponse helloGallery otherFormats = helloGallery.
Proof.
  apply (fallback_sees_png_only helloGallery otherFormats); by vm_compute.
Defined.

(** C10, as stated, fails: a text whose only reference is
    [/generated/a.jpg], with no [.png] reference and no video, yields a
    gallery item for it when the word [.png] follows inside the same
    parentheses.  The ninth pattern of the fallback matches from the
    opening parenthesis to the closing one, the candidate ends in [.png]
    and passes the test, and the normalizer cuts it down to
    [/generated/a.jpg]: the card shows the .jpg. *)
Lemma fallback_admits_jpg_in_parentheses :
  extractImageCaptionPairs jpgInParentheses = []
  /\ Regex.matchG videoPattern jpgInParentheses = None
  /\ allMatches jpgInParentheses = [js "/generated/a.jpg is not a .png"]
  /\ sanitizeImagePath (js "/generated/a.jpg is not a .png")
     = Some (js "/generated/a.jpg")
  /\ generatedImages (parseAssistantResponse emptyGallery jpgInParentheses)
     = [js "/generated/a.jpg is not a .png"]
  /\ contentGrid (parseAssistantResponse emptyGallery jpgInParentheses)
     = [js "/generated/a.jpg"].
Proof. repeat split; by vm_compute. Qed.

(** ** The carousel *)

Lemma setAdd_NoDup s x : NoDup s -> NoDup (setAdd s x).
Proof.
  intros Hnd. unfold setAdd. case_bool_decide as Hin; [done|].
  apply NoDup_app. split; [done|]. split; [|apply NoDup_singleton].
  intros y Hy Hy'. apply list_elem_of_singleton in Hy'. by subst.
Qed.

Lemma carouselImage_NoDup text found m :
  NoDup found -> NoDup (carouselImage text found m).
Proof.
  intros Hnd. unfold carouselImage.
  repeat case_match; auto using setAdd_NoDup.
Qed.

Lemma foundImages_NoDup text : NoDup (foundImages text).
Proof.
  unfold foundImages. generalize imagePatterns. intros res.
  assert (Hnil : NoDup (@nil jsstring)) by apply NoDup_nil_2.
  revert Hnil. generalize (@nil jsstring).
  induction res as [|re res IH]; intros found Hnd; simpl; [done|].
  apply IH. revert found Hnd.
  induction (Regex.execAll re text) as [|m ms IHm]; intros found Hnd; simpl;
    [done|].
  by apply IHm, carouselImage_NoDup.
Qed.

Lemma pushNew_fresh pairs p :
  image p ∉ map image pairs -> pushNew pairs p = pairs ++ [p].
Proof.
  intros Hfresh. unfold pushNew.
  destruct (existsb _ pairs) eqn:He; [|done].
  apply existsb_exists in He as (q & Hq & Heq).
  apply bool_decide_eq_true in Heq. exfalso. apply Hfresh.
  rewrite <- Heq. apply list_elem_of_fmap. exists q. split; [done|].
  by apply list_elem_of_In.
Qed.

Lemma fold_pushNew_fresh c h (l : list jsstring) : forall pairs,
  NoDup l -> (forall x, x ∈ l -> x ∉ map image pairs) ->
  fold_left (fun pairs imagePath => pushNew pairs (MkPair imagePath c h)) l pairs
  = pairs ++ map (fun imagePath => MkPair imagePath c h) l.
Proof.
  induction l as [|x l IH]; intros pairs Hnd Hfresh; simpl.
  - by rewrite app_nil_r.
  - apply NoDup_cons in Hnd as [Hx Hnd].
    rewrite pushNew_fresh by (apply Hfresh, list_elem_of_here).
    rewrite IH; [by rewrite <- app_assoc|done|].
    intros y Hy. rewrite map_app, elem_of_app. intros [Hin|Hin].
    + by apply (Hfresh y); [apply list_elem_of_further|].
    + simpl in Hin. apply list_elem_of_singleton in Hin. by subst.
Qed.

(** C4 (as amended).  When the labeled-post pattern finds nothing and the
    text holds the carousel marker, the extractor returns one tuple for
    each distinct image reference that the five carousel image patterns
    find, in the order found, every one with the same caption (the text
    after the first Caption label up to an emoji-marked Hashtags header,
    a rule, a What heading or the end of the text) and the same list of
    hashtags (the first 25 of the text). *)
Theorem carousel_shares_caption (text : jsstring) :
  captionedLoop campaignPostPattern 1500 text [] = [] ->
  isCarouselComplete text = true ->
  foundImages text <> [] ->
  extractImageCaptionPairs text
  = map (fun imagePath => MkPair imagePath (sharedCaption text) (hashtagsOf text))
        (foundImages text)
  /\ NoDup (foundImages text).
Proof.
  intros Hpost Hmark Hfound. split; [|apply foundImages_NoDup].
  rewrite extract_firstYield. unfold strategies. rewrite Hpost.
  unfold carouselPairs at 1. rewrite Hmark.
  rewrite fold_pushNew_fresh.
  - simpl. by destruct (foundImages text).
  - apply foundImages_NoDup.
  - intros x _ Hin. by apply elem_of_nil in Hin.
Qed.

Lemma carousel_shares_caption_witness :
  extractImageCaptionPairs carouselComplete
  = [MkPair (js "/generated/slide1.png") (js "Summer vibes") sixTagList;
     MkPair (js "/generated/slide2.png") (js "Summer vibes") sixTagList;
     MkPair (js "/generated/slide3.png") (js "Summer vibes") sixTagList].
Proof.
  destruct (carousel_shares_caption carouselComplete) as [-> _]; by vm_compute.
Defined.

(** C4, as stated, fails: with the caption and hashtag lines as the
    scenario words them the three tuples carry the quoted caption
    together with the hashtag line (without the quotes, the caption
    together with the hashtag line); and with plain link texts the
    extractor returns no tuple at all. *)
Lemma carousel_scenario_as_worded :
  map caption (extractImageCaptionPairs carouselAsWorded)
  = replicate 3 (jsq "'Summer vibes'" ++ nl ++ js "Hashtags: " ++ sixTags)
  /\ (js "Summer vibes"
      ∉ map caption (extractImageCaptionPairs carouselAsWorded))
  /\ map caption (extractImageCaptionPairs carouselUnquoted)
     = replicate 3 (js "Summer vibes" ++ nl ++ js "Hashtags: " ++ sixTags)
  /\ extractImageCaptionPairs carouselPlainLinks = [].
Proof.
  split; [by vm_compute|]. split; [|split; by vm_compute].
  intros Hin. apply list_elem_of_In in Hin. vm_compute in Hin.
  repeat destruct Hin as [Hin|Hin]; done.
Qed.

(** ** Sets in insertion order *)

Lemma setAdd_in s x y : y ∈ setAdd s x <-> y ∈ s \/ y = x.
Proof.
  unfold setAdd. case_bool_decide as Hin.
  - split; [by left|]. by intros [H| ->].
  - rewrite elem_of_app, list_elem_of_singleton. tauto.
Qed.

Lemma fold_setAdd_NoDup l : forall s, NoDup s -> NoDup (fold_left setAdd l s).
Proof.
  induction l as [|x l IH]; intros s Hnd; simpl; [done|].
  by apply IH, setAdd_NoDup.
Qed.

Lemma fold_setAdd_in l : forall s y,
  y ∈ fold_left setAdd l s <-> y ∈ s \/ y ∈ l.
Proof.
  induction l as [|x l IH]; intros s y; simpl.
  - rewrite elem_of_nil. tauto.
  - rewrite IH, setAdd_in, elem_of_cons. tauto.
Qed.

Lemma fold_setAdd_known l : forall s,
  (forall x, x ∈ l -> x ∈ s) -> fold_left setAdd l s = s.
Proof.
  induction l as [|x l IH]; intros s Hin; simpl; [done|].
  unfold setAdd at 2. rewrite bool_decide_eq_true_2 by apply Hin, list_elem_of_here.
  apply IH. intros y Hy. by apply Hin, list_elem_of_further.
Qed.

Lemma fold_setAdd_added l : forall s,
  exists added,
    fold_left setAdd l s = s ++ added
    /\ Forall (fun x => x ∈ l /\ x ∉ s) added.
Proof.
  induction l as [|x l IH]; intros s; simpl.
  - exists []. by rewrite app_nil_r.
  - destruct (IH (setAdd s x)) as (added & Heq & HF). rewrite Heq.
    unfold setAdd in *. case_bool_decide as Hin.
    + exists added. split; [done|]. eapply Forall_impl; [exact HF|].
      intros y [Hy Hn]. split; [by apply list_elem_of_further|done].
    + exists (x :: added). split; [by rewrite <- app_assoc|].
      constructor; [split; [apply list_elem_of_here|done]|].
      eapply Forall_impl; [exact HF|]. intros y [Hy Hn].
      split; [by apply list_elem_of_further|].
      intros Hs. apply Hn, elem_of_app. by left.
Qed.

(** ** [generatedImages] after [parseAssistantResponse] *)

Lemma reconcilePair_setAdd g pair :
  generatedImages (reconcilePair g pair) = setAdd (generatedImages g) (image pair).
Proof.
  unfold setAdd. case_bool_decide as Hin.
  - by apply reconcilePair_known.
  - by apply reconcilePair_new.
Qed.

Lemma reconcileFallback_setAdd text g imgPath :
  generatedImages (reconcileFallback text g imgPath)
  = setAdd (generatedImages g) imgPath.
Proof. apply reconcileFallback_images. Qed.

Lemma reconcileVideo_setAdd g videoPath :
  generatedImages (reconcileVideo g videoPath)
  = setAdd (generatedImages g) videoPath.
Proof. apply reconcileVideo_images. Qed.

Lemma fold_images {A : Type} (f : Gallery -> A -> Gallery) (key : A -> jsstring)
    (l : list A) :
  (forall g a, generatedImages (f g a) = setAdd (generatedImages g) (key a)) ->
  forall g, generatedImages (fold_left f l g)
            = fold_left setAdd (map key l) (generatedImages g).
Proof.
  intros Hf. induction l as [|a l IH]; intros g; simpl; [done|].
  by rewrite IH, Hf.
Qed.

Lemma parse_images g text :
  generatedImages (parseAssistantResponse g text)
  = fold_left setAdd (references text) (generatedImages g).
Proof.
  unfold parseAssistantResponse, references. rewrite fold_left_app.
  rewrite (fold_images reconcileVideo id) by apply reconcileVideo_setAdd.
  rewrite map_id. f_equal.
  destruct (0 <? length (extractImageCaptionPairs text)).
  - apply (fold_images reconcilePair image), reconcilePair_setAdd.
  - rewrite (fold_images (reconcileFallback text) id)
      by apply reconcileFallback_setAdd.
    by rewrite map_id.
Qed.


(** ** Replay *)

Lemma fold_known {A : Type} (f : Gallery -> A -> Gallery) (key : A -> jsstring)
    (l : list A) :
  (forall g a, key a ∈ generatedImages g ->
               generatedImages (f g a) = generatedImages g
               /\ contentGrid (f g a) = contentGrid g) ->
  forall g, (forall a, a ∈ l -> key a ∈ generatedImages g) ->
            generatedImages (fold_left f l g) = generatedImages g
            /\ contentGrid (fold_left f l g) = contentGrid g.
Proof.
  intros Hf. induction l as [|a l IH]; intros g Hin; simpl; [done|].
  destruct (Hf g a (Hin a (list_elem_of_here _ _))) as [Hi Hc].
  destruct (IH (f g a)) as [Hi' Hc'].
  - intros b Hb. rewrite Hi. by apply Hin, list_elem_of_further.
  - split; congruence.
Qed.

Lemma updateGalleryCardWithCaption_cards g imagePath caption hashtags :
  contentGrid (updateGalleryCardWithCaption g imagePath caption hashtags)
  = contentGrid g.
Proof.
  unfold updateGalleryCardWithCaption. by destruct (sanitizeImagePath imagePath).
Qed.

Lemma reconcilePair_known_cards g pair :
  image pair ∈ generatedImages g ->
  generatedImages (reconcilePair g pair) = generatedImages g
  /\ contentGrid (reconcilePair g pair) = contentGrid g.
Proof.
  intros Hin. split; [by apply reconcilePair_known|].
  unfold reconcilePair. rewrite bool_decide_eq_true_2 by done.
  destruct (_ || _); [apply updateGalleryCardWithCaption_cards|done].
Qed.

Lemma reconcileFallback_known text g imgPath :
  imgPath ∈ generatedImages g -> reconcileFallback text g imgPath = g.
Proof. intros Hin. unfold reconcileFallback. by rewrite bool_decide_eq_true_2. Qed.

Lemma reconcileVideo_known g videoPath :
  videoPath ∈ generatedImages g -> reconcileVideo g videoPath = g.
Proof. intros Hin. unfold reconcileVideo. by rewrite bool_decide_eq_true_2. Qed.

Lemma parse_known g text :
  (forall x, x ∈ references text -> x ∈ generatedImages g) ->
  generatedImages (parseAssistantResponse g text) = generatedImages g
  /\ contentGrid (parseAssistantResponse g text) = contentGrid g.
Proof.
  intros Hin. unfold parseAssistantResponse.
  assert (Hfirst :
    let g1 := if 0 <? length (extractImageCaptionPairs text)
              then fold_left reconcilePair (extractImageCaptionPairs text) g
              else fold_left (reconcileFallback text) (allMatches text) g in
    generatedImages g1 = generatedImages g /\ contentGrid g1 = contentGrid g).
  { simpl. unfold references in Hin.
    destruct (0 <? length (extractImageCaptionPairs text)).
    - apply (fold_known reconcilePair image); [apply reconcilePair_known_cards|].
      intros a Ha. apply Hin, elem_of_app. left.
      apply list_elem_of_fmap. by exists a.
    - apply (fold_known (reconcileFallback text) id).
      + intros g' a Ha. by rewrite reconcileFallback_known.
      + intros a Ha. apply Hin, elem_of_app. by left. }
  simpl in Hfirst. destruct Hfirst as [Hi Hc].
  rewrite <- Hi, <- Hc. apply (fold_known reconcileVideo id).
  - intros g' a Ha. by rewrite reconcileVideo_known.
  - intros a Ha. rewrite Hi. apply Hin, elem_of_app. by right.
Qed.

Lemma parse_replay_lemma (g : Gallery) (text : jsstring) :
  generatedImages (parseAssistantResponse (parseAssistantResponse g text) text)
  = generatedImages (parseAssistantResponse g text)
  /\ contentGrid (parseAssistantResponse (parseAssistantResponse g text) text)
     = contentGrid (parseAssistantResponse g text).
Proof.
  apply parse_known. intros x Hx. rewrite parse_images.
  apply fold_setAdd_in. by right.
Qed.


(** ** Tuples *)

Lemma withSlash_slash x : startsWith (withSlash x) (js "/") = true.
Proof.
  unfold withSlash. destruct (startsWith x (js "/")) eqn:Hs; [done|].
  reflexivity.
Qed.

Lemma pushNew_NoDup pairs p :
  NoDup (map image pairs) -> NoDup (map image (pushNew pairs p)).
Proof.
  intros Hnd. unfold pushNew.
  destruct (existsb _ pairs) eqn:He; [done|].
  rewrite map_app. apply NoDup_app. split; [done|]. split; [|apply NoDup_singleton].
  intros x Hx Hx'. apply list_elem_of_singleton in Hx'. subst x.
  apply list_elem_of_fmap in Hx as (q & Heq & Hq).
  assert (Ht : existsb (fun q => bool_decide (image q = image p)) pairs = true).
  { apply existsb_exists. exists q. split; [by apply list_elem_of_In|].
    by apply bool_decide_eq_true. }
  congruence.
Qed.

Lemma fold_pushNew_NoDup {A : Type} (f : A -> Pair) (l : list A) : forall pairs,
  NoDup (map image pairs) ->
  NoDup (map image (fold_left (fun pairs x => pushNew pairs (f x)) l pairs)).
Proof.
  induction l as [|x l IH]; intros pairs Hnd; simpl; [done|].
  by apply IH, pushNew_NoDup.
Qed.

(** The result of the extractor is that of one of the strategies. *)
Lemma extract_ind text (Q : list Pair -> Prop) :
  Q [] ->
  (forall re window, re ∈ captionedPatterns -> Q (captionedLoop re window text [])) ->
  Q (carouselPairs text []) ->
  Q (slidePairs text []) ->
  Q (extractImageCaptionPairs text).
Proof.
  intros Hnil Hloop Hcar Hslide. rewrite extract_firstYield. unfold strategies.
  assert (Hin : forall re window,
            re = campaignPostPattern \/ re = structuredPattern
            \/ re = singlePostPattern \/ re = genericPattern ->
            Q (captionedLoop re window text [])).
  { intros re window Hre. apply Hloop. unfold captionedPatterns.
    rewrite !elem_of_cons. tauto. }
  destruct (captionedLoop campaignPostPattern 1500 text []) eqn:H1;
    cbn [firstYield]; [|rewrite <- H1; apply Hin; auto].
  destruct (carouselPairs text []) eqn:H2;
    cbn [firstYield]; [|exact Hcar].
  destruct (slidePairs text []) eqn:H3;
    cbn [firstYield]; [|exact Hslide].
  destruct (captionedLoop structuredPattern 1000 text []) eqn:H4;
    cbn [firstYield]; [|rewrite <- H4; apply Hin; auto].
  destruct (captionedLoop singlePostPattern 1000 text []) eqn:H5;
    cbn [firstYield]; [|rewrite <- H5; apply Hin; auto].
  destruct (captionedLoop genericPattern 500 text []) eqn:H6;
    cbn [firstYield]; [|rewrite <- H6; apply Hin; auto].
  done.
Qed.

Lemma extract_Forall text (P : Pair -> Prop) :
  (forall re window m, re ∈ captionedPatterns -> m ∈ Regex.execAll re text ->
     P (captionedPair window text m)) ->
  (forall imagePath, imagePath ∈ foundImages text ->
     P (MkPair imagePath (sharedCaption text) (hashtagsOf text))) ->
  (forall m, m ∈ Regex.execAll carouselSlidePattern text -> P (slidePair text m)) ->
  Forall P (extractImageCaptionPairs text).
Proof.
  intros Hloop Hcar Hslide. apply extract_ind.
  - constructor.
  - intros re window Hre. apply Forall_forall. intros pair H.
    unfold captionedLoop in H.
    apply (fold_pushNew_in (captionedPair window text)) in H as [H|(m & Hm & ->)];
      [by apply elem_of_nil in H|by eapply Hloop].
  - apply Forall_forall. intros pair H. unfold carouselPairs in H.
    destruct (isCarouselComplete text); [|by apply elem_of_nil in H].
    apply (fold_pushNew_in
             (fun imagePath => MkPair imagePath (sharedCaption text) (hashtagsOf text)))
      in H as [H|(m & Hm & ->)]; [by apply elem_of_nil in H|by apply Hcar].
  - apply Forall_forall. intros pair H. unfold slidePairs in H.
    apply (fold_pushNew_in (slidePair text)) in H as [H|(m & Hm & ->)];
      [by apply elem_of_nil in H|by apply Hslide].
Qed.

(** What [foundImages] holds: the first group of a match of one of the
    image patterns, with its slash. *)
Lemma foundImages_ind text (P : jsstring -> Prop) :
  (forall re m imgPath, re ∈ imagePatterns -> m ∈ Regex.execAll re text ->
     Regex.group text m 1 = Some imgPath -> imgPath <> [] ->
     includes (withSlash imgPath) (js "/generated/") = true ->
     P (withSlash imgPath)) ->
  Forall P (foundImages text).
Proof.
  intros HP. unfold foundImages.
  assert (Hsub : forall re, re ∈ imagePatterns -> re ∈ imagePatterns) by done.
  revert Hsub. generalize imagePatterns at 1 3. intros res.
  assert (Hnil : Forall P (@nil jsstring)) by constructor.
  revert Hnil. generalize (@nil jsstring).
  induction res as [|re res IH]; intros found Hfound Hsub; simpl; [done|].
  apply IH; [|intros re' Hre'; by apply Hsub, list_elem_of_further].
  assert (Hre : re ∈ imagePatterns) by apply Hsub, list_elem_of_here.
  assert (Hms : forall m, m ∈ Regex.execAll re text -> m ∈ Regex.execAll re text)
    by done.
  revert found Hfound Hms. generalize (Regex.execAll re text) at 1 3. intros ms.
  induction ms as [|m ms IHm]; intros found Hfound Hms; simpl; [done|].
  apply IHm; [|intros m' Hm'; by apply Hms, list_elem_of_further].
  unfold carouselImage.
  destruct (Regex.group text m 1) as [[|c imgPath]|] eqn:Hg; try done.
  destruct (includes (withSlash (c :: imgPath)) (js "/generated/")) eqn:Hinc;
    [|done].
  unfold setAdd. case_bool_decide; [done|].
  apply Forall_app. split; [done|]. constructor; [|constructor].
  eapply HP; eauto. apply Hms, list_elem_of_here.
Qed.

Lemma foundImages_shape text x :
  x ∈ foundImages text ->
  startsWith x (js "/") = true /\ includes x (js "/generated/") = true.
Proof.
  revert x. apply Forall_forall, foundImages_ind.
  intros re m imgPath _ _ _ _ Hinc. split; [apply withSlash_slash|done].
Qed.

(** X3.  The tuples returned by [extractImageCaptionPairs] have pairwise
    distinct images, and every image starts with a slash. *)
Theorem extract_images_distinct (text : jsstring) :
  NoDup (map image (extractImageCaptionPairs text))
  /\ Forall (fun pair => startsWith (image pair) (js "/") = true)
       (extractImageCaptionPairs text).
Proof.
  split.
  - apply (extract_ind text (fun pairs => NoDup (map image pairs))).
    + apply NoDup_nil_2.
    + intros re window _. apply fold_pushNew_NoDup, NoDup_nil_2.
    + unfold carouselPairs. destruct (isCarouselComplete text); [|apply NoDup_nil_2].
      apply (fold_pushNew_NoDup
               (fun imagePath => MkPair imagePath (sharedCaption text) (hashtagsOf text))),
        NoDup_nil_2.
    + apply fold_pushNew_NoDup, NoDup_nil_2.
  - apply extract_Forall.
    + intros re window m _ _. apply withSlash_slash.
    + intros imagePath Hin. by apply foundImages_shape in Hin as [? _].
    + intros m _. apply withSlash_slash.
Qed.

(** ** Captions *)

Lemma length_substring s a b : length (substring s a b) <= b - a.
Proof. unfold substring. rewrite length_take. lia. Qed.

Lemma length_whole s m : length (Regex.whole s m) <= length s.
Proof. unfold Regex.whole, substring. rewrite length_take, length_drop. lia. Qed.

Lemma sharedCaption_length text : length (sharedCaption text) <= 800.
Proof.
  unfold sharedCaption. destruct (Regex.match1 carouselCaptionPattern text).
  - etrans; [apply length_substring|lia].
  - simpl. lia.
Qed.

Lemma extract_captions text pair :
  pair ∈ extractImageCaptionPairs text -> length (caption pair) <= 800.
Proof.
  revert pair. apply Forall_forall, extract_Forall.
  - intros re window m _ _. simpl. etrans; [apply length_substring|lia].
  - intros imagePath _. apply sharedCaption_length.
  - intros m _. simpl.
    destruct (Regex.match1 slideDescriptionPattern _); [|simpl; lia].
    etrans; [apply length_whole|]. unfold slice.
    etrans; [apply length_substring|lia].
Qed.

Lemma fallbackCaption_length cps text :
  length (fallbackCaption cps text) <= 800.
Proof.
  induction cps as [|cp cps IH]; simpl; [lia|].
  destruct (Regex.match1 cp text); [|done].
  destruct (10 <? _); [|done].
  etrans; [apply length_substring|lia].
Qed.

Section Captions.
Context (n : nat).

Lemma storeMeta_captions g path caption hashtags :
  captionsWithin n g -> length caption <= n ->
  captionsWithin n (storeMeta g path caption hashtags).
Proof.
  intros Hg Hc k m. simpl. destruct (decide (path = k)) as [->|Hne].
  - rewrite lookup_insert_eq. by intros [= <-].
  - rewrite lookup_insert_ne by done. apply Hg.
Qed.

Lemma addImageToGalleryWithCaption_captions g imagePath caption hashtags :
  captionsWithin n g -> length caption <= n ->
  captionsWithin n (addImageToGalleryWithCaption g imagePath caption hashtags).
Proof.
  intros Hg Hc. unfold addImageToGalleryWithCaption.
  destruct (sanitizeImagePath imagePath); [|done].
  by apply (storeMeta_captions g).
Qed.

Lemma updateGalleryCardWithCaption_captions g imagePath caption hashtags :
  captionsWithin n g -> length caption <= n ->
  captionsWithin n (updateGalleryCardWithCaption g imagePath caption hashtags).
Proof.
  intros Hg Hc. unfold updateGalleryCardWithCaption.
  destruct (sanitizeImagePath imagePath); [|done].
  by apply storeMeta_captions.
Qed.

Lemma addImageToGallery_captions g imagePath :
  captionsWithin n g -> captionsWithin n (addImageToGallery g imagePath).
Proof.
  intros Hg. unfold addImageToGallery. by destruct (sanitizeImagePath imagePath).
Qed.

Lemma reconcilePair_captions g pair :
  captionsWithin n g -> length (caption pair) <= n ->
  captionsWithin n (reconcilePair g pair).
Proof.
  intros Hg Hc. unfold reconcilePair. repeat case_match; try done.
  - by apply updateGalleryCardWithCaption_captions.
  - by apply (addImageToGalleryWithCaption_captions (push g (image pair))).
Qed.

Lemma reconcileFallback_captions text g imgPath :
  captionsWithin n g -> 800 <= n ->
  captionsWithin n (reconcileFallback text g imgPath).
Proof.
  intros Hg Hn. unfold reconcileFallback. repeat case_match; try done.
  - apply (addImageToGalleryWithCaption_captions (push g imgPath)); [done|].
    etrans; [apply fallbackCaption_length|done].
  - by apply (addImageToGallery_captions (push g imgPath)).
Qed.

Lemma reconcileVideo_captions g videoPath :
  captionsWithin n g -> captionsWithin n (reconcileVideo g videoPath).
Proof.
  intros Hg. unfold reconcileVideo. case_bool_decide; [done|].
  destruct (_ || _); [|by apply (addImageToGallery_captions (push g videoPath))].
  apply (addImageToGalleryWithCaption_captions (push g videoPath)); [done|].
  destruct (lastImage (push g videoPath)) as [[|c l]|]; simpl; try lia.
  destruct (generatedImagesMeta g !! (c :: l)) as [m|] eqn:Hm; simpl; [|lia].
  by apply (Hg _ _ Hm).
Qed.

Lemma fold_captions {A : Type} (f : Gallery -> A -> Gallery) (l : list A)
    (P : A -> Prop) :
  (forall g a, P a -> captionsWithin n g -> captionsWithin n (f g a)) ->
  Forall P l -> forall g, captionsWithin n g -> captionsWithin n (fold_left f l g).
Proof.
  intros Hf HP. induction HP as [|a l Ha HP IH]; intros g Hg; simpl; [done|].
  by apply IH, Hf.
Qed.

Lemma parse_captions g text :
  800 <= n -> captionsWithin n g -> captionsWithin n (parseAssistantResponse g text).
Proof.
  intros Hn Hg. unfold parseAssistantResponse.
  apply (fold_captions _ _ (fun _ => True));
    [intros; by apply reconcileVideo_captions|by apply Forall_true|].
  destruct (0 <? length (extractImageCaptionPairs text)).
  - apply (fold_captions _ _ (fun pair => length (caption pair) <= n)); [| |done].
    + intros; by apply reconcilePair_captions.
    + apply Forall_forall. intros pair Hin. etrans; [by eapply extract_captions|done].
  - apply (fold_captions _ _ (fun _ => True)); [| by apply Forall_true|done].
    intros; by apply reconcileFallback_captions.
Qed.

End Captions.

(** X4.  No caption is longer than 800 code units: neither the caption
    of a tuple of [extractImageCaptionPairs] nor the caption that the
    fallback of [parseAssistantResponse] stores with a bare reference; so
    [parseAssistantResponse] keeps every stored caption within 800 code
    units when the captions stored before were. *)
Theorem captions_truncated (text : jsstring) :
  Forall (fun pair => length (caption pair) <= 800) (extractImageCaptionPairs text)
  /\ length (fallbackCaption captionPatterns text) <= 800
  /\ forall g, captionsWithin 800 g ->
               captionsWithin 800 (parseAssistantResponse g text).
Proof.
  split; [apply Forall_forall, extract_captions|].
  split; [apply fallbackCaption_length|].
  intros g. by apply parse_captions.
Qed.

(** ** The bare references of the fallback *)

Lemma fallbackClean_in found match_ x :
  x ∈ fallbackClean found match_ ->
  x ∈ found
  \/ (startsWith x (js "/") = true /\ includes x (js "/generated/") = true
      /\ endsWith x (js ".png") = true).
Proof.
  unfold fallbackClean.
  match goal with |- context [withSlash ?p] => generalize p end. intros p.
  destruct (includes (withSlash p) (js "/generated/")
            && endsWith (withSlash p) (js ".png")) eqn:Hok; auto.
  apply andb_true_iff in Hok as [Hinc Hend].
  rewrite setAdd_in. intros [H| ->]; [by left|]. right.
  split; [apply withSlash_slash|done].
Qed.

Lemma fallbackClean_NoDup found match_ :
  NoDup found -> NoDup (fallbackClean found match_).
Proof. intros Hnd. unfold fallbackClean. case_match; auto using setAdd_NoDup. Qed.

Lemma allMatches_fold (P : list jsstring -> Prop) text :
  P [] ->
  (forall found match_, P found -> P (fallbackClean found match_)) ->
  P (allMatches text).
Proof.
  intros Hnil Hstep. unfold allMatches. generalize patterns. intros res.
  revert Hnil. generalize (@nil jsstring).
  induction res as [|re res IH]; intros found Hfound; simpl; [done|].
  apply IH. destruct (Regex.matchG re text) as [ms|]; [|done].
  revert found Hfound. induction ms as [|m ms IHm]; intros found Hfound; simpl;
    [done|].
  by apply IHm, Hstep.
Qed.

Lemma fallbackClean_candidate found match_ :
  fallbackClean found match_
  = if admitted (fallbackCandidate match_)
    then setAdd found (fallbackCandidate match_) else found.
Proof. done. Qed.

Lemma fold_fallbackClean matches : forall found,
  fold_left fallbackClean matches found
  = fold_left setAdd (List.filter admitted (map fallbackCandidate matches)) found.
Proof.
  induction matches as [|m ms IH]; intros found; [done|].
  cbn [fold_left map List.filter]. rewrite IH, fallbackClean_candidate.
  by destruct (admitted (fallbackCandidate m)).
Qed.

Lemma allMatches_candidates text :
  allMatches text
  = fold_left setAdd (List.filter admitted (fallbackCandidates text)) [].
Proof.
  unfold allMatches, fallbackCandidates. generalize patterns. intros res.
  assert (H : forall found,
    fold_left
      (fun found pattern =>
         match Regex.matchG pattern text with
         | Some matches => fold_left fallbackClean matches found
         | None => found
         end)
      res found
    = fold_left setAdd
        (List.filter admitted
           (flat_map
              (fun pattern =>
                 map fallbackCandidate (default [] (Regex.matchG pattern text)))
              res))
        found); [|apply H].
  induction res as [|re res IH]; intros found; [done|].
  cbn [fold_left flat_map]. rewrite IH, List.filter_app, fold_left_app.
  f_equal. destruct (Regex.matchG re text) as [ms|]; [|done].
  apply fold_fallbackClean.
Qed.

(** X5.  The bare references that the fallback of
    [parseAssistantResponse] reconciles are the candidates (the matches
    of its nine patterns, cleaned and given a leading slash) that pass
    its test, each once and in the order of its first occurrence; they
    are pairwise distinct, start with a slash, contain [/generated/] and
    end in [.png]; every candidate, before the test, starts with a
    slash. *)
Theorem fallback_references (text : jsstring) :
  NoDup (allMatches text)
  /\ Forall (fun x => startsWith x (js "/") = true
                      /\ includes x (js "/generated/") = true
                      /\ endsWith x (js ".png") = true)
       (allMatches text)
  /\ allMatches text
     = fold_left setAdd (List.filter admitted (fallbackCandidates text)) []
  /\ Forall (fun x => startsWith x (js "/") = true) (fallbackCandidates text).
Proof.
  split; [|split; [|split]].
  - apply (allMatches_fold (fun found => NoDup found));
      [apply NoDup_nil_2|]. intros. by apply fallbackClean_NoDup.
  - apply (allMatches_fold (fun found => Forall _ found)); [constructor|].
    intros found match_ HF.
    apply Forall_forall. intros x Hx. rewrite Forall_forall in HF.
    apply fallbackClean_in in Hx as [Hx|Hx]; auto.
  - apply allMatches_candidates.
  - apply Forall_forall. intros x Hx. unfold fallbackCandidates in Hx.
    apply list_elem_of_In, in_flat_map in Hx as (re & _ & Hx).
    apply in_map_iff in Hx as (m & <- & _). apply withSlash_slash.
Qed.

(** ** Cards and entries belong to listed references *)

Lemma listed_mono g g' path :
  (forall r, r ∈ generatedImages g -> r ∈ generatedImages g') ->
  listed g path -> listed g' path.
Proof. intros Hsub (r & Hr & Hs). exists r. auto. Qed.

Lemma allListed_push g x : allListed g -> allListed (push g x).
Proof.
  assert (Hsub : forall r, r ∈ generatedImages g -> r ∈ generatedImages (push g x)).
  { intros r Hr. simpl. apply elem_of_app. by left. }
  intros [Hc Hm]. split.
  - eapply Forall_impl; [exact Hc|]. intros p. by apply listed_mono.
  - intros k m Hk. eapply listed_mono; [exact Hsub|]. by eapply Hm.
Qed.

Lemma allListed_store g path caption hashtags :
  allListed g -> listed g path -> allListed (storeMeta g path caption hashtags).
Proof.
  intros [Hc Hm] Hp. split; [done|]. intros k m. simpl.
  destruct (decide (path = k)) as [->|Hne].
  - by rewrite lookup_insert_eq.
  - rewrite lookup_insert_ne by done. apply Hm.
Qed.

Lemma allListed_card g path :
  allListed g -> listed g path -> allListed (insertCard g path).
Proof. intros [Hc Hm] Hp. split; [by constructor|done]. Qed.

Lemma addImageToGalleryWithCaption_listed g imagePath caption hashtags :
  allListed g -> imagePath ∈ generatedImages g ->
  allListed (addImageToGalleryWithCaption g imagePath caption hashtags).
Proof.
  intros Hg Hin. unfold addImageToGalleryWithCaption.
  destruct (sanitizeImagePath imagePath) as [p|] eqn:Hs; [|done].
  assert (Hp : listed g p) by (by exists imagePath).
  apply allListed_card; [by apply allListed_store|done].
Qed.

Lemma updateGalleryCardWithCaption_listed g imagePath caption hashtags :
  allListed g -> imagePath ∈ generatedImages g ->
  allListed (updateGalleryCardWithCaption g imagePath caption hashtags).
Proof.
  intros Hg Hin. unfold updateGalleryCardWithCaption.
  destruct (sanitizeImagePath imagePath) as [p|] eqn:Hs; [|done].
  apply allListed_store; [done|]. by exists imagePath.
Qed.

Lemma addImageToGallery_listed g imagePath :
  allListed g -> imagePath ∈ generatedImages g ->
  allListed (addImageToGallery g imagePath).
Proof.
  intros Hg Hin. unfold addImageToGallery.
  destruct (sanitizeImagePath imagePath) as [p|] eqn:Hs; [|done].
  apply allListed_card; [done|]. by exists imagePath.
Qed.

Lemma push_in g x : x ∈ generatedImages (push g x).
Proof. simpl. apply elem_of_app. right. apply list_elem_of_here. Qed.

Lemma reconcilePair_listed g pair : allListed g -> allListed (reconcilePair g pair).
Proof.
  intros Hg. unfold reconcilePair. case_bool_decide as Hin.
  - destruct (_ || _); [|done]. by apply updateGalleryCardWithCaption_listed.
  - apply addImageToGalleryWithCaption_listed; [by apply allListed_push|apply push_in].
Qed.

Lemma reconcileFallback_listed text g imgPath :
  allListed g -> allListed (reconcileFallback text g imgPath).
Proof.
  intros Hg. unfold reconcileFallback. case_bool_decide as Hin; [done|].
  destruct (_ || _).
  - apply addImageToGalleryWithCaption_listed; [by apply allListed_push|apply push_in].
  - apply addImageToGallery_listed; [by apply allListed_push|apply push_in].
Qed.

Lemma reconcileVideo_listed g videoPath :
  allListed g -> allListed (reconcileVideo g videoPath).
Proof.
  intros Hg. unfold reconcileVideo. case_bool_decide as Hin; [done|].
  destruct (_ || _).
  - apply (addImageToGalleryWithCaption_listed (push g videoPath));
      [by apply allListed_push|apply push_in].
  - apply addImageToGallery_listed; [by apply allListed_push|apply push_in].
Qed.

Lemma fold_inv {A : Type} (Inv : Gallery -> Prop) (f : Gallery -> A -> Gallery)
    (l : list A) :
  (forall g a, Inv g -> Inv (f g a)) ->
  forall g, Inv g -> Inv (fold_left f l g).
Proof.
  intros Hf. induction l as [|a l IH]; intros g Hg; simpl; [done|].
  by apply IH, Hf.
Qed.

Lemma parse_inv (Inv : Gallery -> Prop) g text :
  (forall g pair, Inv g -> Inv (reconcilePair g pair)) ->
  (forall g imgPath, Inv g -> Inv (reconcileFallback text g imgPath)) ->
  (forall g videoPath, Inv g -> Inv (reconcileVideo g videoPath)) ->
  Inv g -> Inv (parseAssistantResponse g text).
Proof.
  intros Hp Hf Hv Hg. unfold parseAssistantResponse.
  apply fold_inv; [done|].
  destruct (0 <? length (extractImageCaptionPairs text)); by apply fold_inv.
Qed.

Lemma cardsLe_pair g pair : cardsLe g -> cardsLe (reconcilePair g pair).
Proof.
  unfold cardsLe, reconcilePair, updateGalleryCardWithCaption,
    addImageToGalleryWithCaption.
  intros Hg. repeat case_match; simpl; rewrite ?length_app; simpl; lia.
Qed.

Lemma cardsLe_fallback text g imgPath :
  cardsLe g -> cardsLe (reconcileFallback text g imgPath).
Proof.
  unfold cardsLe, reconcileFallback, addImageToGallery, addImageToGalleryWithCaption.
  intros Hg. repeat case_match; simpl; rewrite ?length_app; simpl; lia.
Qed.

Lemma cardsLe_video g videoPath : cardsLe g -> cardsLe (reconcileVideo g videoPath).
Proof.
  unfold cardsLe, reconcileVideo, addImageToGallery, addVideoToGalleryWithCaption.
  intros Hg. case_bool_decide; [done|].
  destruct (_ || _); destruct (sanitizeImagePath videoPath);
    simpl; rewrite ?length_app; simpl; lia.
Qed.

(** X6.  [parseAssistantResponse] keeps the gallery consistent with
    [generatedImages]: when every card and every metadata entry is the
    normal form of a listed reference, this still holds afterwards; when
    the cards do not outnumber the references, they do not afterwards;
    and the empty gallery of a new page is consistent. *)
Theorem cards_are_listed (g : Gallery) (text : jsstring) :
  (allListed g -> allListed (parseAssistantResponse g text))
  /\ (length (contentGrid g) <= length (generatedImages g) ->
      length (contentGrid (parseAssistantResponse g text))
      <= length (generatedImages (parseAssistantResponse g text)))
  /\ allListed emptyGallery.
Proof.
  split; [|split].
  - apply parse_inv; auto using reconcilePair_listed, reconcileFallback_listed,
      reconcileVideo_listed.
  - apply (parse_inv cardsLe); auto using cardsLe_pair, cardsLe_fallback,
      cardsLe_video.
  - split; [constructor|]. intros k m Hk. unfold emptyGallery in Hk.
    cbn [generatedImagesMeta] in Hk. by rewrite lookup_empty in Hk.
Qed.

Section Stream2.
Context (toLowerCase : jsstring -> jsstring) (JSON_parse : jsstring -> option Json).

#[local] Abbreviation processFrame2 := (processFrame toLowerCase JSON_parse).
#[local] Abbreviation consume2 := (consume toLowerCase JSON_parse).
#[local] Abbreviation onDone2 := (onDone toLowerCase JSON_parse).
#[local] Abbreviation processStreamResponse2 :=
  (processStreamResponse toLowerCase JSON_parse).

(** What the handler of an envelope does to each field. *)
Lemma handleStructuredResponse_fields st r :
  sessionId (fst (handleStructuredResponse st r)) = sessionId st
  /\ firstContentReceived (fst (handleStructuredResponse st r))
     = firstContentReceived st
  /\ gallery (fst (handleStructuredResponse st r))
     = match getField (js "text") r with
       | Some (Some (JString text)) => parseAssistantResponse (gallery st) text
       | _ => gallery st
       end
  /\ exists called,
       effects (fst (handleStructuredResponse st r)) = effects st ++ called
       /\ List.filter isHide called = [].
Proof.
  unfold handleStructuredResponse.
  generalize (renderStructuredChoiceButtons r). intros returned.
  destruct (getField (js "text") r) as [[[| | |t| |]|]|];
    try destruct (hasChoices r) as [[]|];
    try match goal with
        | |- context [formatMessageReturns ?v] =>
            generalize (formatMessageReturns v); intros []
        end;
    destruct (messageElement st);
    cbn [fst sessionId firstContentReceived gallery effects negb orb];
    (split; [reflexivity|split; [reflexivity|split; [reflexivity|]]]);
    (eexists; split; [reflexivity|]); reflexivity.
Qed.

(** What the [done] branch does to each field. *)
Lemma onDone_fields st :
  sessionId (onDone2 st) = sessionId st
  /\ firstContentReceived (onDone2 st) = firstContentReceived st
  /\ gallery (onDone2 st)
     = match doneText JSON_parse (assistantMessage st) with
       | Some text => parseAssistantResponse (gallery st) text
       | None => gallery st
       end
  /\ exists called, effects (onDone2 st) = effects st ++ called
                    /\ List.filter isHide called = [].
Proof.
  unfold onDone, doneText.
  destruct (parseStructuredResponse JSON_parse (assistantMessage st)) as [r|].
  - destruct (handleStructuredResponse_fields st r)
      as (Hs & Hf & Hg & called & Hc & Hh).
    assert (Hg' : gallery (fst (handleStructuredResponse st r))
                  = match
                      match getField (js "text") r with
                      | Some (Some (JString text)) => Some text
                      | _ => None
                      end
                    with
                    | Some text => parseAssistantResponse (gallery st) text
                    | None => gallery st
                    end).
    { rewrite Hg. by destruct (getField (js "text") r) as [[[]|]|]. }
    destruct (snd (handleStructuredResponse st r));
      cbn [sessionId firstContentReceived gallery effects];
      (repeat split; try done).
    + exists (called ++ [SaveMessagesToStorage]).
      split; [by rewrite Hc, <- app_assoc|].
      by rewrite List.filter_app, Hh.
    + by exists called.
  - cbn [fst snd sessionId firstContentReceived gallery effects].
    repeat split; try done. eexists.
    split; [by rewrite <- !app_assoc|].
    rewrite !List.filter_app.
    destruct (messageElement st); simpl; repeat case_match; reflexivity.
Qed.

Lemma processFrame_hide st data :
  length (List.filter isHide (effects st))
  = (if firstContentReceived st then 1 else 0) ->
  length (List.filter isHide (effects (processFrame2 st data)))
  = (if firstContentReceived (processFrame2 st data) then 1 else 0).
Proof.
  intros Hst. destruct data; simpl; try done.
  - rewrite !List.filter_app, !length_app, Hst.
    by destruct (firstContentReceived st).
  - destruct (onDone_fields st) as (_ & -> & _ & called & -> & Hc).
    by rewrite List.filter_app, Hc, app_nil_r.
Qed.

Lemma consume_hide sid g frames :
  length (List.filter isHide (effects (consume2 sid g frames)))
  = (if firstContentReceived (consume2 sid g frames) then 1 else 0).
Proof.
  induction frames as [|data frames IH] using rev_ind; [done|].
  rewrite consume_snoc. by apply processFrame_hide.
Qed.

(** X7.  Whatever the frames, [processStreamResponse] hides the
    processing indicator exactly once when it reads the stream to its
    end, and at most once when a read is rejected. *)
Theorem indicator_hidden_once (sid : option jsstring) (g : Gallery)
    (frames : list Frame) :
  length (List.filter isHide
            (effects (processStreamResponse2 sid g frames EndOfInput))) = 1
  /\ length (List.filter isHide
               (effects (processStreamResponse2 sid g frames Aborted))) <= 1.
Proof.
  unfold processStreamResponse. pose proof (consume_hide sid g frames) as H.
  split.
  - destruct (firstContentReceived (consume2 sid g frames)) eqn:Hf; [done|].
    cbn [effects]. rewrite List.filter_app, length_app, H. reflexivity.
  - rewrite H. destruct (firstContentReceived _); lia.
Qed.

(** ** A repeated [done] *)

Lemma onDone_twice st :
  generatedImages (gallery (onDone2 (onDone2 st)))
  = generatedImages (gallery (onDone2 st))
  /\ contentGrid (gallery (onDone2 (onDone2 st)))
     = contentGrid (gallery (onDone2 st)).
Proof.
  destruct (onDone_fields (onDone2 st)) as (_ & _ & -> & _).
  destruct (onDone_message toLowerCase JSON_parse st) as [-> _].
  destruct (onDone_fields st) as (_ & _ & -> & _).
  destruct (doneText JSON_parse (assistantMessage st)); [|done].
  apply parse_replay_lemma.
Qed.


(** ** Where the choices come from *)

Lemma detect_length text :
  let choices := detectChoicesInMessage toLowerCase text in
  (0 <? length choices) = true -> 2 <= length choices <= 8.
Proof.
  unfold detectChoicesInMessage.
  destruct ((2 <=? _) && (_ <=? 8)) eqn:Hb; simpl; [|done].
  apply andb_true_iff in Hb as [H2 H8]. apply Nat.leb_le in H2, H8. lia.
Qed.

Lemma onDone_detect st text :
  DetectChoicesInMessage text ∈ effects (onDone2 st) ->
  DetectChoicesInMessage text ∈ effects st
  \/ (text = assistantMessage st
      /\ parseStructuredResponse JSON_parse (assistantMessage st) = None).
Proof.
  intros Hin.
  apply onDone_calls in Hin
    as [Hin|[Hin|[(r & Hp & Hin)|(Hp & [Hin|[Hin|(_ & [Hin|[Hin _]])]])]]];
    try done; auto.
  - apply handleStructuredResponse_calls in Hin
      as [Hin|[Hin|[(t & Hf & [Hin|[Hin|[Hin|[Hin _]]]])|(v & _ & [Hin|Hin])]]];
      try done; auto.
  - injection Hin as ->. auto.
Qed.

Lemma onDone_buttons st choices :
  RenderChoiceButtons choices ∈ effects (onDone2 st) ->
  RenderChoiceButtons choices ∈ effects st
  \/ (parseStructuredResponse JSON_parse (assistantMessage st) = None
      /\ choices = detectChoicesInMessage toLowerCase (assistantMessage st)
      /\ 2 <= length choices <= 8).
Proof.
  intros Hin.
  apply onDone_calls in Hin
    as [Hin|[Hin|[(r & Hp & Hin)|(Hp & [Hin|[Hin|(_ & [Hin|[Hin Hlen]])]])]]];
    try done; auto.
  - apply handleStructuredResponse_calls in Hin
      as [Hin|[Hin|[(t & Hf & [Hin|[Hin|[Hin|[Hin _]]]])|(v & _ & [Hin|Hin])]]];
      try done; auto.
  - injection Hin as ->. right. split; [done|]. split; [done|].
    by apply detect_length.
Qed.

Lemma hasChoices_true response :
  hasChoices response = Some true ->
  exists has_choices choices,
    getField (js "has_choices") response = Some has_choices
    /\ truthy has_choices = true
    /\ getField (js "choices") response = Some (Some choices)
    /\ choicesShape choices.
Proof.
  unfold hasChoices.
  destruct (getField (js "has_choices") response) as [hc|]; [|done].
  cbn [mbind option_bind]. destruct (truthy hc) eqn:Hhc; [|done].
  destruct (getField (js "choices") response) as [[choices|]|]; try done.
  cbn [mbind option_bind]. destruct (truthy (Some choices)); [|done].
  intros Hlen. exists hc, choices. repeat split; try done.
  unfold choicesShape.
  destruct choices as [| | |[|c s]|[|c cs]|fields]; try done; eauto 6.
  right. right. cbn [lengthPositive] in Hlen.
  destruct (getField (js "length") (JObject fields)) as [len|] eqn:Hl; [|done].
  by exists fields, len.
Qed.

Lemma onDone_structured st response :
  RenderStructuredChoiceButtons response ∈ effects (onDone2 st) ->
  RenderStructuredChoiceButtons response ∈ effects st
  \/ (parseStructuredResponse JSON_parse (assistantMessage st) = Some response
      /\ (exists text, getField (js "text") response = Some (Some (JString text)))
      /\ hasChoices response = Some true).
Proof.
  intros Hin.
  apply onDone_calls in Hin
    as [Hin|[Hin|[(r & Hp & Hin)|(Hp & [Hin|[Hin|(_ & [Hin|[Hin _]])]])]]];
    try done; auto.
  apply handleStructuredResponse_calls in Hin
    as [Hin|[Hin|[(t & Hf & [Hin|[Hin|[Hin|[Hin Hh]]]])|(v & _ & [Hin|Hin])]]];
    try done; auto.
  injection Hin as ->. right. split; [done|]. split; [by exists t|done].
Qed.

Lemma consume_at (P : jsstring -> Prop) (e : Effect) sid g frames :
  (forall st, e ∈ effects (onDone2 st) -> e ∈ effects st \/ P (assistantMessage st)) ->
  e <> HideProcessingIndicator -> (forall text, e <> UpdateMessage text) ->
  e ∈ effects (processStreamResponse2 sid g frames EndOfInput)
  \/ e ∈ effects (consume2 sid g frames) ->
  exists pre post, frames = pre ++ FDone :: post /\ P (textOf pre).
Proof.
  intros Hdone Hh Hu Hin.
  assert (Hc : e ∈ effects (consume2 sid g frames)).
  { destruct Hin as [Hin|Hin]; [|done]. unfold processStreamResponse in Hin.
    destruct (firstContentReceived _); [done|]. cbn [effects] in Hin.
    apply elem_of_app in Hin as [Hin|Hin]; [done|].
    by apply list_elem_of_singleton in Hin. }
  clear Hin. induction frames as [|data frames IH] using rev_ind.
  - by apply elem_of_nil in Hc.
  - rewrite consume_snoc in Hc.
    assert (Hnext : e ∈ effects (consume2 sid g frames) ->
              exists pre post, frames ++ [data] = pre ++ FDone :: post /\ P (textOf pre)).
    { intros H. destruct (IH H) as (pre & post & -> & HP).
      exists pre, (post ++ [data]). split; [by rewrite <- app_assoc|done]. }
    destruct data; simpl in Hc; auto.
    + members Hc; auto; solve [by exfalso|exfalso; by eapply Hu].
    + apply Hdone in Hc as [Hc|Hc]; [auto|].
      rewrite consume_message in Hc. by exists frames, [].
Qed.


End Stream2.

(** The handler on envelopes of an unexpected shape.  A string as
    [choices] passes the test and reaches the renderer, which throws at
    [choices.forEach]; a [text] that is [null] is shown as the empty
    message and stops [parseAssistantResponse] at its first statement; a
    [text] that is a number stops [formatMessage].  In each case the
    exception skips [saveMessagesToStorage], and the last two leave the
    gallery as it was. *)
Example string_choices_reach_renderer :
  effects (processStreamResponse asciiLower parseEnvelopes None emptyGallery
             [FText stringChoices; FDone] EndOfInput)
  = [HideProcessingIndicator; UpdateMessage stringChoices;
     HandleStructuredResponse stringChoicesJson; UpdateMessage (js "Pick");
     ParseAssistantResponse (js "Pick"); UpdateRightPanel (js "Pick");
     RenderStructuredChoiceButtons stringChoicesJson].
Proof. by vm_compute. Qed.

Example null_text_stops_extraction :
  processStreamResponse asciiLower parseEnvelopes None helloGallery
    [FText nullText; FDone] EndOfInput
  = MkConsumer None nullText true true helloGallery
      [HideProcessingIndicator; UpdateMessage nullText;
       HandleStructuredResponse nullTextJson; UpdateMessageOther (Some JNull);
       ParseAssistantResponseOther (Some JNull)].
Proof. by vm_compute. Qed.

Example number_text_stops_handler :
  processStreamResponse asciiLower parseEnvelopes None helloGallery
    [FText numberText; FDone] EndOfInput
  = MkConsumer None numberText true true helloGallery
      [HideProcessingIndicator; UpdateMessage numberText;
       HandleStructuredResponse numberTextJson;
       UpdateMessageOther (Some (JNumber (js "5")))].
Proof. by vm_compute. Qed.

(** ** The structured parser *)

Lemma trimStart_in s x : x ∈ trimStart s -> x ∈ s.
Proof.
  induction s as [|c s IH]; simpl; [done|].
  destruct (isSpace c); [|done]. intros H. by apply list_elem_of_further, IH.
Qed.

Lemma trim_in s x : x ∈ trim s -> x ∈ s.
Proof.
  unfold trim. rewrite elem_of_reverse. intros H.
  apply trimStart_in in H. rewrite elem_of_reverse in H. by apply trimStart_in.
Qed.

Lemma startsWith_in s c : startsWith s [c] = true -> c ∈ s.
Proof.
  destruct s as [|d s]; simpl; [done|]. rewrite andb_true_r.
  intros H. apply N.eqb_eq in H as ->. apply list_elem_of_here.
Qed.

Lemma endsWith_in s c : endsWith s [c] = true -> c ∈ s.
Proof.
  unfold endsWith. intros H. apply startsWith_in in H.
  by rewrite elem_of_reverse in H.
Qed.

Lemma execAll_none re text :
  (forall m, ~ Regex.found re text 0 m) -> Regex.execAll re text = [].
Proof.
  intros Hno. destruct (Regex.execAll re text) as [|m ms] eqn:He; [done|].
  exfalso. apply (Hno m), RegexFacts.execAll_found. rewrite He. apply list_elem_of_here.
Qed.

(** In the hypotheses of a match (of a pattern without the [i] flag),
    find the code unit [c]. *)
Ltac has_unit c :=
  match goal with
  | L : ?t !! ?k = Some ?x, C : Regex.canon _ ?x = Regex.canon _ c |- c ∈ ?t =>
      unfold Regex.canon in C; cbn in C; subst x;
      exact (list_elem_of_lookup_2 _ _ _ L)
  end.

Ltac open_conj H :=
  repeat match goal with
  | H' : exists _, _ |- _ => destruct H' as (? & H')
  | H' : _ /\ _ |- _ => destruct H' as (? & H')
  end.

Lemma jsonPattern_braces text m :
  Regex.found jsonPattern text 0 m -> 123%N ∈ text /\ 125%N ∈ text.
Proof.
  intros (_ & _ & _ & Hm). unfold jsonPattern in Hm.
  cbn [Regex.rx Regex.rflags Regex.matches] in Hm. open_conj Hm.
  split; [has_unit 123%N|has_unit 125%N].
Qed.

Lemma complexJsonPattern_braces text m :
  Regex.found complexJsonPattern text 0 m -> 123%N ∈ text /\ 125%N ∈ text.
Proof.
  intros (_ & _ & _ & Hm). unfold complexJsonPattern in Hm.
  cbn [Regex.rx Regex.rflags Regex.matches] in Hm. open_conj Hm.
  split; [has_unit 123%N|has_unit 125%N].
Qed.

Section Structured.
Context (JSON_parse : jsstring -> option Json).

Lemma firstEnvelope_text ms r :
  firstEnvelope JSON_parse ms = Some r ->
  defined (js "text") r = Some true /\ exists s, JSON_parse s = Some r.
Proof.
  induction ms as [|s ms IH]; simpl; [done|].
  destruct (JSON_parse s) as [parsed|] eqn:Hp; [|done].
  destruct (defined (js "text") parsed) as [[]|] eqn:Ht; try done.
  destruct (defined (js "has_choices") parsed) as [[]|]; try done.
  intros [= <-]. split; [done|by exists s].
Qed.

Lemma firstComplexEnvelope_text ms r :
  firstComplexEnvelope JSON_parse ms = Some r ->
  defined (js "text") r = Some true /\ exists s, JSON_parse s = Some r.
Proof.
  induction ms as [|s ms IH]; simpl; [done|].
  destruct (JSON_parse _) as [parsed|] eqn:Hp; [|done].
  destruct (defined (js "text") parsed) as [[]|] eqn:Ht; try done.
  intros [= <-]. split; [done|by eexists].
Qed.

Lemma embeddedEnvelope_text text r :
  embeddedEnvelope JSON_parse text = Some r ->
  defined (js "text") r = Some true /\ exists s, JSON_parse s = Some r.
Proof.
  unfold embeddedEnvelope.
  destruct (firstEnvelope JSON_parse _) as [parsed|] eqn:H1.
  - intros [= <-]. by eapply firstEnvelope_text.
  - apply firstComplexEnvelope_text.
Qed.

Lemma embeddedEnvelope_braces text :
  123%N ∉ text \/ 125%N ∉ text -> embeddedEnvelope JSON_parse text = None.
Proof.
  intros Hno. unfold embeddedEnvelope, Regex.matchG.
  rewrite (execAll_none jsonPattern), (execAll_none complexJsonPattern); [done| |].
  - intros m Hm. apply complexJsonPattern_braces in Hm. tauto.
  - intros m Hm. apply jsonPattern_braces in Hm. tauto.
Qed.

(** X11.  [parseStructuredResponse] returns only values that
    [JSON.parse] returned for some text and that have a [text] property;
    for a text without an opening brace or without a closing brace it
    returns null. *)
Theorem structured_envelope (text : jsstring) :
  (forall response,
     parseStructuredResponse JSON_parse text = Some response ->
     defined (js "text") response = Some true
     /\ exists s, JSON_parse s = Some response)
  /\ (123%N ∉ text \/ 125%N ∉ text ->
      parseStructuredResponse JSON_parse text = None).
Proof.
  split.
  - intros r. unfold parseStructuredResponse.
    destruct (_ && _); [|apply embeddedEnvelope_text].
    destruct (JSON_parse (trim text)) as [parsed|] eqn:Hp; [|done].
    destruct (defined (js "text") parsed) as [[]|] eqn:Ht; try done;
      [|apply embeddedEnvelope_text].
    destruct (defined (js "has_choices") parsed) as [[]|]; try done;
      [|apply embeddedEnvelope_text].
    intros [= <-]. split; [done|by eexists].
  - intros Hno. unfold parseStructuredResponse.
    rewrite embeddedEnvelope_braces by done.
    destruct (startsWith (trim text) (js "{")) eqn:Hs;
      [destruct (endsWith (trim text) (js "}")) eqn:He|]; try done.
    exfalso. apply startsWith_in, trim_in in Hs. apply endsWith_in, trim_in in He.
    tauto.
Qed.

End Structured.

(** ** The hashtags of the right panel *)

Lemma matchG_found re text ms t :
  Regex.matchG re text = Some ms -> t ∈ ms ->
  exists m, Regex.found re text 0 m /\ t = Regex.whole text m.
Proof.
  unfold Regex.matchG. destruct (Regex.execAll re text) as [|m0 ms0] eqn:He; [done|].
  intros [= <-] Hin.
  change (t ∈ map (Regex.whole text) (m0 :: ms0)) in Hin.
  apply list_elem_of_fmap in Hin as (m & -> & Hm).
  exists m. split; [|done]. apply RegexFacts.execAll_found. by rewrite He.
Qed.

Lemma displayHashtagsOnPanel_ok hashtags :
  NoDup (displayHashtagsOnPanel hashtags)
  /\ length (displayHashtagsOnPanel hashtags) <= 30
  /\ forall t, t ∈ displayHashtagsOnPanel hashtags -> t ∈ hashtags.
Proof.
  unfold displayHashtagsOnPanel. split; [|split].
  - eapply sublist_NoDup; [|apply sublist_take].
    apply fold_setAdd_NoDup, NoDup_nil_2.
  - rewrite length_take. lia.
  - intros t Ht. apply elem_of_take in Ht as (i & Ht & _).
    apply list_elem_of_lookup_2 in Ht. apply fold_setAdd_in in Ht as [Ht|Ht]; [|done].
    by apply elem_of_nil in Ht.
Qed.

Lemma includes_tail c p s : includes s (c :: p) = true -> includes s p = true.
Proof.
  induction s as [|d s IH]; cbn [includes].
  - by rewrite orb_false_r.
  - intros H. apply orb_true_iff. right. apply orb_true_iff in H as [H|H]; [|auto].
    simpl in H. apply andb_true_iff in H as [_ H].
    by apply (includes_drop _ _ 0).
Qed.

(** X12.  [updateRightPanel] either leaves the hashtags of the right
    panel as they are or, only for a text that contains [generated/],
    replaces them by a list without duplicates of at most 30 tokens of
    the form [#[a-zA-Z][a-zA-Z0-9_]*]; it leaves them as they are for a
    text without [generated/] and for the empty text. *)
Theorem panel_hashtags (currentHashtags : list jsstring) (text : jsstring) :
  let shown := updateRightPanel currentHashtags text in
  (shown = currentHashtags
   \/ (includes text (js "generated/") = true
       /\ NoDup shown /\ length shown <= 30
       /\ Forall (fun t => isHashtagToken t = true) shown))
  /\ (includes text (js "generated/") = false -> shown = currentHashtags)
  /\ updateRightPanel currentHashtags [] = currentHashtags.
Proof.
  assert (Hinc : includes text (js "/generated/") = true ->
                 includes text (js "generated/") = true).
  { change (js "/generated/") with (47%N :: js "generated/").
    apply includes_tail. }
  intros shown. unfold shown, updateRightPanel. split; [|split; [|done]].
  - destruct text as [|c text']; [by left|]. set (text := c :: text') in *.
    destruct (includes text (js "/generated/") || includes text (js "generated/"))
      eqn:Himg; [|by left].
    destruct (Regex.matchG hashtagTokens text) as [ms|] eqn:Hm; [|by left].
    destruct (5 <? length ms); [|by left]. right.
    destruct (displayHashtagsOnPanel_ok ms) as (Hnd & Hlen & Hsub).
    split; [|split; [done|split; [done|]]].
    + apply orb_true_iff in Himg as [H|H]; auto.
    + apply Forall_forall. intros t Ht. apply Hsub in Ht.
      destruct (matchG_found _ _ _ _ Hm Ht) as (m & Hf & ->).
      by eapply hashtag_found.
  - intros Hno. destruct text as [|c text']; [done|]. set (text := c :: text') in *.
    rewrite Hno.
    destruct (includes text (js "/generated/")) eqn:H; [|done].
    specialize (Hinc eq_refl). congruence.
Qed.

(** ** Rebuilding the gallery *)

Lemma addImageToGallery_cards g imagePath :
  contentGrid (addImageToGallery g imagePath)
  = from_option (fun path => [path]) [] (sanitizeImagePath imagePath) ++ contentGrid g.
Proof. unfold addImageToGallery. by destruct (sanitizeImagePath imagePath). Qed.

Lemma addImageToGalleryWithCaption_cards g imagePath caption hashtags :
  contentGrid (addImageToGalleryWithCaption g imagePath caption hashtags)
  = from_option (fun path => [path]) [] (sanitizeImagePath imagePath) ++ contentGrid g.
Proof.
  unfold addImageToGalleryWithCaption. by destruct (sanitizeImagePath imagePath).
Qed.

Lemma addImageToGallery_meta g imagePath :
  generatedImagesMeta (addImageToGallery g imagePath) = generatedImagesMeta g.
Proof. unfold addImageToGallery. by destruct (sanitizeImagePath imagePath). Qed.

Lemma omap_snoc {A B} (f : A -> option B) l x :
  reverse (omap f (l ++ [x]))
  = from_option (fun y => [y]) [] (f x) ++ reverse (omap f l).
Proof.
  rewrite omap_app, reverse_app. simpl. by destruct (f x).
Qed.

Lemma fold_reAdd l : forall g,
  generatedImages (fold_left reAdd l g) = generatedImages g ++ l
  /\ generatedImagesMeta (fold_left reAdd l g) = generatedImagesMeta g
  /\ contentGrid (fold_left reAdd l g)
     = reverse (omap sanitizeImagePath l) ++ contentGrid g.
Proof.
  induction l as [|x l IH] using rev_ind; intros g.
  - simpl. by rewrite app_nil_r.
  - rewrite fold_left_app. simpl. destruct (IH g) as (Hi & Hm & Hc).
    set (g' := fold_left reAdd l g) in *. unfold reAdd.
    rewrite addImageToGallery_images, addImageToGallery_meta,
      addImageToGallery_cards.
    simpl. rewrite Hi, Hm, Hc, omap_snoc. by rewrite <- !app_assoc.
Qed.


(** ** Saving and restoring the gallery *)

Lemma mapM_fmap {A B} (f : A -> B) (g : B -> option A) (l : list A) :
  (forall x, g (f x) = Some x) -> mapM g (f <$> l) = Some l.
Proof.
  intros Hgf. induction l as [|x l IH]; [done|].
  cbn [fmap list_fmap mapM]. rewrite Hgf, IH. done.
Qed.

Lemma stringsOf_imagesJson images : stringsOf (imagesJson images) = Some images.
Proof. unfold stringsOf, imagesJson. by apply mapM_fmap. Qed.

Lemma metaOf_metaJson m : metaOf (metaJson m) = Some m.
Proof.
  destruct m as [c h]. unfold metaOf, metaJson. cbn [mcaption mhashtags].
  replace (getField (js "caption")
             (JObject [(js "caption", JString c);
                       (js "hashtags", JArray (JString <$> h))]))
    with (Some (Some (JString c))) by (by vm_compute).
  replace (getField (js "hashtags")
             (JObject [(js "caption", JString c);
                       (js "hashtags", JArray (JString <$> h))]))
    with (Some (Some (JArray (JString <$> h)))) by (by vm_compute).
  change (JArray (JString <$> h)) with (imagesJson h).
  by rewrite stringsOf_imagesJson.
Qed.

Lemma galleryMetaOf_galleryMetaJson (meta : gmap (list N) Meta) :
  galleryMetaOf (galleryMetaJson meta) = Some meta.
Proof.
  unfold galleryMetaOf, galleryMetaJson. rewrite <- fmap_reverse.
  rewrite (mapM_fmap (prod_map id metaJson)).
  - simpl. f_equal. rewrite <- (list_to_map_to_list meta) at 2.
    apply list_to_map_proper; [|apply reverse_Permutation].
    rewrite fmap_reverse, reverse_Permutation. apply NoDup_fst_map_to_list.
  - intros [k m]. simpl. by rewrite metaOf_metaJson.
Qed.

Lemma metaView_insert (meta : gmap (list N) Meta) r c h k :
  MkMeta c h = metaView (meta !! r) ->
  metaView (<[r := MkMeta c h]> meta !! k) = metaView (meta !! k).
Proof.
  intros Heq. destruct (decide (r = k)) as [->|Hne].
  - by rewrite lookup_insert_eq.
  - by rewrite lookup_insert_ne.
Qed.

Lemma restoreImage_step g r :
  r ∉ generatedImages g ->
  (forall k, sanitizeImagePath r = Some k -> k = r) ->
  generatedImages (restoreImage g r) = generatedImages g ++ [r]
  /\ (forall k, metaView (generatedImagesMeta (restoreImage g r) !! k)
                = metaView (generatedImagesMeta g !! k))
  /\ contentGrid (restoreImage g r)
     = from_option (fun path => [path]) [] (sanitizeImagePath r) ++ contentGrid g.
Proof.
  intros Hnew Hfix. unfold restoreImage. rewrite bool_decide_eq_false_2 by done.
  cbn [push generatedImagesMeta].
  destruct (Regex.test videoExtension r).
  - unfold addVideoToGalleryWithCaption.
    destruct (sanitizeImagePath r) as [k|] eqn:Hs; [|done].
    rewrite (Hfix k eq_refl). simpl. split; [done|]. split; [|done].
    intros k'. by apply metaView_insert.
  - destruct (generatedImagesMeta g !! r) as [m|] eqn:Hm.
    + destruct (_ || _).
      * unfold addImageToGalleryWithCaption.
        destruct (sanitizeImagePath r) as [k|] eqn:Hs; [|done].
        rewrite (Hfix k eq_refl). simpl. split; [done|]. split; [|done].
        intros k'. apply metaView_insert. by rewrite Hm.
      * rewrite addImageToGallery_images, addImageToGallery_meta,
          addImageToGallery_cards. done.
    + rewrite addImageToGallery_images, addImageToGallery_meta,
        addImageToGallery_cards. done.
Qed.

Lemma fold_restoreImage l : forall g,
  NoDup (generatedImages g ++ l) ->
  (forall r k, r ∈ l -> sanitizeImagePath r = Some k -> k = r) ->
  generatedImages (fold_left restoreImage l g) = generatedImages g ++ l
  /\ (forall k, metaView (generatedImagesMeta (fold_left restoreImage l g) !! k)
                = metaView (generatedImagesMeta g !! k))
  /\ contentGrid (fold_left restoreImage l g)
     = reverse (omap sanitizeImagePath l) ++ contentGrid g.
Proof.
  induction l as [|x l IH] using rev_ind; intros g Hnd Hfix.
  - simpl. by rewrite app_nil_r.
  - rewrite fold_left_app. simpl.
    destruct (IH g) as (Hi & Hm & Hc).
    { rewrite app_assoc in Hnd. by apply NoDup_app in Hnd as (? & _). }
    { intros r k Hr. apply Hfix, elem_of_app. by left. }
    destruct (restoreImage_step (fold_left restoreImage l g) x) as (Hi' & Hm' & Hc').
    { rewrite Hi. rewrite app_assoc in Hnd. apply NoDup_app in Hnd as (_ & Hnd & _).
      intros Hx. apply (Hnd x Hx), list_elem_of_here. }
    { intros k. apply Hfix, elem_of_app. right. apply list_elem_of_here. }
    rewrite Hi', Hc', Hi, Hc, omap_snoc. split; [by rewrite <- app_assoc|].
    split; [|by rewrite <- app_assoc].
    intros k. by rewrite Hm', Hm.
Qed.

Section RoundTrip.
Context (JSON_parse : jsstring -> option Json) (JSON_stringify : Json -> jsstring).


End RoundTrip.


(** ** The interpreter finds every match *)

Module RegexComplete.
Import Regex.

Section Complete.
Context (fl : flags) (inp : jsstring).

Lemma rep_complete (step : nat -> caps -> list (nat * caps))
    (R : nat -> nat -> Prop) (len : nat) :
  (forall i j, i <= len -> R i j -> i <= j <= len) ->
  (forall i j c, i <= len -> R i j -> exists c', (j, c') ∈ step i c) ->
  forall n g fuel mn mx i j c,
    mn <= n -> from_option (fun m => n <= m) True mx -> iter R n i j ->
    i <= len -> len - i + mn < fuel ->
    exists c', (j, c') ∈ rep step g fuel mn mx i c.
Proof.
  intros Hb Hstep n.
  induction n as [|n IH]; intros g fuel mn mx i j c Hmn Hmx Hiter Hi Hf;
    (destruct fuel as [|fuel]; [lia|]); simpl in Hiter |- *.
  - subst j. replace (mn =? 0) with true by (symmetry; apply Nat.eqb_eq; lia).
    exists c. destruct g; rewrite elem_of_app, list_elem_of_singleton; auto.
  - destruct Hiter as (k & Hk & Hrest).
    destruct (Hb i k Hi Hk) as [Hik Hklen].
    destruct (Hstep i k c Hi Hk) as [c1 Hc1].
    destruct (decide (mn = 0 /\ k = i)) as [[-> ->]|Hne].
    + assert (Hmx' : from_option (fun m => n <= m) True mx)
        by (destruct mx; simpl in *; [lia|done]).
      apply (IH g (S fuel) 0 mx i j c); auto; lia.
    + assert (Hcond : (mn =? 0) && (k =? i) = false).
      { apply andb_false_iff.
        destruct (Nat.eqb_spec mn 0), (Nat.eqb_spec k i); auto. tauto. }
      destruct (IH g fuel (pred mn) (pred <$> mx) k j c1) as [c' Hc']; auto.
      * lia.
      * destruct mx as [m|]; simpl in *; [lia|done].
      * destruct (Nat.eqb_spec mn 0); [|lia].
        assert (k <> i) by tauto. lia.
      * exists c'.
        assert (Hmore : (j, c') ∈
                  match mx with
                  | Some 0 => []
                  | _ => flat_map (fun '(j0, c0) =>
                           if (mn =? 0) && (j0 =? i) then []
                           else rep step g fuel (pred mn) (pred <$> mx) j0 c0)
                           (step i c)
                  end).
        { assert (Hfm : (j, c') ∈ flat_map (fun '(j0, c0) =>
                           if (mn =? 0) && (j0 =? i) then []
                           else rep step g fuel (pred mn) (pred <$> mx) j0 c0)
                           (step i c)).
          { apply list_elem_of_In, in_flat_map. exists (k, c1).
            split; [by apply list_elem_of_In|]. rewrite Hcond.
            by apply list_elem_of_In. }
          destruct mx as [[|m]|]; simpl in *; [lia|done|done]. }
        destruct g; rewrite elem_of_app; auto.
Qed.

#[local] Arguments rep : simpl never.

Lemma run_complete r : forall i j c,
  i <= length inp -> matches fl inp r i j -> exists c', (j, c') ∈ run fl inp r i c.
Proof.
  induction r as [|a| |neg items|a IHa b IHb|a IHa b IHb|mn mx g a IHa|k a IHa|a IHa| |];
    intros i j c Hi Hm; simpl in Hm |- *.
  - subst. exists c. apply list_elem_of_here.
  - destruct Hm as (x & -> & -> & ->). rewrite N.eqb_refl. exists c.
    apply list_elem_of_here.
  - destruct Hm as (x & -> & -> & ->). exists c. apply list_elem_of_here.
  - destruct Hm as (x & -> & -> & ->). exists c. apply list_elem_of_here.
  - destruct Hm as (k & Ha & Hb).
    destruct (IHa i k c Hi Ha) as [c1 Hc1].
    apply (RegexFacts.matches_bounds fl inp) in Ha as Hk; [|done].
    destruct (IHb k j c1 ltac:(lia) Hb) as [c' Hc'].
    exists c'. apply list_elem_of_In, in_flat_map. exists (k, c1).
    split; by apply list_elem_of_In.
  - destruct Hm as [Hm|Hm].
    + destruct (IHa i j c Hi Hm) as [c' Hc']. exists c'. apply elem_of_app. auto.
    + destruct (IHb i j c Hi Hm) as [c' Hc']. exists c'. apply elem_of_app. auto.
  - destruct Hm as (n & Hmn & Hmx & Hiter).
    apply (rep_complete (run fl inp a) (matches fl inp a) (length inp))
      with (n := n); auto; try lia.
    intros i' j' Hi'. by apply RegexFacts.matches_bounds.
  - destruct (IHa i j c Hi Hm) as [c' Hc']. eexists.
    apply list_elem_of_fmap. exists (j, c'). split; [reflexivity|done].
  - destruct Hm as (-> & k & Hk).
    destruct (IHa i k c Hi Hk) as [c' Hc'].
    destruct (run fl inp a i c) as [|[k0 c0] rest]; [by apply elem_of_nil in Hc'|].
    eexists. apply list_elem_of_here.
  - destruct Hm as (-> & ->). exists c. apply list_elem_of_here.
  - destruct Hm as (-> & ->). exists c. apply list_elem_of_here.
Qed.

End Complete.

(** [exec] finds a match at or before every position that has one. *)
Lemma search_complete re inp fuel : forall i i0 j,
  i <= i0 <= i + fuel -> i0 <= length inp ->
  matches (rflags re) inp (rx re) i0 j ->
  exists m, search re inp fuel i = Some m /\ m_index m <= i0.
Proof.
  induction fuel as [|fuel IH]; intros i i0 j Hi Hlen Hm; cbn [search];
    destruct (run _ _ _ i _) as [|[j0 c0] rest] eqn:Hrun;
    try (eexists; split; [reflexivity|simpl; lia]).
  - assert (i0 = i) as -> by lia.
    destruct (run_complete (rflags re) inp (rx re) i j
                (replicate (S (ngroups re)) None) Hlen Hm) as [c' Hc'].
    rewrite Hrun in Hc'. by apply elem_of_nil in Hc'.
  - destruct (decide (i0 = i)) as [->|Hne].
    + destruct (run_complete (rflags re) inp (rx re) i j
                  (replicate (S (ngroups re)) None) Hlen Hm) as [c' Hc'].
      rewrite Hrun in Hc'. by apply elem_of_nil in Hc'.
    + apply (IH (S i) i0 j); [lia|done|done].
Qed.

Lemma exec_complete re inp lastIndex i0 j :
  lastIndex <= i0 <= length inp ->
  matches (rflags re) inp (rx re) i0 j ->
  exists m, exec re inp lastIndex = Some m /\ m_index m <= i0.
Proof.
  intros Hi Hm. unfold exec.
  destruct (Nat.ltb_spec (length inp) lastIndex); [lia|].
  apply (search_complete re inp _ lastIndex i0 j); [lia|lia|done].
Qed.

Lemma test_complete re inp i0 j :
  i0 <= length inp -> matches (rflags re) inp (rx re) i0 j -> test re inp = true.
Proof.
  intros Hi Hm. unfold test, match1.
  destruct (exec_complete re inp 0 i0 j ltac:(lia) Hm) as (m & -> & _).
  by apply bool_decide_eq_true.
Qed.

(** ** Captures *)

Section Captures.
Context (fl : flags) (inp : jsstring).

#[local] Abbreviation capStep := (capStep fl inp).

Lemma capStep_refl bs k c : capStep bs k c c.
Proof. split; auto. Qed.

Lemma capStep_trans bs k c1 c2 c3 :
  capStep bs k c1 c2 -> capStep bs k c2 c3 -> capStep bs k c1 c3.
Proof.
  intros [Hl1 H1] [Hl2 H2]. split; [congruence|].
  destruct H2 as [H2|H2]; [|by right]. rewrite H2. done.
Qed.

Lemma capStep_weaken bs bs' k c c' :
  (forall b, b ∈ bs -> b ∈ bs') -> capStep bs k c c' -> capStep bs' k c c'.
Proof.
  intros Hsub [Hl [H|(a & b & body & H1 & H2 & H3)]]; split; auto.
  right. exists a, b, body. auto.
Qed.

Lemma rep_caps (step : nat -> caps -> list (nat * caps)) bs k :
  (forall i c j c', (j, c') ∈ step i c -> capStep bs k c c') ->
  forall g fuel mn mx i c j c',
    (j, c') ∈ rep step g fuel mn mx i c -> capStep bs k c c'.
Proof.
  intros Hstep g fuel.
  induction fuel as [|fuel IH]; intros mn mx i c j c' Hin; simpl in Hin.
  { by apply elem_of_nil in Hin. }
  assert (Hstop : (j, c') ∈ (if mn =? 0 then [(i, c)] else []) -> capStep bs k c c').
  { destruct (mn =? 0); intros H; [|by apply elem_of_nil in H].
    apply list_elem_of_singleton in H. injection H as -> ->. apply capStep_refl. }
  assert (Hmore : (j, c') ∈
            match mx with
            | Some 0 => []
            | _ => flat_map (fun '(j0, c0) =>
                     if (mn =? 0) && (j0 =? i) then []
                     else rep step g fuel (pred mn) (pred <$> mx) j0 c0) (step i c)
            end -> capStep bs k c c').
  { intros H.
    assert (Hfm : (j, c') ∈ flat_map (fun '(j0, c0) =>
                     if (mn =? 0) && (j0 =? i) then []
                     else rep step g fuel (pred mn) (pred <$> mx) j0 c0) (step i c)).
    { destruct mx as [[|m]|]; [by apply elem_of_nil in H|done..]. }
    apply list_elem_of_In, in_flat_map in Hfm as [[k1 c1] [Hk Hrest]].
    apply list_elem_of_In in Hk, Hrest.
    destruct ((mn =? 0) && (k1 =? i)); [by apply elem_of_nil in Hrest|].
    eapply capStep_trans; [by eapply Hstep|by eapply IH]. }
  destruct g; apply elem_of_app in Hin as [H|H]; auto.
Qed.

#[local] Arguments rep : simpl never.

Lemma run_caps r k : forall i c j c',
  (j, c') ∈ run fl inp r i c -> capStep (bodies r k) k c c'.
Proof.
  induction r as [|a| |neg items|a IHa b IHb|a IHa b IHb|mn mx g a IHa|k' a IHa|a IHa| |];
    intros i c j c' Hin; simpl in Hin |- *.
  - apply list_elem_of_singleton in Hin. injection Hin as -> ->. apply capStep_refl.
  - destruct (inp !! i); [|by apply elem_of_nil in Hin].
    destruct (_ =? _)%N; [|by apply elem_of_nil in Hin].
    apply list_elem_of_singleton in Hin. injection Hin as -> ->. apply capStep_refl.
  - destruct (inp !! i); [|by apply elem_of_nil in Hin].
    destruct (_ || _); [|by apply elem_of_nil in Hin].
    apply list_elem_of_singleton in Hin. injection Hin as -> ->. apply capStep_refl.
  - destruct (inp !! i); [|by apply elem_of_nil in Hin].
    destruct (clsMatch _ _ _ _); [|by apply elem_of_nil in Hin].
    apply list_elem_of_singleton in Hin. injection Hin as -> ->. apply capStep_refl.
  - apply list_elem_of_In, in_flat_map in Hin as [[k1 c1] [Hk Hrest]].
    apply list_elem_of_In in Hk, Hrest.
    eapply capStep_trans.
    + eapply capStep_weaken; [|by eapply IHa]. intros x Hx. apply elem_of_app. auto.
    + eapply capStep_weaken; [|by eapply IHb]. intros x Hx. apply elem_of_app. auto.
  - apply elem_of_app in Hin as [H|H].
    + eapply capStep_weaken; [|by eapply IHa]. intros x Hx. apply elem_of_app. auto.
    + eapply capStep_weaken; [|by eapply IHb]. intros x Hx. apply elem_of_app. auto.
  - eapply rep_caps; [|exact Hin]. intros; eauto.
  - apply list_elem_of_fmap in Hin as [[j0 c0] [Heq Hin]].
    injection Heq as -> ->.
    pose proof (RegexFacts.run_sound fl inp a _ _ _ _ Hin) as Hm.
    apply IHa in Hin as [Hl Hc]. unfold caps in *.
    split; [by rewrite length_insert|]. unfold caps.
    destruct (Nat.eqb_spec k' k) as [->|Hne].
    + destruct (decide (k < length c0)) as [Hlt|Hge].
      * right. exists i, j0, a. split; [by apply list_lookup_insert_eq|].
        split; [apply list_elem_of_here|done].
      * rewrite list_insert_ge by lia.
        destruct Hc as [Hc|(x & y & body & H1 & H2 & H3)]; [by left|].
        right. exists x, y, body. split; [done|]. split; [|done].
        by apply list_elem_of_further.
    + rewrite list_lookup_insert_ne by done. simpl. done.
  - destruct (run fl inp a i c) as [|[k1 c1] rest] eqn:Hrun;
      [by apply elem_of_nil in Hin|].
    apply list_elem_of_singleton in Hin. injection Hin as -> ->.
    eapply IHa. rewrite Hrun. apply list_elem_of_here.
  - destruct (_ || _); [|by apply elem_of_nil in Hin].
    apply list_elem_of_singleton in Hin. injection Hin as -> ->. apply capStep_refl.
  - destruct (_ || _); [|by apply elem_of_nil in Hin].
    apply list_elem_of_singleton in Hin. injection Hin as -> ->. apply capStep_refl.
Qed.

(** A capture that is set stays set. *)
Lemma capStep_set bs k c c' :
  capStep bs k c c' -> (exists a b, c !! k = Some (Some (a, b))) ->
  exists a b, c' !! k = Some (Some (a, b)).
Proof.
  intros [_ [H|(a & b & _ & H & _)]] Hset; [by rewrite H|by exists a, b].
Qed.

Lemma rep_sets (step : nat -> caps -> list (nat * caps)) bs k :
  (forall i c j c', (j, c') ∈ step i c -> capStep bs k c c') ->
  (forall i c j c', (j, c') ∈ step i c -> k < length c ->
                    exists a b, c' !! k = Some (Some (a, b))) ->
  forall g fuel mn mx i c j c',
    0 < mn -> (j, c') ∈ rep step g fuel mn mx i c -> k < length c ->
    exists a b, c' !! k = Some (Some (a, b)).
Proof.
  intros Hcap Hstep g fuel mn mx i c j c' Hmn Hin Hk.
  destruct fuel as [|fuel]; [by apply elem_of_nil in Hin|].
  unfold rep in Hin; fold rep in Hin.
  replace (mn =? 0) with false in Hin by (symmetry; apply Nat.eqb_neq; lia).
  simpl in Hin.
  assert (Hmore : (j, c') ∈
            match mx with
            | Some 0 => []
            | _ => flat_map (fun '(j0, c0) =>
                     rep step g fuel (pred mn) (pred <$> mx) j0 c0) (step i c)
            end).
  { destruct g; [by rewrite app_nil_r in Hin|done]. }
  assert (Hfm : (j, c') ∈ flat_map (fun '(j0, c0) =>
                     rep step g fuel (pred mn) (pred <$> mx) j0 c0) (step i c)).
  { destruct mx as [[|m]|]; [by apply elem_of_nil in Hmore|done..]. }
  apply list_elem_of_In, in_flat_map in Hfm as [[k1 c1] [Hk1 Hrest]].
  apply list_elem_of_In in Hk1, Hrest.
  eapply capStep_set; [eapply rep_caps; [exact Hcap|exact Hrest]|].
  by eapply Hstep.
Qed.

Lemma run_sets r k : forall i c j c',
  sets r k = true -> (j, c') ∈ run fl inp r i c -> k < length c ->
  exists a b, c' !! k = Some (Some (a, b)).
Proof.
  induction r as [|a| |neg items|a IHa b IHb|a IHa b IHb|mn mx g a IHa|k' a IHa|a IHa| |];
    intros i c j c' Hs Hin Hk; simpl in Hs, Hin; try done.
  - apply list_elem_of_In, in_flat_map in Hin as [[k1 c1] [Hk1 Hrest]].
    apply list_elem_of_In in Hk1, Hrest.
    destruct (sets a k) eqn:Ha.
    + eapply capStep_set; [by eapply (run_caps b k)|]. by eapply IHa.
    + simpl in Hs. eapply IHb; [done|exact Hrest|].
      destruct (run_caps a k _ _ _ _ Hk1) as [Hl _]. lia.
  - apply andb_true_iff in Hs as [Ha Hb].
    apply elem_of_app in Hin as [H|H]; eauto.
  - apply andb_true_iff in Hs as [Hmn Ha]. apply Nat.ltb_lt in Hmn.
    eapply (rep_sets _ (bodies a k)); [| |exact Hmn|exact Hin|exact Hk].
    + intros. by eapply run_caps.
    + intros. by eapply IHa.
  - apply list_elem_of_fmap in Hin as [[j0 c0] [Heq Hin]].
    injection Heq as -> ->.
    destruct (run_caps a k _ _ _ _ Hin) as [Hl _]. unfold caps in *.
    destruct (Nat.eqb_spec k' k) as [->|Hne].
    + exists i, j0. apply list_lookup_insert_eq. lia.
    + simpl in Hs. rewrite list_lookup_insert_ne by done. by eapply IHa.
  - destruct (run fl inp a i c) as [|[k1 c1] rest] eqn:Hrun;
      [by apply elem_of_nil in Hin|].
    apply list_elem_of_singleton in Hin. injection Hin as -> ->.
    eapply IHa; [done| |done]. rewrite Hrun. apply list_elem_of_here.
Qed.

End Captures.

Lemma search_run re inp fuel : forall i m,
  search re inp fuel i = Some m ->
  (m_end m, m_caps m)
  ∈ run (rflags re) inp (rx re) (m_index m) (replicate (S (ngroups re)) None).
Proof.
  induction fuel as [|fuel IH]; intros i m; cbn [search];
    destruct (run _ _ _ i _) as [|[j c] rest] eqn:Hrun; try done.
  - intros [= <-]. cbn [m_index m_end m_caps]. rewrite Hrun. apply list_elem_of_here.
  - apply IH.
  - intros [= <-]. cbn [m_index m_end m_caps]. rewrite Hrun. apply list_elem_of_here.
Qed.

Lemma exec_run re inp lastIndex m :
  exec re inp lastIndex = Some m ->
  (m_end m, m_caps m)
  ∈ run (rflags re) inp (rx re) (m_index m) (replicate (S (ngroups re)) None).
Proof.
  unfold exec. destruct (_ <? _); [done|]. apply search_run.
Qed.

Lemma execFrom_exec re inp fuel : forall lastIndex m,
  m ∈ execFrom re inp fuel lastIndex ->
  exists from, exec re inp from = Some m.
Proof.
  induction fuel as [|fuel IH]; intros lastIndex m Hin; simpl in Hin.
  - by apply elem_of_nil in Hin.
  - destruct (exec re inp lastIndex) as [m0|] eqn:He; [|by apply elem_of_nil in Hin].
    apply elem_of_cons in Hin as [->|Hin]; [by exists lastIndex|].
    by eapply IH.
Qed.

(** The capture [k] of a match: a range that a group numbered [k]
    matches; set when every match goes through such a group. *)
Lemma exec_group re inp lastIndex m k sub :
  exec re inp lastIndex = Some m ->
  group inp m k = Some sub ->
  exists a b body,
    sub = substring inp a b /\ body ∈ bodies (rx re) k
    /\ matches (rflags re) inp body a b.
Proof.
  intros He Hg. apply exec_run in He.
  destruct (run_caps (rflags re) inp (rx re) k _ _ _ _ He) as [Hl Hc].
  unfold group in Hg.
  destruct (m_caps m !! k) as [[[a b]|]|] eqn:Hk; try done. injection Hg as <-.
  destruct Hc as [Hc|(a' & b' & body & H1 & H2 & H3)].
  - symmetry in Hc. apply lookup_replicate in Hc as [Hc _]. done.
  - injection H1 as -> ->. by exists a', b', body.
Qed.

Lemma exec_group_set re inp lastIndex m k :
  exec re inp lastIndex = Some m ->
  sets (rx re) k = true -> k <= ngroups re ->
  exists sub, group inp m k = Some sub.
Proof.
  intros He Hs Hk. apply exec_run in He.
  destruct (run_sets (rflags re) inp (rx re) k _ _ _ _ Hs He) as (a & b & Hc).
  - rewrite length_replicate. lia.
  - unfold group. rewrite Hc. by eexists.
Qed.

End RegexComplete.

Import RegexComplete.

(** ** The images of the tuples end in .png *)

Lemma substring_drop (inp : jsstring) a k b :
  a <= k -> drop (k - a) (substring inp a b) = substring inp k b.
Proof.
  intros Hak. unfold substring.
  rewrite List.skipn_firstn_comm, drop_drop. f_equal; [lia|f_equal; lia].
Qed.

Lemma startsWith_prefix p rest : startsWith (p ++ rest) p = true.
Proof. induction p as [|c p IH]; simpl; [done|]. by rewrite N.eqb_refl. Qed.

Lemma startsWith_app_l s t p : startsWith s p = true -> startsWith (s ++ t) p = true.
Proof.
  intros H. apply startsWith_app in H as [rest ->]. rewrite <- app_assoc.
  apply startsWith_prefix.
Qed.

Lemma endsWith_cons c s p : endsWith s p = true -> endsWith (c :: s) p = true.
Proof. unfold endsWith. rewrite reverse_cons. apply startsWith_app_l. Qed.

Lemma endsWith_app s t p : endsWith t p = true -> endsWith (s ++ t) p = true.
Proof. unfold endsWith. rewrite reverse_app. apply startsWith_app_l. Qed.

Lemma iter_length (R : nat -> nat -> Prop) :
  (forall i j, R i j -> j = S i) ->
  forall n k j, Regex.iter R n k j -> j = k + n.
Proof.
  intros HR n. induction n as [|n IH]; simpl; intros k j H; [lia|].
  destruct H as (k' & Hk & Hrest). apply HR in Hk. apply IH in Hrest. lia.
Qed.

Lemma png_suffix (inp : jsstring) b0 a k x0 x1 x2 x3 :
  a <= k ->
  inp !! k = Some x0 -> inp !! S k = Some x1 ->
  inp !! S (S k) = Some x2 -> inp !! S (S (S k)) = Some x3 ->
  Regex.canon b0 x0 = Regex.canon b0 46%N ->
  Regex.canon b0 x1 = Regex.canon b0 112%N ->
  Regex.canon b0 x2 = Regex.canon b0 110%N ->
  Regex.canon b0 x3 = Regex.canon b0 103%N ->
  endsWith (map lowerChar (substring inp a (S (S (S (S k)))))) (js ".png") = true.
Proof.
  intros Hak H0 H1 H2 H3 C0 C1 C2 C3.
  apply canon_lowerChar_any in C0, C1, C2, C3; auto.
  rewrite <- (take_drop (k - a) (substring inp a (S (S (S (S k)))))).
  rewrite substring_drop by done. rewrite map_app. apply endsWith_app.
  unfold substring.
  rewrite (drop_S _ _ _ H0), (drop_S _ _ _ H1), (drop_S _ _ _ H2),
    (drop_S _ _ _ H3).
  replace (S (S (S (S k))) - k) with 4 by lia. cbn [take map].
  rewrite C0, C1, C2, C3. reflexivity.
Qed.

(** In the hypotheses of a match, find the four code units of [.png] at
    the end of the range [a..b). *)
Ltac png_end :=
  repeat match goal with
  | H : Regex.iter _ _ _ _ |- _ =>
      apply iter_length in H; [|by intros ? ? (? & _ & _ & ->)]
  end;
  subst;
  match goal with
  | H0 : ?t !! ?k = Some ?x0, H1 : ?t !! S ?k = Some ?x1,
    H2 : ?t !! S (S ?k) = Some ?x2, H3 : ?t !! S (S (S ?k)) = Some ?x3,
    C0 : Regex.canon ?b ?x0 = Regex.canon ?b 46%N,
    C1 : Regex.canon ?b ?x1 = Regex.canon ?b 112%N,
    C2 : Regex.canon ?b ?x2 = Regex.canon ?b 110%N,
    C3 : Regex.canon ?b ?x3 = Regex.canon ?b 103%N |- _ =>
      apply (png_suffix t b _ k x0 x1 x2 x3); [lia|assumption..]
  end.


Ltac png_group :=
  intros inp a b body Hbody Hm; vm_compute in Hbody;
  apply list_elem_of_singleton in Hbody; subst body;
  cbn [Regex.rflags Regex.matches] in Hm; open_conj Hm; png_end.

Lemma captionedPatterns_png : Forall (fun re => pngGroup re 1) captionedPatterns.
Proof.
  unfold captionedPatterns. repeat apply List.Forall_cons; try apply List.Forall_nil;
    png_group.
Qed.

Lemma imagePatterns_png : Forall (fun re => pngGroup re 1) imagePatterns.
Proof.
  unfold imagePatterns. repeat apply List.Forall_cons; try apply List.Forall_nil;
    png_group.
Qed.

Lemma carouselSlidePattern_png : pngGroup carouselSlidePattern 3.
Proof. png_group. Qed.

Lemma execAll_group_png re k text m sub :
  pngGroup re k -> m ∈ Regex.execAll re text ->
  Regex.group text m k = Some sub ->
  endsWith (map lowerChar sub) (js ".png") = true.
Proof.
  intros Hpng Hm Hg. apply execFrom_exec in Hm as [from He].
  destruct (exec_group _ _ _ _ _ _ He Hg) as (a & b & body & -> & Hbody & Hmatch).
  by eapply Hpng.
Qed.

Lemma execAll_grp_png re k text m :
  pngGroup re k -> sets (Regex.rx re) k = true -> k <= Regex.ngroups re ->
  m ∈ Regex.execAll re text ->
  endsWith (map lowerChar (Regex.grp text m k)) (js ".png") = true.
Proof.
  intros Hpng Hs Hk Hm. pose proof Hm as Hm'.
  apply execFrom_exec in Hm' as [from He].
  destruct (exec_group_set _ _ _ _ _ He Hs Hk) as [sub Hg].
  unfold Regex.grp. rewrite Hg. simpl. by eapply execAll_group_png.
Qed.

Lemma withSlash_png x :
  endsWith (map lowerChar x) (js ".png") = true ->
  endsWith (map lowerChar (withSlash x)) (js ".png") = true.
Proof.
  intros H. unfold withSlash. destruct (startsWith x (js "/")); [done|].
  rewrite map_app. by apply endsWith_app.
Qed.

(** X15.  The image of every tuple of [extractImageCaptionPairs] ends
    in [.png], up to the case of the letters. *)
Theorem tuple_images_png (text : jsstring) :
  Forall (fun pair => endsWith (map lowerChar (image pair)) (js ".png") = true)
    (extractImageCaptionPairs text).
Proof.
  apply extract_Forall.
  - intros re window m Hre Hm. apply withSlash_png.
    pose proof captionedPatterns_png as Hpng. rewrite Forall_forall in Hpng.
    apply (execAll_grp_png re 1); [by apply Hpng| | |done];
      unfold captionedPatterns in Hre; rewrite !elem_of_cons in Hre;
      destruct Hre as [->|[->|[->|[->|Hre]]]];
      try (by apply elem_of_nil in Hre);
      first [by vm_compute|vm_compute; lia].
  - revert text. intros text. apply Forall_forall.
    apply (foundImages_ind text
             (fun x => endsWith (map lowerChar (image (MkPair x (sharedCaption text)
                                                      (hashtagsOf text))))
                         (js ".png") = true)).
    intros re m imgPath Hre Hm Hg _ _. apply withSlash_png.
    pose proof imagePatterns_png as Hpng. rewrite Forall_forall in Hpng.
    by apply (execAll_group_png re 1 text m); [apply Hpng| |].
  - intros m Hm. apply withSlash_png.
    apply (execAll_grp_png carouselSlidePattern 3);
      [|by vm_compute|vm_compute; lia|done].
    apply carouselSlidePattern_png.
Qed.

(** ** A video takes the caption of the last image *)

Lemma last_substring (inp : jsstring) a k x :
  a <= k -> inp !! k = Some x -> last (substring inp a (S k)) = Some x.
Proof.
  intros Hak Hx. unfold substring. replace (S k - a) with (S (k - a)) by lia.
  rewrite (take_S_r _ _ x); [apply last_snoc|].
  rewrite lookup_drop. by replace (a + (k - a)) with k by lia.
Qed.

Lemma withSlash_last x : x <> [] -> last (withSlash x) = last x.
Proof.
  intros Hne. unfold withSlash. destruct (startsWith x (js "/")); [done|].
  rewrite last_app. destruct x as [|c x]; [done|].
  by destruct (last (c :: x)) eqn:Hl; [|apply last_None in Hl].
Qed.

Lemma videoPattern_last text from m :
  Regex.found videoPattern text from m ->
  exists x, last (Regex.whole text m) = Some x
    /\ (Regex.canon true x = Regex.canon true 52%N
        \/ Regex.canon true x = Regex.canon true 109%N
        \/ Regex.canon true x = Regex.canon true 118%N).
Proof.
  intros (_ & Hij & _ & Hm). unfold Regex.whole.
  unfold videoPattern in Hm. cbn [Regex.rx Regex.rflags Regex.matches] in Hm.
  open_match Hm;
  repeat match goal with
  | H : Regex.iter _ _ _ _ |- _ =>
      apply iter_length in H; [|by intros ? ? (? & _ & _ & ->)]
  end;
  rewrite Hm;
  match goal with
  | H : ?t !! ?k = Some ?x |- exists _, last (substring ?t _ (S ?k)) = _ /\ _ =>
      exists x; split; [apply last_substring; [lia|exact H]|auto]
  end.
Qed.

Lemma imageExtension_last v :
  Regex.test imageExtension v = true ->
  exists y, last v = Some y /\ Regex.canon true y = Regex.canon true 103%N.
Proof.
  intros Ht. apply test_found in Ht as [m (_ & _ & _ & Hm)].
  unfold imageExtension in Hm. cbn [Regex.rx Regex.rflags Regex.matches] in Hm.
  open_match Hm;
  match goal with
  | H : (_ =? _) || _ = true |- _ =>
      rewrite orb_false_r in H; apply Nat.eqb_eq in H
  end;
  match goal with
  | E : S ?k = length ?t, H : ?t !! ?k = Some ?x |- _ =>
      exists x; split; [|assumption];
      rewrite last_lookup, <- E; exact H
  end.
Qed.

Lemma videos_not_images text v :
  v ∈ videos text -> Regex.test imageExtension v = false.
Proof.
  unfold videos. destruct (Regex.matchG videoPattern text) as [ms|] eqn:Hms;
    [|intros H; by apply elem_of_nil in H].
  intros Hv. apply list_elem_of_fmap in Hv as (w & -> & Hw).
  destruct (matchG_found _ _ _ _ Hms Hw) as (m & Hf & ->).
  pose proof Hf as (_ & _ & _ & Hmin). apply RegexFacts.matches_minLen in Hmin.
  assert (Hne : Regex.whole text m <> []).
  { destruct Hf as (_ & _ & Hlen & _). intros Hnil.
    apply (f_equal length) in Hnil. unfold Regex.whole, substring in Hnil.
    rewrite length_take, length_drop in Hnil. simpl in Hmin, Hnil. lia. }
  destruct (videoPattern_last _ _ _ Hf) as (x & Hx & Hcx).
  destruct (Regex.test imageExtension (withSlash (Regex.whole text m))) eqn:Ht;
    [|done].
  apply imageExtension_last in Ht as (y & Hy & Hcy).
  rewrite withSlash_last, Hx in Hy by done. injection Hy as <-.
  rewrite Hcy in Hcx. by vm_compute in Hcx; destruct Hcx as [|[|]].
Qed.

Lemma lastImage_push g v :
  Regex.test imageExtension v = false -> lastImage (push g v) = lastImage g.
Proof.
  intros Hv. unfold lastImage. simpl. rewrite filter_app.
  rewrite filter_cons_False by (by rewrite Hv). by rewrite filter_nil, app_nil_r.
Qed.

Lemma lastImage_nonempty g img : lastImage g = Some img -> img <> [].
Proof.
  unfold lastImage. intros Hl Hnil. subst img.
  apply last_Some_elem_of, list_elem_of_filter in Hl as [Ht _].
  by vm_compute in Ht.
Qed.

Section Inherit.
Context (img : jsstring) (m : Meta).
Hypothesis Hcontent : mcaption m <> [] \/ mhashtags m <> [].

#[local] Abbreviation lastIs := (lastIs img m).

Lemma reconcileVideo_inherit g v :
  lastIs g -> Regex.test imageExtension v = false -> v ∉ generatedImages g ->
  reconcileVideo g v
  = addVideoToGalleryWithCaption (push g v) v (mcaption m) (mhashtags m).
Proof.
  intros [Hl Hm] Hv Hnew. unfold reconcileVideo.
  rewrite bool_decide_eq_false_2 by done. cbv zeta.
  rewrite lastImage_push, Hl by done.
  destruct img as [|c l] eqn:Himg; [by apply lastImage_nonempty in Hl|].
  cbn [push generatedImagesMeta]. rewrite Hm. cbn [from_option].
  destruct Hcontent as [Hc|Hh].
  - by rewrite (bool_decide_eq_false_2 _ Hc).
  - destruct (mhashtags m); [done|]. by rewrite orb_true_r.
Qed.

Lemma addVideo_keeps g v k :
  generatedImagesMeta g !! k = Some m ->
  generatedImagesMeta
    (addVideoToGalleryWithCaption (push g v) v (mcaption m) (mhashtags m)) !! k
  = Some m.
Proof.
  intros Hk. unfold addVideoToGalleryWithCaption.
  destruct (sanitizeImagePath v) as [p|]; [|done]. simpl.
  destruct (decide (p = k)) as [->|Hne].
  - rewrite lookup_insert_eq. by destruct m.
  - by rewrite lookup_insert_ne.
Qed.

Lemma reconcileVideo_keeps g v :
  lastIs g -> Regex.test imageExtension v = false ->
  lastIs (reconcileVideo g v)
  /\ (forall k, generatedImagesMeta g !! k = Some m ->
                generatedImagesMeta (reconcileVideo g v) !! k = Some m)
  /\ (forall p, p ∈ contentGrid g -> p ∈ contentGrid (reconcileVideo g v))
  /\ (forall k, v ∉ generatedImages g -> sanitizeImagePath v = Some k ->
        generatedImagesMeta (reconcileVideo g v) !! k = Some m
        /\ k ∈ contentGrid (reconcileVideo g v)).
Proof.
  intros Hg Hv. destruct (decide (v ∈ generatedImages g)) as [Hin|Hnew].
  - by rewrite reconcileVideo_known.
  - rewrite reconcileVideo_inherit by done. destruct Hg as [Hl Hm].
    split; [|split; [|split]].
    + split; [|by apply addVideo_keeps].
      unfold lastImage. rewrite addVideoToGalleryWithCaption_images.
      change (lastImage (push g v) = Some img). by rewrite lastImage_push.
    + intros k. apply addVideo_keeps.
    + intros p Hp. unfold addVideoToGalleryWithCaption.
      destruct (sanitizeImagePath v); [|done]. by apply list_elem_of_further.
    + intros k _ Hs. unfold addVideoToGalleryWithCaption. rewrite Hs. simpl.
      split; [|apply list_elem_of_here]. rewrite lookup_insert_eq. by destruct m.
Qed.

Lemma fold_reconcileVideo_inherit l : forall g,
  lastIs g -> (forall v, v ∈ l -> Regex.test imageExtension v = false) ->
  let g' := fold_left reconcileVideo l g in
  lastIs g'
  /\ (forall k, generatedImagesMeta g !! k = Some m ->
                generatedImagesMeta g' !! k = Some m)
  /\ (forall p, p ∈ contentGrid g -> p ∈ contentGrid g')
  /\ (forall v k, v ∈ l -> v ∉ generatedImages g -> sanitizeImagePath v = Some k ->
        generatedImagesMeta g' !! k = Some m /\ k ∈ contentGrid g').
Proof.
  induction l as [|x l IH]; intros g Hg Hl; simpl.
  - split; [done|]. split; [done|]. split; [done|].
    intros v k Hv. by apply elem_of_nil in Hv.
  - destruct (reconcileVideo_keeps g x Hg) as (Hg1 & Hm1 & Hc1 & Hx1).
    { apply Hl, list_elem_of_here. }
    destruct (IH (reconcileVideo g x) Hg1) as (Hg2 & Hm2 & Hc2 & Hv2).
    { intros v Hv. by apply Hl, list_elem_of_further. }
    split; [done|]. split; [auto|]. split; [auto|].
    intros v k Hv Hnew Hs. destruct (decide (v = x)) as [->|Hne].
    + destruct (Hx1 k Hnew Hs) as [Hk Hp]. auto.
    + apply elem_of_cons in Hv as [->|Hv]; [done|].
      apply (Hv2 v k Hv); [|done].
      rewrite reconcileVideo_setAdd, setAdd_in. tauto.
Qed.

End Inherit.

(** X16.  A video takes over the caption and the hashtags of the last
    image.  When a response holds no tuple and no bare image reference,
    and the last image of [generatedImages] has a metadata entry with a
    caption or a hashtag, every new video of the response that the
    normalizer accepts gets a card and that entry as its metadata. *)
Theorem video_inherits_caption (g : Gallery) (text img : jsstring) (m : Meta) :
  extractImageCaptionPairs text = [] -> allMatches text = [] ->
  lastImage g = Some img -> generatedImagesMeta g !! img = Some m ->
  mcaption m <> [] \/ mhashtags m <> [] ->
  forall v k,
    v ∈ videos text -> v ∉ generatedImages g -> sanitizeImagePath v = Some k ->
    generatedImagesMeta (parseAssistantResponse g text) !! k = Some m
    /\ k ∈ contentGrid (parseAssistantResponse g text).
Proof.
  intros Hpairs Hbare Hl Hm Hcontent v k Hv Hnew Hs.
  unfold parseAssistantResponse. rewrite Hpairs, Hbare. simpl.
  destruct (fold_reconcileVideo_inherit img m Hcontent (videos text) g)
    as (_ & _ & _ & H); [done|apply videos_not_images|].
  by apply (H v k).
Qed.

Lemma video_inherits_caption_witness :
  generatedImagesMeta (parseAssistantResponse helloGallery videoOnly)
    !! js "/generated/clip.mp4" = Some (MkMeta (js "Hello") [js "#x"])
  /\ js "/generated/clip.mp4"
     ∈ contentGrid (parseAssistantResponse helloGallery videoOnly).
Proof.
  apply (video_inherits_caption helloGallery videoOnly (js "/generated/a.png")
           (MkMeta (js "Hello") [js "#x"]) ltac:(by vm_compute) ltac:(by vm_compute)
           ltac:(by vm_compute) ltac:(by vm_compute) ltac:(by left)
           (js "/generated/clip.mp4")).
  - apply list_elem_of_In. vm_compute. tauto.
  - intros Hin. apply list_elem_of_In in Hin. vm_compute in Hin.
    destruct Hin as [Hin|[]]. discriminate Hin.
  - by vm_compute.
Defined.

(** ** The normalizer accepts clean references *)

(** A text without a percent sign decodes to itself. *)
Lemma decodeFrom_plain s : forall fuel,
  37%N ∉ s -> length s < fuel -> decodeFrom fuel s = Some s.
Proof.
  induction s as [|c s IH]; intros fuel Hno Hf.
  - by destruct fuel.
  - destruct fuel as [|fuel]; [simpl in Hf; lia|].
    assert (Hc : c <> 37%N) by (intros ->; apply Hno, list_elem_of_here).
    assert (Hs : 37%N ∉ s) by (intros H; by apply Hno, list_elem_of_further).
    assert (Hrest : decodeFrom (S fuel) (c :: s) = (c ::.) <$> decodeFrom fuel s).
    { simpl. destruct c as [|q]; [done|].
      do 6 (destruct q as [q|q|]; try done). }
    rewrite Hrest, IH; [done|done|simpl in Hf; lia].
Qed.

Lemma decodeURIComponent_plain s : 37%N ∉ s -> decodeURIComponent s = Some s.
Proof. intros H. apply decodeFrom_plain; [done|lia]. Qed.

Lemma cleanPath_units token ext :
  cleanPath token ext
  = 47%N :: 103%N :: 101%N :: 110%N :: 101%N :: 114%N :: 97%N :: 116%N
    :: 101%N :: 100%N :: 47%N :: token ++ 46%N :: ext.
Proof. reflexivity. Qed.

Lemma extensions_units :
  extensions
  = [[112; 110; 103]; [106; 112; 103]; [106; 112; 101; 103]; [103; 105; 102];
     [119; 101; 98; 112]; [109; 112; 52]; [119; 101; 98; 109];
     [109; 111; 118]]%N.
Proof. reflexivity. Qed.

(** A code unit that lower-cases to a lower-case letter or a digit:
    it is a token character and folds as that letter does. *)
Lemma lowerChar_fold e c :
  lowerChar e = c -> isLower c || isDigit c = true ->
  isTokenChar e = true /\ Regex.canon true e = Regex.canon true c.
Proof.
  unfold lowerChar, isTokenChar, Regex.canon, isAlpha, isUpper, isLower, isDigit.
  simpl. intros He Hc. split; caseN.
Qed.

(** The extension, code unit by code unit. *)
Ltac ext_cases Hin ext :=
  rewrite extensions_units in Hin; rewrite !elem_of_cons in Hin;
  destruct Hin as [Hin|[Hin|[Hin|[Hin|[Hin|[Hin|[Hin|[Hin|Hin]]]]]]]];
  try (by apply elem_of_nil in Hin);
  destruct ext as [|?e [|?e [|?e [|?e [|?e ?]]]]]; simpl in Hin;
  try discriminate Hin; injection Hin; clear Hin; intros.

Lemma ext_chars ext :
  map lowerChar ext ∈ extensions -> Forall (fun c => isTokenChar c = true) ext.
Proof.
  intros Hin. ext_cases Hin ext;
    repeat match goal with
    | H : lowerChar _ = _ |- _ => apply lowerChar_fold in H as [? _]; [|done]
    end; by repeat constructor.
Qed.

Lemma canon_unit x c :
  Regex.canon true x = Regex.canon true c -> isAlpha c = false -> x = c.
Proof.
  unfold Regex.canon, isAlpha, isLower, isUpper. simpl. intros Hx Hc. caseN.
Qed.

Lemma tail_lookup token ext t y :
  (token ++ 46%N :: ext) !! (t + S (length token)) = Some y -> ext !! t = Some y.
Proof.
  rewrite lookup_app_r by lia.
  by replace (t + S (length token) - length token) with (S t) by lia.
Qed.

Lemma clean_length token ext :
  length (cleanPath token ext) = 11 + (length token + S (length ext)).
Proof. rewrite cleanPath_units. simpl. by rewrite length_app. Qed.

Lemma clean_lookup token ext q y :
  cleanPath token ext !! (11 + q) = Some y -> (token ++ 46%N :: ext) !! q = Some y.
Proof. done. Qed.

Lemma ext_lookup token ext t y :
  cleanPath token ext !! (t + S (11 + length token)) = Some y -> ext !! t = Some y.
Proof.
  intros H. apply (tail_lookup token ext), (clean_lookup _ _ _ y).
  by replace (11 + (t + S (length token))) with (t + S (11 + length token)) by lia.
Qed.

(** The lookups after the dot, as lookups in the extension. *)
Ltac to_ext :=
  repeat match goal with
  | H : cleanPath _ _ !! S (S (S (S (11 + _)))) = Some _ |- _ =>
      apply (ext_lookup _ _ 3) in H
  | H : cleanPath _ _ !! S (S (S (11 + _))) = Some _ |- _ =>
      apply (ext_lookup _ _ 2) in H
  | H : cleanPath _ _ !! S (S (11 + _)) = Some _ |- _ =>
      apply (ext_lookup _ _ 1) in H
  | H : cleanPath _ _ !! S (11 + _) = Some _ |- _ =>
      apply (ext_lookup _ _ 0) in H
  end.

Section Clean.
Import Regex.
Context (token ext : jsstring).
Hypothesis Htoken : Forall (fun c => isTokenChar c = true) token.
Hypothesis Hext : map lowerChar ext ∈ extensions.

Lemma clean_tail c :
  c ∈ token ++ 46%N :: ext -> isTokenChar c = true \/ c = 46%N.
Proof.
  rewrite elem_of_app, elem_of_cons. intros [H|[H|H]]; auto; left.
  - rewrite Forall_forall in Htoken. auto.
  - pose proof (ext_chars ext Hext) as HF. rewrite Forall_forall in HF. auto.
Qed.

Lemma clean_notin c :
  isTokenChar c = false -> c <> 46%N -> c <> 47%N -> c ∉ cleanPath token ext.
Proof.
  intros Hc H46 H47. rewrite cleanPath_units. intros H.
  do 11 (apply elem_of_cons in H as [->|H]; [by vm_compute in Hc|]).
  apply clean_tail in H as [H|H]; congruence.
Qed.

Lemma slash_positions q x :
  cleanPath token ext !! q = Some x ->
  canon true x = canon true 47%N -> q = 0 \/ q = 10.
Proof.
  rewrite cleanPath_units. intros H C.
  do 11 (destruct q as [|q];
         [simpl in H; injection H as <-; vm_compute in C;
          first [by left|by right|discriminate C]|]).
  simpl in H. apply list_elem_of_lookup_2, clean_tail in H.
  apply canon_unit in C; [|done]. subst x. by destruct H.
Qed.

(** The prefix patterns and the link pattern find nothing. *)
Lemma markdownPrefix_none m : ~ found markdownPrefix (cleanPath token ext) 0 m.
Proof.
  intros (_ & _ & _ & Hm). unfold markdownPrefix in Hm.
  cbn [rx rflags matches fignoreCase fmultiline] in Hm.
  destruct Hm as (k & (-> & Hbol) & k' & (x & Hx & Hc & _) & _).
  simpl in Hbol. rewrite orb_false_r in Hbol. apply Nat.eqb_eq in Hbol.
  rewrite Hbol in Hx. injection Hx as <-. by vm_compute in Hc.
Qed.

Lemma cameraLabelPrefix_none m :
  ~ found cameraLabelPrefix (cleanPath token ext) 0 m.
Proof.
  intros (_ & _ & _ & Hm). unfold cameraLabelPrefix in Hm.
  cbn [rx rflags matches fignoreCase fmultiline] in Hm.
  destruct Hm as (k & (-> & Hbol) & k' & (x & Hx & Hc & _) & _).
  simpl in Hbol. rewrite orb_false_r in Hbol. apply Nat.eqb_eq in Hbol.
  rewrite Hbol in Hx. injection Hx as <-. by vm_compute in Hc.
Qed.

Lemma labelPrefix_none m : ~ found labelPrefix (cleanPath token ext) 0 m.
Proof.
  intros (_ & _ & _ & Hm). unfold labelPrefix in Hm.
  cbn [rx rflags matches fignoreCase fmultiline] in Hm.
  destruct Hm as (k & (-> & Hbol) & k' & (x & Hx & Hc & _) & _).
  simpl in Hbol. rewrite orb_false_r in Hbol. apply Nat.eqb_eq in Hbol.
  rewrite Hbol in Hx. injection Hx as <-. by vm_compute in Hc.
Qed.

Lemma linkPattern_none m : ~ found linkPattern (cleanPath token ext) 0 m.
Proof.
  intros (_ & _ & _ & Hm). unfold linkPattern in Hm.
  cbn [rx rflags matches fignoreCase] in Hm.
  destruct Hm as (k & (x & Hx & Hc & _) & _).
  unfold canon in Hc. simpl in Hc. subst x.
  apply list_elem_of_lookup_2 in Hx. by apply clean_notin in Hx.
Qed.

End Clean.

Lemma replace_none re s :
  Regex.fglobal (Regex.rflags re) = true ->
  (forall m, ~ Regex.found re s 0 m) -> Regex.replace re s [] = s.
Proof.
  intros Hg Hno. unfold Regex.replace. by rewrite Hg, execAll_none.
Qed.

Lemma match1_none re s :
  (forall m, ~ Regex.found re s 0 m) -> Regex.match1 re s = None.
Proof.
  intros Hno. unfold Regex.match1.
  destruct (Regex.exec re s 0) as [m|] eqn:He; [|done].
  by apply RegexFacts.exec_sound, Hno in He.
Qed.

Section Clean2.
Import Regex.
Context (token ext : jsstring).
Hypothesis Htoken : Forall (fun c => isTokenChar c = true) token.
Hypothesis Hext : map lowerChar ext ∈ extensions.

(** The only match of the [/generated/] pattern is the whole path. *)
Lemma generatedPattern_unique i j :
  matches (rflags generatedPattern) (cleanPath token ext)
    (rx generatedPattern) i j ->
  i = 0 /\ j = length (cleanPath token ext).
Proof.
  intros Hm. unfold generatedPattern in Hm.
  cbn [rx rflags matches fignoreCase] in Hm. open_conj Hm. subst.
  assert (i = 0) as ->.
  { match goal with
    | H0 : _ !! i = Some ?x0, C0 : canon _ ?x0 = canon _ 47%N,
      H10 : _ !! S (S (S (S (S (S (S (S (S (S i))))))))) = Some ?x10,
      C10 : canon _ ?x10 = canon _ 47%N |- _ =>
        destruct (slash_positions token ext Htoken Hext _ _ H0 C0);
        destruct (slash_positions token ext Htoken Hext _ _ H10 C10); lia
    end. }
  match goal with
  | H : iter _ ?n _ _ |- _ =>
      apply (iter_class (Flags false true false false) (cleanPath token ext) false
               [CRng 97 122; CRng 65 90; CRng 48 57; CChr 95; CChr 45]) in H
        as [-> HF]
  end.
  change (drop 11 (cleanPath token ext)) with (token ++ 46%N :: ext) in HF.
  match goal with
  | H : cleanPath _ _ !! (11 + ?n) = Some ?x, C : canon _ ?x = canon _ 46%N |- _ =>
      apply clean_lookup in H; apply canon_unit in C; [|done]; subst x;
      rename H into Hdot; rename n into len
  end.
  assert (len = length token) as ->;
    [destruct (Nat.lt_trichotomy len (length token)) as [Hlt|[Heq|Hgt]];
     [|done|]|].
  - rewrite lookup_app_l in Hdot by done.
    rewrite Forall_forall in Htoken.
    apply list_elem_of_lookup_2, Htoken in Hdot. by vm_compute in Hdot.
  - rewrite Forall_forall in HF.
    assert (H46 : 46%N ∈ take len (token ++ 46%N :: ext)).
    { apply elem_of_take. exists (length token). split; [|done].
      by rewrite list_lookup_middle. }
    apply HF in H46. by vm_compute in H46.
  - clear HF. split; [done|]. rewrite clean_length.
    ext_cases Hext ext;
    destruct Hm as [Hm|[Hm|[Hm|[Hm|[Hm|[Hm|[Hm|Hm]]]]]]];
    open_conj Hm; subst; to_ext;
    repeat match goal with
    | H : (_ :: _) !! _ = Some _ |- _ => simpl in H; injection H as <-
    | H : [] !! _ = Some _ |- _ => discriminate H
    end;
    repeat match goal with
    | H : lowerChar ?e = _, C : canon true ?e = _ |- _ =>
        apply lowerChar_fold in H as [_ H]; [|done];
        rewrite H in C; clear H; vm_compute in C; try discriminate C; clear C
    end;
    simpl; lia.
Qed.

End Clean2.

Lemma ext_lookup_rev token ext t y :
  ext !! t = Some y -> cleanPath token ext !! (t + S (11 + length token)) = Some y.
Proof.
  intros H.
  replace (t + S (11 + length token)) with (11 + (length token + S t)) by lia.
  change ((token ++ 46%N :: ext) !! (length token + S t) = Some y).
  by rewrite lookup_app_r, Nat.add_comm, Nat.add_sub by lia.
Qed.

Lemma dot_lookup token ext :
  cleanPath token ext !! (11 + length token) = Some 46%N.
Proof.
  change ((token ++ 46%N :: ext) !! length token = Some 46%N).
  apply list_lookup_middle. done.
Qed.

Lemma tokenChar_class c :
  isTokenChar c = true ->
  Regex.clsMatch true false
    [Regex.CRng 97 122; Regex.CRng 65 90; Regex.CRng 48 57; Regex.CChr 95;
     Regex.CChr 45] c = true.
Proof.
  unfold isTokenChar, Regex.clsMatch, Regex.itemMatch, Regex.canon, Regex.inRange,
    isAlpha, isUpper, isLower, isDigit.
  cbn [existsb]. intros H. caseN.
Qed.

Lemma iter_class_intro fl (inp : jsstring) neg items n : forall k,
  (forall q, q < n ->
     exists x, inp !! (k + q) = Some x
               /\ Regex.clsMatch (Regex.fignoreCase fl) neg items x = true) ->
  Regex.iter (Regex.matches fl inp (Regex.Cls neg items)) n k (k + n).
Proof.
  induction n as [|n IH]; intros k Hall; simpl; [lia|].
  destruct (Hall 0 ltac:(lia)) as (x & Hx & Hc). rewrite Nat.add_0_r in Hx.
  exists (S k). split; [by exists x|].
  replace (k + S n) with (S k + n) by lia. apply IH.
  intros q Hq. destruct (Hall (S q) ltac:(lia)) as (y & Hy & Hcy).
  exists y. split; [|done]. by replace (S k + q) with (k + S q) by lia.
Qed.

(** One code unit of the extension, and the alternatives in turn. *)
Lemma ext_lookup_at token ext t y p :
  p = t + S (11 + length token) -> ext !! t = Some y ->
  cleanPath token ext !! p = Some y.
Proof. intros ->. apply ext_lookup_rev. Qed.

Ltac chr_lookup :=
  first [apply (ext_lookup_at _ _ 0); [lia|reflexivity]
        |apply (ext_lookup_at _ _ 1); [lia|reflexivity]
        |apply (ext_lookup_at _ _ 2); [lia|reflexivity]
        |apply (ext_lookup_at _ _ 3); [lia|reflexivity]].

Ltac chr_canon :=
  match goal with
  | H : lowerChar ?e = ?c |- Regex.canon true ?e = Regex.canon true ?c =>
      exact (proj2 (lowerChar_fold e c H eq_refl))
  end.

Ltac chr_mid :=
  eexists; split; [eexists; split; [chr_lookup|split; [chr_canon|reflexivity]]|].

Ltac chr_last := eexists; split; [chr_lookup|split; [chr_canon|reflexivity]].

Ltac chr_seq := repeat chr_mid; chr_last.

Ltac chr_alt := first [solve [chr_seq]|left; solve [chr_seq]|right; chr_alt].

Section Clean3.
Import Regex.
Context (token ext : jsstring).
Hypothesis Hne : token <> [].
Hypothesis Htoken : Forall (fun c => isTokenChar c = true) token.
Hypothesis Hext : map lowerChar ext ∈ extensions.

Lemma token_iter :
  exists n, 1 <= n /\ True
    /\ iter (matches (Flags false true false false) (cleanPath token ext)
               (Cls false [CRng 97 122; CRng 65 90; CRng 48 57; CChr 95; CChr 45]))
         n 11 (11 + length token).
Proof.
  exists (length token). split; [destruct token; [done|simpl; lia]|].
  split; [done|].
  apply (iter_class_intro (Flags false true false false)). intros q Hq.
  destruct (lookup_lt_is_Some_2 token q Hq) as [x Hx]. exists x. split.
  - change ((token ++ 46%N :: ext) !! q = Some x). by rewrite lookup_app_l.
  - apply tokenChar_class. rewrite Forall_forall in Htoken.
    by apply Htoken, list_elem_of_lookup_2 with q.
Qed.

End Clean3.

Lemma generatedPattern_some token ext :
  token <> [] -> Forall (fun c => isTokenChar c = true) token ->
  map lowerChar ext ∈ extensions ->
  exists j, Regex.matches (Regex.rflags generatedPattern) (cleanPath token ext)
              (Regex.rx generatedPattern) 0 j.
Proof.
  intros Hne Htoken Hext. ext_cases Hext ext;
    eexists; unfold generatedPattern;
    cbn [Regex.rx Regex.rflags Regex.matches Regex.fignoreCase];
    do 11 (eexists; split; [eexists; split; [reflexivity|split; reflexivity]|]);
    (eexists; split; [by apply token_iter|]);
    (eexists; split; [eexists; split; [apply dot_lookup|split; reflexivity]|]);
    chr_alt.
Qed.

Lemma mediaExtension_some token ext :
  map lowerChar ext ∈ extensions ->
  exists j, Regex.matches (Regex.rflags mediaExtension) (cleanPath token ext)
              (Regex.rx mediaExtension) (11 + length token) j.
Proof.
  intros Hext. ext_cases Hext ext;
    eexists; unfold mediaExtension;
    cbn [Regex.rx Regex.rflags Regex.matches Regex.fignoreCase Regex.fmultiline];
    (eexists; split; [eexists; split; [apply dot_lookup|split; reflexivity]|]);
    (eexists; split; [chr_alt|]); (split; [reflexivity|]);
    rewrite clean_length; apply orb_true_iff; left; apply Nat.eqb_eq; simpl; lia.
Qed.

Lemma sanitize_steps p q :
  p <> [] ->
  decodeURIComponent p = Some q ->
  Regex.replace markdownPrefix q [] = q ->
  Regex.replace cameraLabelPrefix q [] = q ->
  Regex.replace labelPrefix q [] = q ->
  Regex.match1 linkPattern q = None ->
  includes q (js "/generated/") = true ->
  (exists m, Regex.match1 generatedPattern q = Some m /\ Regex.grp q m 1 = q) ->
  startsWith q (js "/generated/") = true ->
  Regex.test mediaExtension q = true ->
  sanitizeImagePath p = Some q.
Proof.
  intros Hp Hd H1 H2 H3 H4 H5 (m & H6 & H7) H8 H9.
  unfold sanitizeImagePath. destruct p as [|c p]; [done|].
  rewrite Hd. cbn [default from_option id]. rewrite H1, H2, H3, H4, H5, H6, H7, H8, H9. done.
Qed.

(** X17.  The normalizer returns a clean reference as it is:
    [sanitizeImagePath] maps every [/generated/<token>.<ext>], with a
    non-empty token of ASCII letters, digits, [_] and [-] and one of the
    eight extensions in any case of its letters, to itself. *)
Theorem sanitize_accepts_clean (path : jsstring) :
  CleanPath path -> sanitizeImagePath path = Some path.
Proof.
  intros (token & ext & -> & Hne & Htoken & Hext).
  assert (Hlen : 11 + length token <= length (cleanPath token ext))
    by (rewrite clean_length; lia).
  apply sanitize_steps.
  - by rewrite cleanPath_units.
  - apply decodeURIComponent_plain. by apply clean_notin.
  - apply replace_none; [done|]. by apply markdownPrefix_none.
  - apply replace_none; [done|]. by apply cameraLabelPrefix_none.
  - apply replace_none; [done|]. by apply labelPrefix_none.
  - apply match1_none. by apply linkPattern_none.
  - apply (includes_drop _ _ 0), startsWith_prefix.
  - destruct (generatedPattern_some token ext Hne Htoken Hext) as [j Hj].
    destruct (exec_complete generatedPattern (cleanPath token ext) 0 0 j
                ltac:(lia) Hj) as (m & He & _).
    exists m. split; [done|].
    destruct (exec_group_set _ _ _ _ 1 He) as [sub Hg]; [done|done|].
    unfold Regex.grp. rewrite Hg. simpl.
    destruct (exec_group _ _ _ _ _ _ He Hg) as (a & b & body & -> & Hbody & Hm).
    vm_compute in Hbody. apply list_elem_of_singleton in Hbody. subst body.
    change (Regex.matches (Regex.rflags generatedPattern) (cleanPath token ext)
              (Regex.rx generatedPattern) a b) in Hm.
    apply (generatedPattern_unique token ext Htoken Hext) in Hm as [-> ->].
    unfold substring. by rewrite drop_0, Nat.sub_0_r, take_ge.
  - apply startsWith_prefix.
  - destruct (mediaExtension_some token ext Hext) as [j Hj].
    by apply (test_complete mediaExtension _ (11 + length token) j).
Qed.

Lemma sanitize_accepts_clean_witness :
  CleanPath (js "/generated/post_1-final.PNG")
  /\ sanitizeImagePath (js "/generated/post_1-final.PNG")
     = Some (js "/generated/post_1-final.PNG").
Proof.
  assert (H : CleanPath (js "/generated/post_1-final.PNG")).
  { exists (js "post_1-final"), (js "PNG"). split; [reflexivity|].
    split; [discriminate|]. split; [by repeat constructor|].
    apply list_elem_of_In. vm_compute. tauto. }
  split; [exact H|]. exact (sanitize_accepts_clean _ H).
Defined.
